(** * Molecule: formula parser and isotope-pattern engine

    A shallow embedding of [_classes/_Molecule.py] (Python 2).

    Conventions of the embedding.
    - A Python [dict] is an association list whose order is the order in which
      [for key in d] visits the keys; an update of a present key keeps its
      place, a new key goes to the end, [del] removes the entry.  The order
      of a CPython 2 dictionary is that of its hash table, so a statement
      below either holds for every order of the keys or names the order it
      runs on; the runs on {H, O} use the order H, O, which is also the
      order of these keys in CPython 2.
    - A Python [float] is an exact rational ([Q]); a division by zero raises
      [ZeroDivisionError] as in Python.  Equality of floats ([==]) is [Qeq].
      The one place where the rounding of a float decides what the code
      does is the test [tempval.is_integer()] of [__div__]: there the
      conversions [float(n)] and the division round to double precision
      (module [Double]).
    - A paired list [[mz values],[intensity values]] is a list of pairs.
    - A method of [Molecule] is a function from the instance to an outcome
      and the instance after the call, so that what a call leaves behind when
      it raises is part of the model. *)

From Stdlib Require Import ZArith QArith Qround List String Ascii Bool Lia
  Permutation.
Import ListNotations.

Local Open Scope string_scope.
Local Open Scope list_scope.
Local Open Scope Z_scope.

(** ** Outcomes *)

Inductive exn : Type :=
| ValueError | KeyError | IndexError | TypeError | ZeroDivisionError
| RuntimeError | OverflowError.

(** [Loops]: the source does not terminate.  [OutOfFuel]: the recursion bound
    of the model was reached (shown below not to happen for the parser). *)
Inductive result (A : Type) : Type :=
| Ok (a : A)
| Raise (e : exn)
| Loops
| OutOfFuel.

Arguments Ok {A} a.
Arguments Raise {A} e.
Arguments Loops {A}.
Arguments OutOfFuel {A}.

Definition rbind {A B} (r : result A) (k : A -> result B) : result B :=
  match r with
  | Ok a => k a
  | Raise e => Raise e
  | Loops => Loops
  | OutOfFuel => OutOfFuel
  end.

(** State and exceptions: the state survives a raise. *)
Definition M (S A : Type) : Type := S -> result A * S.

Definition ret {S A} (a : A) : M S A := fun s => (Ok a, s).
Definition bind {S A B} (c : M S A) (k : A -> M S B) : M S B :=
  fun s => match c s with
           | (Ok a, s') => k a s'
           | (Raise e, s') => (Raise e, s')
           | (Loops, s') => (Loops, s')
           | (OutOfFuel, s') => (OutOfFuel, s')
           end.
Definition lift {S A} (r : result A) : M S A := fun s => (r, s).
Definition raise {S A} (e : exn) : M S A := fun s => (Raise e, s).
Definition modify {S} (f : S -> S) : M S unit := fun s => (Ok tt, f s).
Definition gets {S A} (f : S -> A) : M S A := fun s => (Ok (f s), s).

Declare Scope py_scope.
Delimit Scope py_scope with py.
Notation "x <- c ;; k" := (bind c (fun x => k))
  (at level 61, c at next level, right associativity) : py_scope.
Notation "' p <- c ;; k" := (bind c (fun x => let p := x in k))
  (at level 61, p pattern, c at next level, right associativity) : py_scope.
Notation "c ;;; k" := (bind c (fun _ => k))
  (at level 61, right associativity) : py_scope.

(** ** Python primitives *)

Module Py.

Definition ord (c : ascii) : N := N_of_ascii c.

Definition isdigit (c : ascii) : bool := ((48 <=? ord c) && (ord c <=? 57))%N.
Definition isupper (c : ascii) : bool := ((65 <=? ord c) && (ord c <=? 90))%N.
Definition islower (c : ascii) : bool := ((97 <=? ord c) && (ord c <=? 122))%N.
Definition isalpha (c : ascii) : bool := isupper c || islower c.
Definition isspace (c : ascii) : bool :=
  ((ord c =? 32) || ((9 <=? ord c) && (ord c <=? 13)))%N.

(** [s[n:]] *)
Fixpoint drop (n : nat) (s : string) : string :=
  match n, s with
  | O, _ => s
  | S n', String _ r => drop n' r
  | S _, EmptyString => EmptyString
  end.

Fixpoint all (p : ascii -> bool) (s : string) : bool :=
  match s with
  | EmptyString => true
  | String c r => p c && all p r
  end.

Fixpoint any (p : ascii -> bool) (s : string) : bool :=
  match s with
  | EmptyString => false
  | String c r => p c || any p r
  end.

Fixpoint filter (p : ascii -> bool) (s : string) : string :=
  match s with
  | EmptyString => EmptyString
  | String c r => if p c then String c (filter p r) else filter p r
  end.

(** The longest prefix of characters satisfying [p], and what follows it. *)
Fixpoint span (p : ascii -> bool) (s : string) : string * string :=
  match s with
  | EmptyString => (EmptyString, EmptyString)
  | String c r =>
      if p c then let (a, b) := span p r in (String c a, b)
      else (EmptyString, s)
  end.

(** [str(n)] for an integer. *)
Definition digit_char (d : Z) : ascii := ascii_of_N (Z.to_N (48 + d)).

Fixpoint str_digits (fuel : nat) (n : Z) (acc : string) : string :=
  match fuel with
  | O => acc
  | S f =>
      let acc' := String (digit_char (n mod 10)) acc in
      if n <? 10 then acc' else str_digits f (n / 10) acc'
  end.

Definition str (n : Z) : string :=
  if n <? 0 then String "-" (str_digits (S (Z.to_nat (Z.log2 (- n)))) (- n) "")
  else str_digits (S (Z.to_nat (Z.log2 n))) n "".

(** [int(s)]: surrounding whitespace is ignored, one sign is allowed, the
    rest must be a non-empty run of decimal digits. *)
Definition digit_val (c : ascii) : Z := Z.of_N (ord c) - 48.

Fixpoint int_digits (acc : Z) (s : string) : Z :=
  match s with
  | EmptyString => acc
  | String c r => int_digits (10 * acc + digit_val c) r
  end.

Fixpoint lstrip (s : string) : string :=
  match s with
  | EmptyString => EmptyString
  | String c r => if isspace c then lstrip r else s
  end.

Fixpoint rstrip (s : string) : string :=
  match s with
  | EmptyString => EmptyString
  | String c r =>
      match rstrip r with
      | EmptyString => if isspace c then EmptyString else String c EmptyString
      | r' => String c r'
      end
  end.

Definition strip (s : string) : string := rstrip (lstrip s).

Definition int_unsigned (s : string) : result Z :=
  match s with
  | EmptyString => Raise ValueError
  | _ => if all isdigit s then Ok (int_digits 0 s) else Raise ValueError
  end.

Definition int (s : string) : result Z :=
  match strip s with
  | EmptyString => Raise ValueError
  | String c r =>
      if Ascii.eqb c "-" then rbind (int_unsigned r) (fun v => Ok (- v))
      else if Ascii.eqb c "+" then int_unsigned r
      else int_unsigned (String c r)
  end.

(** [round(x, dec)] of Python 2: to the nearest multiple of [10**-dec], ties
    away from zero. *)
Definition round_half_away (x : Q) : Z :=
  if Qle_bool 0 x then Qfloor (x + (1 # 2)) else Qceiling (x - (1 # 2)).

Definition round (x : Q) (dec : Z) : Q :=
  (inject_Z (round_half_away (x * Qpower 10 dec)) / Qpower 10 dec)%Q.

(** [a / b] on floats. *)
Definition fdiv (a b : Q) : result Q :=
  if Qeq_bool b 0 then Raise ZeroDivisionError else Ok (a / b)%Q.

(** [max(l)] and [min(l)]; [ValueError] on an empty sequence. *)
Definition max (l : list Q) : result Q :=
  match l with
  | [] => Raise ValueError
  | x :: r => Ok (fold_left (fun m y => if Qle_bool y m then m else y) r x)
  end.

Definition min (l : list Q) : result Q :=
  match l with
  | [] => Raise ValueError
  | x :: r => Ok (fold_left (fun m y => if Qle_bool m y then m else y) r x)
  end.

Definition sum (l : list Q) : Q := fold_left Qplus l (0 : Q)%Q.

End Py.

(** ** Double precision

    The floats of [float(self.comp[key])/float(x)] in [__div__]: a double
    has a significand of 53 bits, and a conversion or a division gives the
    double nearest to the exact value, a tie going to the even
    significand.  A double is written as the rational it stands for. *)

Module Double.

(** [z * 2^k] for [k >= 0], and [z] for a negative [k]. *)
Definition shl (z k : Z) : Z := z * 2 ^ Z.max 0 k.

(** For [a, b > 0], the exponent [e] of the quotient:
    [2^e <= a/b < 2^(e+1)]. *)
Definition ilog2 (a b : Z) : Z :=
  let e := Z.log2 a - Z.log2 b in
  if shl a (- e) <? shl b e then e - 1 else e.

(** The integer nearest to [a/b], for [b > 0]; a tie goes to the even
    one. *)
Definition rne (a b : Z) : Z :=
  let q := a / b in
  match 2 * (a mod b) ?= b with
  | Lt => q
  | Gt => q + 1
  | Eq => if Z.even q then q else q + 1
  end.

(** [float(z)] for an [int] or a [long]: the double nearest to [z], which
    is an integer itself; [None] is the [OverflowError] of a [long] too
    large for a double. *)
Definition of_int (z : Z) : option Z :=
  let sh := Z.max 0 (Z.log2 (Z.abs z) - 52) in
  let r := Z.sgn z * (rne (Z.abs z) (2 ^ sh) * 2 ^ sh) in
  if 2 ^ 1024 <=? Z.abs r then None else Some r.

(** The double nearest to [a/b], for [b <> 0]: the significand [m] is the
    quotient scaled into [2^52 .. 2^53] and rounded.  The quotients met
    here, of an integer below [2^1024] by an [int], are within the range
    of the exponent of a double. *)
Definition nearest (a b : Z) : Q :=
  if a =? 0 then 0%Q
  else
    let k := 52 - ilog2 (Z.abs a) (Z.abs b) in
    let m := rne (shl (Z.abs a) k) (shl (Z.abs b) (- k)) in
    Qmake (Z.sgn a * Z.sgn b * shl m (- k)) (Z.to_pos (shl 1 k)).

(** [float(v)/float(x)] *)
Definition quotient (v x : Z) : Q + exn :=
  match of_int v with
  | None => inr OverflowError
  | Some a =>
      match of_int x with
      | None => inr OverflowError
      | Some b =>
          if b =? 0 then inr ZeroDivisionError else inl (nearest a b)
      end
  end.

(** [t.is_integer()] *)
Definition is_integer (t : Q) : bool := Qnum t mod QDen t =? 0.

(** [int(t)]: the fraction is cut off. *)
Definition to_int (t : Q) : Z := Z.quot (Qnum t) (QDen t).

End Double.

(** ** Dictionaries *)

Class KeyEq (K : Type) : Type := {
  keqb : K -> K -> bool;
  keqb_eq : forall a b, keqb a b = true <-> a = b
}.

#[export] Instance KeyEq_string : KeyEq string :=
  {| keqb := String.eqb; keqb_eq := String.eqb_eq |}.

#[export] Instance KeyEq_Z : KeyEq Z :=
  {| keqb := Z.eqb; keqb_eq := Z.eqb_eq |}.

Module Dict.
Section Ops.
Context {K V : Type} `{KeyEq K}.

Definition t : Type := list (K * V).

Fixpoint get (k : K) (d : t) : option V :=
  match d with
  | [] => None
  | (k', v) :: r => if keqb k' k then Some v else get k r
  end.

Definition has_key (k : K) (d : t) : bool :=
  match get k d with Some _ => true | None => false end.

(** [d[k] = v] *)
Fixpoint put (k : K) (v : V) (d : t) : t :=
  match d with
  | [] => [(k, v)]
  | (k', v') :: r =>
      if keqb k' k then (k, v) :: r else (k', v') :: put k v r
  end.

(** [del d[k]] *)
Fixpoint del (k : K) (d : t) : t :=
  match d with
  | [] => []
  | (k', v') :: r => if keqb k' k then r else (k', v') :: del k r
  end.

Definition keys (d : t) : list K := map fst d.

(** [d[k]], raising [KeyError]. *)
Definition item (k : K) (d : t) : result V :=
  match get k d with Some v => Ok v | None => Raise KeyError end.
End Ops.
Arguments t : clear implicits.
End Dict.

(** [try: d[k] += v / except KeyError: d[k] = v] *)
Definition accumulate {K} `{KeyEq K} (k : K) (v : Z) (d : Dict.t K Z) : Dict.t K Z :=
  match Dict.get k d with
  | Some old => Dict.put k (old + v) d
  | None => Dict.put k v d
  end.

Definition accumulateQ {K} `{KeyEq K} (k : K) (v : Q) (d : Dict.t K Q) : Dict.t K Q :=
  match Dict.get k d with
  | Some old => Dict.put k (old + v)%Q d
  | None => Dict.put k v d
  end.

(** ** The Molecule instance *)

(** [self.ks], after [__init__] has interpreted the charge. *)
Record config : Type := mkConfig {
  verbose : bool;
  decpl : Z;
  res : Z;
  charge : Z;
  emptyspec : bool;
  sign : ascii
}.

Definition composition_t : Type := Dict.t string Z.

(** A discretized spectrum: [(m/z, intensity)] pairs. *)
Definition spectrum_t : Type := list (Q * Q).

(** The attributes of an instance.  [sigma] is [fwhm] divided by the
    irrational constant [2*sqrt(2*ln 2)] and is not represented. *)
Record molecule : Type := mkMolecule {
  ks : config;
  formula : string;
  comp : composition_t;
  sf : string;
  mw : Q;
  pcomp : Dict.t string Q;
  rawip : spectrum_t;
  barip : spectrum_t;
  em : Q;
  fwhm : Q
}.

Definition set_charge (v : Z) (s : ascii) (m : molecule) : molecule :=
  mkMolecule
    (mkConfig (verbose (ks m)) (decpl (ks m)) (res (ks m)) v
              (emptyspec (ks m)) s)
    (formula m) (comp m) (sf m) (mw m) (pcomp m) (rawip m) (barip m) (em m)
    (fwhm m).

Definition set_comp (c : composition_t) (m : molecule) : molecule :=
  mkMolecule (ks m) (formula m) c (sf m) (mw m) (pcomp m) (rawip m) (barip m)
    (em m) (fwhm m).

Definition set_formula (f : string) (m : molecule) : molecule :=
  mkMolecule (ks m) f (comp m) (sf m) (mw m) (pcomp m) (rawip m) (barip m)
    (em m) (fwhm m).

Definition set_sf (f : string) (m : molecule) : molecule :=
  mkMolecule (ks m) (formula m) (comp m) f (mw m) (pcomp m) (rawip m) (barip m)
    (em m) (fwhm m).

Definition set_mw (w : Q) (p : Dict.t string Q) (m : molecule) : molecule :=
  mkMolecule (ks m) (formula m) (comp m) (sf m) w p (rawip m) (barip m)
    (em m) (fwhm m).

Definition set_rawip (r : spectrum_t) (m : molecule) : molecule :=
  mkMolecule (ks m) (formula m) (comp m) (sf m) (mw m) (pcomp m) r (barip m)
    (em m) (fwhm m).

Definition set_barip (b : spectrum_t) (m : molecule) : molecule :=
  mkMolecule (ks m) (formula m) (comp m) (sf m) (mw m) (pcomp m) (rawip m) b
    (em m) (fwhm m).

Definition set_em (e : Q) (m : molecule) : molecule :=
  mkMolecule (ks m) (formula m) (comp m) (sf m) (mw m) (pcomp m) (rawip m)
    (barip m) e (fwhm m).

Definition set_fwhm (w : Q) (m : molecule) : molecule :=
  mkMolecule (ks m) (formula m) (comp m) (sf m) (mw m) (pcomp m) (rawip m)
    (barip m) (em m) w.

(** A method of the instance. *)
Definition method (A : Type) : Type := M molecule A.

(** ** interpretcharge *)

(** The [charge] argument: an [int] or a string. *)
Inductive charge_arg : Type :=
| ChargeInt (z : Z)
| ChargeStr (s : string).

Definition is_mode (c : ascii) : bool :=
  Ascii.eqb c "+" || Ascii.eqb c "-".

(** The [for] loop of [interpretcharge]: the last mode character met sets the
    sign, every other character is appended to [value]. *)
Fixpoint charge_scan (s : string) (value : string) (sg : ascii)
  : string * ascii :=
  match s with
  | EmptyString => (value, sg)
  | String c r =>
      if is_mode c then charge_scan r value c
      else charge_scan r (value ++ String c EmptyString)%string sg
  end.

Definition interpretcharge (a : charge_arg) : result (Z * ascii) :=
  match a with
  | ChargeInt z => Ok (z, "+"%char)
  | ChargeStr s =>
      let (value, sg) := charge_scan s EmptyString "+"%char in
      rbind (Py.int value) (fun v => Ok (v, sg))
  end.

(** ** isotope *)

(** The [while] loop of [isotope], on the characters from index [i] on.  A
    digit is consumed and the character after it is looked at in the same
    iteration ([IndexError] when there is none); a character that is neither
    a digit nor a letter is never consumed. *)
Fixpoint isotope_scan (s : string) (iso ele : string) : result (string * string) :=
  match s with
  | EmptyString => Ok (ele, iso)
  | String c r =>
      if Py.isdigit c then
        match r with
        | EmptyString => Raise IndexError
        | String c' r' =>
            if Py.isalpha c' then
              isotope_scan r' (iso ++ String c EmptyString)%string
                           (ele ++ String c' EmptyString)%string
            else isotope_scan r (iso ++ String c EmptyString)%string ele
        end
      else if Py.isalpha c then
        isotope_scan r iso (ele ++ String c EmptyString)%string
      else Loops
  end.

Definition isotope (key : string) : result (string * Z) :=
  match key with
  | EmptyString => Raise IndexError
  | String c r =>
      rbind (isotope_scan r (String c EmptyString) EmptyString)
            (fun '(ele, iso) => rbind (Py.int iso) (fun n => Ok (ele, n)))
  end.

(** ** composition *)

Definition sbrack : list ascii := ["("; "{"; "["]%char.
Definition ebrack : list ascii := [")"; "}"; "]"]%char.

Definition in_sbrack (c : ascii) : bool := existsb (Ascii.eqb c) sbrack.

(** [sbrack.index(c)] followed by [ebrack[...]]: the closing bracket of an
    opening one. *)
Definition closing_of (c : ascii) : option ascii :=
  if Ascii.eqb c "(" then Some ")"%char
  else if Ascii.eqb c "{" then Some "}"%char
  else if Ascii.eqb c "[" then Some "]"%char
  else None.

(** [interpret(block)] *)
Definition interpret (block : string) : result composition_t :=
  match block with
  | EmptyString => Raise IndexError
  | String c rest =>
      if Py.isdigit c then Ok [(block, 1)]
      else
        let num := Py.filter Py.isdigit rest in
        let ele := String c (Py.filter (fun x => negb (Py.isdigit x)) rest) in
        match num with
        | EmptyString => Ok [(ele, 1)]
        | _ => rbind (Py.int num) (fun n => Ok [(ele, n)])
        end
  end.

(** The scan for the close bracket in [bracket]: [s] is the text after the
    opening bracket, [nest] the nesting counter.  Returns the block and the
    text after the close bracket, or [None] when no close bracket is met. *)
Fixpoint bracket_scan (op cl : ascii) (nest : Z) (s : string)
  : option (string * string) :=
  match s with
  | EmptyString => None
  | String c r =>
      if Ascii.eqb c op then
        match bracket_scan op cl (nest + 1) r with
        | Some (block, after) => Some (String c block, after)
        | None => None
        end
      else if Ascii.eqb c cl then
        if nest - 1 =? 0 then Some (EmptyString, r)
        else
          match bracket_scan op cl (nest - 1) r with
          | Some (block, after) => Some (String c block, after)
          | None => None
          end
      else
        match bracket_scan op cl nest r with
        | Some (block, after) => Some (String c block, after)
        | None => None
        end
  end.

(** [for key in src: try: dst[key] += src[key]*bnum / except KeyError:
    dst[key] = src[key]*bnum] *)
Definition merge_scaled (bnum : Z) (src dst : composition_t) : composition_t :=
  fold_left (fun d kv => accumulate (fst kv) (snd kv * bnum) d) src dst.

(** [for ele in nomdict: try: comp[ele] += nomdict[ele] ...] *)
Definition merge (src dst : composition_t) : composition_t :=
  fold_left (fun d kv => accumulate (fst kv) (snd kv) d) src dst.

Local Open Scope py_scope.

Section Parser.
(** The abbreviation table of [_formabbrvs.py]. *)
Variable abbrvs : Dict.t string composition_t.

(** [while len(block) > 0: ftemp, tempdict = chewformula(block); ...;
    block = ftemp], with the way a chewed block is merged as a parameter. *)
Fixpoint chew_loop (chew : string -> method (string * composition_t))
    (upd : composition_t -> composition_t -> composition_t)
    (n : nat) (block : string) (outdict : composition_t)
  : method composition_t :=
  match block with
  | EmptyString => ret outdict
  | _ =>
      match n with
      | O => lift OutOfFuel
      | S n' =>
          r <- chew block ;;
          chew_loop chew upd n' (fst r) (upd (snd r) outdict)
      end
  end.

(** [bracket(form)], given the function to chew the block with. *)
Definition bracket (chew : string -> method (string * composition_t))
    (form : string) : method (string * composition_t) :=
  match form with
  | EmptyString => raise IndexError
  | String c0 rest =>
      match closing_of c0 with
      | None => raise ValueError
      | Some cl =>
          match bracket_scan c0 cl 1 rest with
          | None => raise ValueError
          | Some (block, after) =>
              let bnum := fst (Py.span Py.isdigit after) in
              let lblock :=
                (String.length block + String.length bnum + 2)%nat in
              n <- lift (match bnum with
                         | EmptyString => Ok 1
                         | _ => Py.int bnum
                         end) ;;
              outdict <- chew_loop chew (merge_scaled n)
                           (String.length block) block [] ;;
              ret (Py.drop lblock form, outdict)
          end
      end
  end.

(** [chewformula(formula)]; [fuel] bounds the depth of bracket nesting. *)
Fixpoint chewformula (fuel : nat) (formula : string)
  : method (string * composition_t) :=
  match fuel with
  | O => lift OutOfFuel
  | S fuel' =>
      match formula with
      | EmptyString => raise IndexError
      | String c rest =>
          if Py.isupper c then
            let block :=
              String c (fst (Py.span
                 (fun x => negb (Py.isupper x || in_sbrack x)) rest)) in
            d <- lift (interpret block) ;;
            ret (Py.drop (String.length block) formula, d)
          else if in_sbrack c then bracket (chewformula fuel') formula
          else if Py.isdigit c then
            if Py.any Py.isalpha formula then ret (EmptyString, [(formula, 1)])
            else
              cs <- lift (interpretcharge (ChargeStr formula)) ;;
              modify (set_charge (fst cs) (snd cs)) ;;;
              ret (EmptyString, [])
          else raise TypeError
      end
  end.

(** [abbreviations(dic)] *)
Definition abbreviations (dic : composition_t) : composition_t :=
  fold_left
    (fun comptemp kv =>
       match Dict.get (fst kv) abbrvs with
       | Some sub =>
           fold_left
             (fun ct sk => accumulate (fst sk) (snd sk * snd kv) ct)
             sub comptemp
       | None => accumulate (fst kv) (snd kv) comptemp
       end)
    dic [].

(** [composition(formula)] *)
Definition composition (formula : string) : method composition_t :=
  comp <- chew_loop (chewformula (String.length formula)) merge
            (String.length formula) formula [] ;;
  ret (abbreviations comp).
End Parser.

(** ** molecularformula *)

(** Order of [(key, value)] tuples, as [sorted] compares them. *)
Definition item_leb (a b : string * Z) : bool :=
  match String.compare (fst a) (fst b) with
  | Lt => true
  | Gt => false
  | Eq => snd a <=? snd b
  end.

Fixpoint insert_item (x : string * Z) (l : list (string * Z))
  : list (string * Z) :=
  match l with
  | [] => [x]
  | y :: r => if item_leb x y then x :: l else y :: insert_item x r
  end.

(** [sorted(d.items())] *)
Definition sorted_items (d : composition_t) : list (string * Z) :=
  fold_right insert_item [] d.

(** [out += key], then [out += str(count)] when the count exceeds 1. *)
Definition render (key : string) (n : Z) : string :=
  let count := if 1 <? n then Py.str n else EmptyString in
  (key ++ count)%string.

(** [molecularformula()], on [self.comp].  In the loop [self.comp[key]] is
    the value [val] of the item. *)
Definition molecularformula (comp : composition_t) : string :=
  let out := EmptyString in
  let out := match Dict.get "C" comp with
             | Some n => (out ++ render "C" n)%string
             | None => out
             end in
  let out := match Dict.get "H" comp with
             | Some n => (out ++ render "H" n)%string
             | None => out
             end in
  fold_left
    (fun out kv =>
       if negb (String.eqb (fst kv) "C") && negb (String.eqb (fst kv) "H")
       then (out ++ render (fst kv) (snd kv))%string
       else out)
    (sorted_items comp) out.

(** ** The spectrum accumulator *)

(** Modelled from the spec: the class [Spectrum] of [_Spectrum.py] is not
    part of the sources at hand.  Section 6 of the specification describes it
    as a binned series that adds a single (mass, intensity) contribution into
    the nearest bin at the configured precision, normalizes so that the maximum
    equals a given ceiling, drops entries below an absolute intensity
    threshold, and exports the set bins as paired sequences.  The bounds
    [start] and [end] only size the storage and are kept as given. *)
Record Spectrum : Type := mkSpectrum {
  sp_decpl : Z;
  sp_start : Q;
  sp_end : Q;
  sp_empty : bool;
  sp_bins : spectrum_t
}.

Definition with_bins (sp : Spectrum) (b : spectrum_t) : Spectrum :=
  mkSpectrum (sp_decpl sp) (sp_start sp) (sp_end sp) (sp_empty sp) b.

(** Modelled from the spec: accumulate [y] into the bin [x] of a series kept
    in ascending order of mass. *)
Fixpoint bin_add (x y : Q) (bins : spectrum_t) : spectrum_t :=
  match bins with
  | [] => [(x, y)]
  | (x', y') :: r =>
      match Qcompare x x' with
      | Lt => (x, y) :: bins
      | Eq => (x', (y' + y)%Q) :: r
      | Gt => (x', y') :: bin_add x y r
      end
  end.

(** Modelled from the spec: [Spectrum.addvalue(x, y)], into the nearest bin at
    the configured precision. *)
Definition addvalue (x y : Q) (sp : Spectrum) : Spectrum :=
  with_bins sp (bin_add (Py.round x (sp_decpl sp)) y (sp_bins sp)).

(** Modelled from the spec: [Spectrum.normalize(top)], so that the maximum
    equals [top]. *)
Definition normalize (top : Q) (sp : Spectrum) : result Spectrum :=
  rbind (Py.max (map snd (sp_bins sp))) (fun m =>
  if Qeq_bool m 0 then Raise ZeroDivisionError
  else Ok (with_bins sp
             (map (fun p => (fst p, (snd p / m * top)%Q)) (sp_bins sp)))).

(** Modelled from the spec: [Spectrum.threshold(thresh)], dropping the entries
    below the absolute intensity [thresh]. *)
Definition threshold (thresh : Q) (sp : Spectrum) : Spectrum :=
  with_bins sp
    (List.filter (fun p => Qle_bool thresh (snd p)) (sp_bins sp)).

(** Modelled from the spec: [Spectrum.trim()], the set bins as paired
    sequences. *)
Definition trim (sp : Spectrum) : spectrum_t := sp_bins sp.

(** ** The engine *)

(** An element of the mass dictionary: isotope number -> (exact mass, natural
    abundance); the number 0 is the aggregate entry. *)
Definition isotopes_t : Type := Dict.t Z (Q * Q).

Fixpoint mapM {A B} (f : A -> result B) (l : list A) : result (list B) :=
  match l with
  | [] => Ok []
  | x :: r => rbind (f x) (fun y => rbind (mapM f r) (fun ys => Ok (y :: ys)))
  end.

Fixpoint foldM {A B} (f : B -> A -> result B) (l : list A) (b : B) : result B :=
  match l with
  | [] => Ok b
  | x :: r => rbind (f b x) (foldM f r)
  end.

Fixpoint iterM {A} (n : nat) (f : A -> result A) (a : A) : result A :=
  match n with
  | O => Ok a
  | S n' => rbind (f a) (iterM n' f)
  end.

(** [groupmasses(ip, delta)] *)
Fixpoint groupmasses (delta : Q) (ip : spectrum_t) : list spectrum_t :=
  match ip with
  | [] => [[]]
  | p :: rest =>
      match rest with
      | [] => [[p]]
      | q :: _ =>
          if Qle_bool (fst q - fst p) delta then
            match groupmasses delta rest with
            | g :: gs => (p :: g) :: gs
            | [] => [[p]]
            end
          else [p] :: groupmasses delta rest
      end
  end.

(** [ipgrouptopoint(ipgroup)]: weighted m/z and summed intensity. *)
Definition ipgrouptopoint (ipgroup : spectrum_t) : result (Q * Q) :=
  let s := fold_left (fun s p => (s + fst p * snd p)%Q) ipgroup (0 : Q) in
  let total := Py.sum (map snd ipgroup) in
  rbind (Py.fdiv s total) (fun x => Ok (x, total)).

(** [barisotopepattern(rawip, charge)] *)
Definition barisotopepattern (rawip : spectrum_t) (charge : Z)
  : result spectrum_t :=
  let groupedip := groupmasses (1 # 2) rawip in
  rbind (mapM ipgrouptopoint groupedip) (fun out =>
  rbind (Py.max (map snd out)) (fun maxint =>
  mapM (fun p =>
          rbind (Py.fdiv (fst p) (inject_Z (Z.abs charge))) (fun x =>
          rbind (Py.fdiv (snd p) maxint) (fun y =>
          Ok (x, (y * 100)%Q))))
       out)).

(** [list.index(v)] on the intensities, then the mass at that index. *)
Fixpoint mass_at_intensity (v : Q) (ip : spectrum_t) : result Q :=
  match ip with
  | [] => Raise ValueError
  | p :: r => if Qeq_bool (snd p) v then Ok (fst p) else mass_at_intensity v r
  end.

(** [preciseexactmass()], on [self.barip]. *)
Definition preciseexactmass (barip : spectrum_t) : result Q :=
  mass_at_intensity 100 barip.

(** [sigmafwhm()]: the full width at half maximum. *)
Definition sigmafwhm (em : Q) (res : Z) : result Q :=
  Py.fdiv em (inject_Z res).

Section Engine.
(** The mass dictionary of [_nist_mass.py]. *)
Variable md : Dict.t string isotopes_t.

(** [checkinnist(comp)] *)
Definition checkinnist (comp : composition_t) : result unit :=
  foldM (fun _ kv =>
           if Dict.has_key (fst kv) md then Ok tt
           else
             rbind (isotope (fst kv)) (fun ei =>
             rbind (Dict.item (fst ei) md) (fun isos =>
             if Dict.has_key (snd ei) isos then Ok tt
             else Raise ValueError)))
        comp tt.

(** The body of the [for element in self.comp] loop of [molecularweight]. *)
Definition mw_element (acc : Q * Dict.t string Q) (kv : string * Z)
  : result (Q * Dict.t string Q) :=
  let element := fst kv in
  let n := inject_Z (snd kv) in
  match Dict.get element md with
  | Some isos =>
      Ok (fold_left
            (fun a im =>
               if fst im =? 0 then a
               else
                 let c := (fst (snd im) * snd (snd im) * n)%Q in
                 ((fst a + c)%Q, accumulateQ element c (snd a)))
            isos acc)
  | None =>
      rbind (isotope element) (fun ei =>
      rbind (Dict.item (fst ei) md) (fun isos =>
      rbind (Dict.item (snd ei) isos) (fun ma =>
      Ok ((fst acc + fst ma * n)%Q,
          Dict.put (fst ei) (fst ma * n)%Q (snd acc)))))
  end.

(** [molecularweight()], on [self.comp]. *)
Definition molecularweight (comp : composition_t)
  : result (Q * Dict.t string Q) :=
  rbind (foldM mw_element comp ((0 : Q), [])) (fun r =>
  let mwout := fst r in
  rbind (mapM (fun ev => rbind (Py.fdiv (snd ev) mwout)
                               (fun p => Ok (fst ev, p)))
              (snd r))
        (fun pc => Ok (mwout, pc))).

(** One pass of the [for n in range(comp[key])] loop of
    [rawisotopepattern]: one atom of a natural-abundance element. *)
Definition atom_pass (thresh : Q) (dec : Z) (empty : bool)
    (isos : isotopes_t) (out : spectrum_t) : result spectrum_t :=
  let bnds := map (fun im => fst (snd im)) isos in
  rbind (Py.min (map fst out)) (fun lo =>
  rbind (Py.min bnds) (fun blo =>
  rbind (Py.max (map fst out)) (fun hi =>
  rbind (Py.max bnds) (fun bhi =>
  let start := (lo + Py.round blo dec - Qpower 10 (- dec))%Q in
  let stop := (hi + Py.round bhi dec + Qpower 10 (- dec))%Q in
  let spec := mkSpectrum dec start stop empty [] in
  let spec :=
    fold_left
      (fun sp im =>
         if negb (fst im =? 0) && negb (Qeq_bool (snd (snd im)) 0) then
           fold_left
             (fun sp p =>
                addvalue (fst p + Py.round (fst (snd im)) dec)%Q
                         (snd p * snd (snd im))%Q sp)
             out sp
         else sp)
      isos spec in
  rbind (normalize 100 spec) (fun spec =>
  let spec := threshold thresh spec in
  Ok (trim spec)))))).

(** The body of the [for key in comp] loop of [rawisotopepattern]. *)
Definition raw_key (thresh : Q) (dec : Z) (empty : bool)
    (out : spectrum_t) (kv : string * Z) : result spectrum_t :=
  match Dict.get (fst kv) md with
  | Some isos =>
      iterM (Z.to_nat (snd kv)) (atom_pass thresh dec empty isos) out
  | None =>
      rbind (isotope (fst kv)) (fun ei =>
      match out with
      | [] => Ok []
      | _ =>
          rbind (Dict.item (fst ei) md) (fun isos =>
          rbind (Dict.item (snd ei) isos) (fun ma =>
          Ok (map (fun p => ((fst p + fst ma)%Q, snd p)) out)))
      end)
  end.

(** [rawisotopepattern(comp, thresh, dec)] *)
Definition rawisotopepattern (comp : composition_t) (thresh : Q) (dec : Z)
    (empty : bool) : result spectrum_t :=
  foldM (raw_key thresh dec empty) comp [((0 : Q), (100 : Q))].

(** The default of the [thresh] argument. *)
Definition default_thresh : Q := 1 # 100.

(** [calculate()] *)
Definition calculate : method unit :=
  modify (fun m => set_sf (molecularformula (comp m)) m) ;;;
  wp <- (fun m => (molecularweight (comp m), m)) ;;
  modify (set_mw (fst wp) (snd wp)) ;;;
  raw <- (fun m => (rawisotopepattern (comp m) default_thresh
                      (decpl (ks m)) (emptyspec (ks m)), m)) ;;
  modify (set_rawip raw) ;;;
  bar <- (fun m => (barisotopepattern (rawip m) (charge (ks m)), m)) ;;
  modify (set_barip bar) ;;;
  e <- (fun m => (preciseexactmass (barip m), m)) ;;
  modify (set_em e) ;;;
  w <- (fun m => (sigmafwhm (em m) (res (ks m)), m)) ;;
  modify (set_fwhm w).

Variable abbrvs : Dict.t string composition_t.

(** [self.calculate(); self.formula = self.sf; return self.sf], the end of
    every arithmetic operator. *)
Definition recalculate : method string :=
  calculate ;;;
  modify (fun m => set_formula (sf m) m) ;;;
  gets sf.

(** The keyword arguments of [__init__]. *)
Record kwargs : Type := mkKwargs {
  kw_verbose : bool;
  kw_decpl : Z;
  kw_res : Z;
  kw_charge : charge_arg;
  kw_emptyspec : bool
}.

Definition default_kwargs : kwargs :=
  mkKwargs false 7 5000 (ChargeInt 1) true.

(** The instance before [__init__] has set its attributes. *)
Definition blank (string : string) (kw : kwargs) : molecule :=
  mkMolecule
    (mkConfig (kw_verbose kw) (kw_decpl kw) (kw_res kw) 0 (kw_emptyspec kw)
              "+"%char)
    string [] EmptyString 0 [] [] [] 0 0.

(** [__init__(string, **kwargs)] *)
Definition init (string : string) (kw : kwargs) : result unit * molecule :=
  (cs <- lift (interpretcharge (kw_charge kw)) ;;
   modify (set_charge (fst cs) (snd cs)) ;;;
   c <- composition abbrvs string ;;
   modify (set_comp c) ;;;
   lift (checkinnist c) ;;;
   calculate) (blank string kw).

(** The operand of an arithmetic operator: a string, another instance, the
    instance itself, or a value of any other type. *)
Inductive operand : Type :=
| OpStr (x : string)
| OpMol (x : molecule)
| OpSelf
| OpOther.

(** What stops the loop of [__sub__]. *)
Inductive sub_stop : Type :=
| SubMissing     (* [except KeyError: return '...'] *)
| SubNegative.   (* [raise ValueError] *)

(** The body of the [for key in addition] loop of [__sub__]. *)
Definition sub_key (c : composition_t) (kv : string * Z)
  : composition_t + sub_stop :=
  match Dict.get (fst kv) c with
  | None => inr SubMissing
  | Some have =>
      if 0 <? have - snd kv then inl (Dict.put (fst kv) (have - snd kv) c)
      else if have - snd kv =? 0 then inl (Dict.del (fst kv) c)
      else inr SubNegative
  end.

(** The loop of [__sub__] over the keys of a dictionary other than
    [self.comp]: the composition when the loop stops, and what stopped
    it. *)
Fixpoint sub_loop (addition : composition_t) (c : composition_t)
  : composition_t * option sub_stop :=
  match addition with
  | [] => (c, None)
  | kv :: rest =>
      match sub_key c kv with
      | inl c' => sub_loop rest c'
      | inr stop => (c, Some stop)
      end
  end.

(** [str(x)] in the message of [__sub__]. *)
Definition operand_str (x : operand) (self : molecule) : string :=
  match x with
  | OpStr s => s
  | OpMol o => ("Molecule " ++ formula o)%string
  | OpSelf => ("Molecule " ++ formula self)%string
  | OpOther => EmptyString
  end.

Definition missing_message (self : molecule) (x : operand) : string :=
  ("The molecular formula " ++ formula self
     ++ " does not have an element in " ++ operand_str x self)%string.

(** The part of [__sub__] after [addition] is known and is not [self.comp]
    itself. *)
Definition sub_apply (x : operand) (addition : composition_t)
  : method string :=
  fun self =>
    match sub_loop addition (comp self) with
    | (c, Some SubMissing) =>
        (Ok (missing_message self x), set_comp c self)
    | (c, Some SubNegative) => (Raise ValueError, set_comp c self)
    | (c, None) => recalculate (set_comp c self)
    end.

(** The first lines of [__sub__]: the dictionary to subtract. *)
Definition addition_of (x : operand) : method composition_t :=
  match x with
  | OpStr s => composition abbrvs s
  | OpMol o => ret (comp o)
  | OpSelf => gets comp
  | OpOther => raise ValueError
  end.

(** [__sub__(x)].  With the instance itself as operand the loop runs over
    [self.comp] while it deletes from it: the first key has difference 0 and
    is deleted, and the next step of the iteration raises [RuntimeError]
    because the dictionary changed size. *)
Definition sub (x : operand) : method string :=
  match x with
  | OpSelf =>
      fun self =>
        match comp self with
        | [] => sub_apply x [] self
        | kv :: rest => (Raise RuntimeError, set_comp rest self)
        end
  | _ => addition <- addition_of x ;; sub_apply x addition
  end.

(** The loop of [__div__] over the keys of [self.comp], which it assigns
    to in place: the composition when the loop stops, and the exception
    that stopped it.  [tempval = float(self.comp[key])/float(x)] raises
    [ZeroDivisionError] for a zero divisor; [ValueError] is raised when
    [tempval.is_integer()] is false, and [int(tempval)] is stored
    otherwise. *)
Fixpoint div_loop (x : Z) (keys : list string) (c : composition_t)
  : composition_t * option exn :=
  match keys with
  | [] => (c, None)
  | key :: rest =>
      match Dict.get key c with
      | None => (c, Some KeyError)
      | Some v =>
          match Double.quotient v x with
          | inr e => (c, Some e)
          | inl tempval =>
              if Double.is_integer tempval
              then div_loop x rest (Dict.put key (Double.to_int tempval) c)
              else (c, Some ValueError)
          end
      end
  end.

(** [__div__(x)] for an [int] divisor. *)
Definition div (x : Z) : method string :=
  fun self =>
    match div_loop x (Dict.keys (comp self)) (comp self) with
    | (c, Some e) => (Raise e, set_comp c self)
    | (c, None) => recalculate (set_comp c self)
    end.
End Engine.

(** ** Example tables

    The mass dictionary and the abbreviation table are data files outside the
    sources at hand; the functions above take them as parameters.  The
    concrete runs below use an excerpt in the documented format
    [{'element': {0: (monoisotopic mass, 1.0), isotope#: (exact mass, natural
    abundance), ...}, ...}]. *)

Definition iso (n : Z) (mass abundance : Q) : Z * (Q * Q) :=
  (n, (mass, abundance)).

Definition example_md : Dict.t string isotopes_t :=
  [("H", [iso 0 1.00782503207 1; iso 1 1.00782503207 0.999885;
          iso 2 2.0141017778 0.000115]);
   ("B", [iso 0 11.0093054 1; iso 10 10.0129370 0.199;
          iso 11 11.0093054 0.801]);
   ("C", [iso 0 12 1; iso 12 12 0.9893; iso 13 13.0033548378 0.0107]);
   ("O", [iso 0 15.99491461956 1; iso 16 15.99491461956 0.99757;
          iso 17 16.99913170 0.00038; iso 18 17.9991610 0.00205])].

Definition example_abbrvs : Dict.t string composition_t :=
  [("Ph", [("C", 6); ("H", 5)]); ("Me", [("C", 1); ("H", 3)])].

(** [Molecule('H2O')] *)
Definition water : molecule :=
  Eval vm_compute in snd (init example_md example_abbrvs "H2O" default_kwargs).

(** ** Charge specifiers in a formula

    [chewformula] takes its third branch on a text that begins with a digit,
    and [composition] and [bracket] hand it the formula from its start and
    from the character after an opening bracket.  A formula in which no digit
    stands in one of these places has no charge specifier (and no isotope
    designator). *)
Fixpoint no_digit_head_from (after_open : bool) (s : string) : bool :=
  match s with
  | EmptyString => true
  | String c r =>
      negb (after_open && Py.isdigit c) && no_digit_head_from (in_sbrack c) r
  end.

Definition no_digit_head (s : string) : bool := no_digit_head_from true s.


(** An instance that differs from [m] in the stored charge at most. *)
Definition charge_only (m m' : molecule) : Prop :=
  exists (v : Z) (s : ascii), m' = set_charge v s m.

(** A chewing function hands back a shorter text and does not exhaust the
    recursion bound, on texts of length at most [N]. *)
Definition chew_progress (chew : string -> method (string * composition_t))
    (N : nat) : Prop :=
  forall s m,
    s <> EmptyString -> (String.length s <= N)%nat ->
    fst (chew s m) <> OutOfFuel /\
    forall r, fst (chew s m) = Ok r ->
              (String.length (fst r) < String.length s)%nat.

(** Every bin holds a positive intensity. *)
Definition bins_pos (bins : spectrum_t) : Prop :=
  forall p, In p bins -> (0 < snd p)%Q.

(** The spectrum that one pass of the atom loop builds before it is
    normalized. *)
Definition convolved (dec : Z) (empty : bool) (start stop : Q)
    (isos : isotopes_t) (out : spectrum_t) : Spectrum :=
  fold_left
    (fun sp im =>
       if negb (fst im =? 0) && negb (Qeq_bool (snd (snd im)) 0) then
         fold_left
           (fun sp p =>
              addvalue (fst p + Py.round (fst (snd im)) dec)%Q
                       (snd p * snd (snd im))%Q sp)
           out sp
       else sp)
    isos (mkSpectrum dec start stop empty []).

(** Every count of a composition divided by [x]. *)
Definition scale_counts (x : Z) (c : composition_t) : composition_t :=
  map (fun kv => (fst kv, snd kv / x)) c.

(** Every count of a composition is below [b] in absolute value. *)
Definition counts_below (b : Z) (c : composition_t) : Prop :=
  forall kv, In kv c -> Z.abs (snd kv) < b.

(** [x] divides every count of a composition. *)
Definition all_divisible (x : Z) (c : composition_t) : Prop :=
  forall kv, In kv c -> snd kv mod x = 0.

(** ** Plain compositions and the canonical order *)

(** An element symbol: an uppercase letter followed by lowercase letters. *)
Definition element_symbol (k : string) : bool :=
  match k with
  | EmptyString => false
  | String c r => Py.isupper c && Py.all Py.islower r
  end.

(** A composition of distinct element symbols, none of them an abbreviation,
    with counts of at least 1. *)
Definition plain_composition (abbrvs : Dict.t string composition_t)
    (c : composition_t) : Prop :=
  NoDup (Dict.keys c) /\
  forall kv, In kv c ->
             element_symbol (fst kv) = true /\ 1 <= snd kv /\
             Dict.get (fst kv) abbrvs = None.

(** The item of a key, when the dictionary has the key. *)
Definition item_of (k : string) (c : composition_t) : list (string * Z) :=
  match Dict.get k c with
  | Some n => [(k, n)]
  | None => []
  end.

Definition not_C_or_H (kv : string * Z) : bool :=
  negb (String.eqb (fst kv) "C") && negb (String.eqb (fst kv) "H").

(** The items of a composition in the order in which [molecularformula]
    writes them. *)
Definition hill_order (c : composition_t) : list (string * Z) :=
  item_of "C" c ++ item_of "H" c ++ List.filter not_C_or_H (sorted_items c).

(** The tokens of a list of items, one after the other. *)
Definition tokens (l : list (string * Z)) : string :=
  fold_right (fun kv s => (render (fst kv) (snd kv) ++ s)%string)
             EmptyString l.


(** The digits written after a key. *)
Definition count_suffix (n : Z) : string :=
  if 1 <? n then Py.str n else EmptyString.

(** ** More operators *)

Section Operators.
Variable md : Dict.t string isotopes_t.
Variable abbrvs : Dict.t string composition_t.

(** [__add__(x)]: [addition] is found as in [__sub__]; the loop is
    [for key in addition: try: self.comp[key] += addition[key] / except
    KeyError: self.comp[key] = addition[key]]. *)
Definition add (x : operand) : method string :=
  addition <- addition_of abbrvs x ;;
  modify (fun m => set_comp (merge addition (comp m)) m) ;;;
  recalculate md.

(** The loop of [__mul__] over the keys of [self.comp], which it assigns to
    in place. *)
Fixpoint mul_loop (x : Z) (keys : list string) (c : composition_t)
  : composition_t * option exn :=
  match keys with
  | [] => (c, None)
  | key :: rest =>
      match Dict.get key c with
      | None => (c, Some KeyError)
      | Some v => mul_loop x rest (Dict.put key (v * x) c)
      end
  end.

(** [__mul__(x)] for an [int] factor. *)
Definition mul (x : Z) : method string :=
  fun self =>
    match mul_loop x (Dict.keys (comp self)) (comp self) with
    | (c, Some e) => (Raise e, set_comp c self)
    | (c, None) => recalculate md (set_comp c self)
    end.
End Operators.

(** Every count of a composition multiplied by [x]. *)
Definition mul_counts (x : Z) (c : composition_t) : composition_t :=
  map (fun kv => (fst kv, snd kv * x)) c.

(** ** default and reset *)

(** What a copy of the attribute dictionary keeps of its own: the values of
    the attributes that [calculate] and the operators bind anew, and the
    entry [original] when the instance had one.  The attributes [comp] and
    [ks] are bound once, in [__init__], and their dictionaries are updated in
    place from then on. *)
#[warnings="-register-all"]
Inductive rebound : Type :=
  mkRebound (r_formula : string) (r_sf : string) (r_mw : Q)
            (r_pcomp : Dict.t string Q) (r_rawip r_barip : spectrum_t)
            (r_em r_fwhm : Q) (r_original : option rebound).

(** An instance with its attribute [original], when it has one.
    [self.original = dict(self.__dict__)] is a shallow copy: it holds the
    values of the attributes bound anew and the very dictionaries [comp] and
    [ks] of the instance, so that of the copy only the former need to be
    kept. *)
Record instance : Type := mkInstance {
  attrs : molecule;
  original : option rebound
}.

(** [default()] *)
Definition default (i : instance) : instance :=
  mkInstance (attrs i)
    (Some (mkRebound (formula (attrs i)) (sf (attrs i)) (mw (attrs i))
             (pcomp (attrs i)) (rawip (attrs i)) (barip (attrs i))
             (em (attrs i)) (fwhm (attrs i)) (original i))).

Inductive reset_outcome : Type :=
| ResetDone (i : instance)
| ResetAttributeError.

(** [reset()]: [self.__dict__ = self.original].  The copy becomes the
    attribute dictionary; without an attribute [original] the lookup raises
    [AttributeError]. *)
Definition reset (i : instance) : reset_outcome :=
  match original i with
  | None => ResetAttributeError
  | Some (mkRebound f s w p raw bar e h o) =>
      ResetDone
        (mkInstance
           (mkMolecule (ks (attrs i)) f (comp (attrs i)) s w p raw bar e h)
           o)
  end.

(** A method called on an instance. *)
Definition call {A} (f : method A) (i : instance) : result A * instance :=
  (fst (f (attrs i)), mkInstance (snd (f (attrs i))) (original i)).


(** Consecutive masses of a group lie within [delta] of each other. *)
Fixpoint close_chain (delta : Q) (g : spectrum_t) : Prop :=
  match g with
  | p :: (q :: _) as r =>
      Qle_bool (fst q - fst p) delta = true /\ close_chain delta r
  | _ => True
  end.

(** The text starts with an uppercase letter or an opening bracket, or is
    empty. *)
Definition starts_block (s : string) : Prop :=
  forall c r, s = String c r -> Py.isupper c || in_sbrack c = true.

(** A character other than the signs '+' and '-'. *)
Definition not_mode (c : ascii) : bool := negb (is_mode c).


(** A character that is neither of the two brackets. *)
Definition not_bracket (op cl : ascii) (x : ascii) : bool :=
  negb (Ascii.eqb x op) && negb (Ascii.eqb x cl).


(** An outcome of the parser: a value that satisfies [P], a [ValueError] or
    a [TypeError]. *)
Definition parse_result {A} (P : A -> Prop) (r : result A) : Prop :=
  match r with
  | Ok a => P a
  | Raise ValueError | Raise TypeError => True
  | _ => False
  end.

(** A chewing function returns a shorter text or raises one of the two
    errors, on texts of length at most [N]. *)
Definition chew_outcome (chew : string -> method (string * composition_t))
    (N : nat) : Prop :=
  forall s m,
    s <> EmptyString -> (String.length s <= N)%nat ->
    parse_result
      (fun r => (String.length (fst r) < String.length s)%nat)
      (fst (chew s m)).


(** * Properties *)

Arguments interpret : simpl never.
Arguments interpretcharge : simpl never.
Arguments Py.int : simpl never.
Arguments Py.str : simpl never.
Arguments bracket : simpl never.
Arguments closing_of : simpl never.
Arguments in_sbrack : simpl never.

(** ** Charge interpretation *)

Lemma charge_scan_sign (s value : string) (sg : ascii) :
  snd (charge_scan s value sg) = "-"%char ->
  sg = "-"%char \/ Py.any (Ascii.eqb "-") s = true.
Proof.
  revert value sg.
  induction s as [|c r IH]; intros value sg Hs; simpl in *.
  - now left.
  - unfold is_mode in Hs.
    destruct (Ascii.eqb_spec c "+") as [->|Hplus]; simpl in Hs.
    + destruct (IH _ _ Hs) as [Hc|Hr]; [discriminate | right; exact Hr].
    + destruct (Ascii.eqb_spec c "-") as [->|Hminus]; simpl in Hs.
      * now right.
      * destruct (IH _ _ Hs) as [Hc|Hr]; [now left | right].
        rewrite Hr. apply orb_true_r.
Qed.

(** C10: for an [int] argument [interpretcharge] returns the value unchanged
    with the sign '+', also for a negative value; a string argument yields
    the sign '-' only when it contains the character '-'. *)
Theorem interpretcharge_int_positive_sign :
  (forall z : Z, interpretcharge (ChargeInt z) = Ok (z, "+"%char)) /\
  (forall (s : string) (v : Z),
      interpretcharge (ChargeStr s) = Ok (v, "-"%char) ->
      Py.any (Ascii.eqb "-") s = true).
Proof.
  split; [reflexivity|].
  intros s v Hs. unfold interpretcharge in Hs.
  destruct (charge_scan s EmptyString "+") as [value sg] eqn:Hscan.
  destruct (Py.int value) as [n| | |]; simpl in Hs; try discriminate.
  injection Hs as _ Hsg.
  destruct (charge_scan_sign s EmptyString "+"%char) as [Hc|Hr].
  - now rewrite Hscan.
  - discriminate.
  - exact Hr.
Qed.

Lemma interpretcharge_int_positive_sign_witness :
  interpretcharge (ChargeStr "2-") = Ok (2, "-"%char) /\
  Py.any (Ascii.eqb "-") "2-" = true.
Proof.
  split; [reflexivity|].
  apply (proj2 interpretcharge_int_positive_sign "2-" 2). reflexivity.
Defined.

(** ** Strings *)

Lemma drop_app (x y : string) (n : nat) :
  Py.drop (String.length x + n) (x ++ y)%string = Py.drop n y.
Proof. induction x as [|c x IH]; simpl; [reflexivity | exact IH]. Qed.

Lemma span_app (p : ascii -> bool) (s : string) :
  s = (fst (Py.span p s) ++ snd (Py.span p s))%string.
Proof.
  induction s as [|c r IH]; simpl; [reflexivity|].
  destruct (p c); [|reflexivity].
  destruct (Py.span p r) as [a b]; simpl in *. now f_equal.
Qed.

Lemma span_drop (p : ascii -> bool) (s : string) :
  Py.drop (String.length (fst (Py.span p s))) s = snd (Py.span p s).
Proof.
  induction s as [|c r IH]; simpl; [reflexivity|].
  destruct (p c); [|reflexivity].
  destruct (Py.span p r) as [a b]; simpl in *. exact IH.
Qed.

Lemma span_rest_head (p : ascii -> bool) (s : string) (c : ascii) (r : string) :
  snd (Py.span p s) = String c r -> p c = false.
Proof.
  induction s as [|d t IH]; simpl; [discriminate|].
  destruct (p d) eqn:Hd.
  - destruct (Py.span p t) as [a b]; simpl in *. exact IH.
  - simpl. intros H. injection H as -> _. exact Hd.
Qed.

Lemma span_length (p : ascii -> bool) (s : string) :
  (String.length (snd (Py.span p s)) <= String.length s)%nat.
Proof.
  induction s as [|c r IH]; simpl; [lia|].
  destruct (p c); [|simpl; lia].
  destruct (Py.span p r) as [a b]; simpl in *. lia.
Qed.

Lemma bracket_scan_app (op cl : ascii) (s : string) :
  forall (nest : Z) (block after : string),
    bracket_scan op cl nest s = Some (block, after) ->
    s = (block ++ String cl after)%string.
Proof.
  induction s as [|c r IH]; intros nest block after H; simpl in H;
    [discriminate|].
  destruct (Ascii.eqb c op).
  - destruct (bracket_scan op cl (nest + 1) r) as [[b a]|] eqn:E;
      [|discriminate].
    injection H as <- <-. simpl. f_equal. now apply IH with (nest := nest + 1).
  - destruct (Ascii.eqb_spec c cl) as [->|Hc].
    + destruct (nest - 1 =? 0).
      * injection H as <- <-. reflexivity.
      * destruct (bracket_scan op cl (nest - 1) r) as [[b a]|] eqn:E;
          [|discriminate].
        injection H as <- <-. simpl. f_equal.
        now apply IH with (nest := nest - 1).
    + destruct (bracket_scan op cl nest r) as [[b a]|] eqn:E; [|discriminate].
      injection H as <- <-. simpl. f_equal. now apply IH with (nest := nest).
Qed.

Lemma append_length (x y : string) :
  String.length (x ++ y)%string = (String.length x + String.length y)%nat.
Proof. induction x as [|c x IH]; simpl; [reflexivity | now rewrite IH]. Qed.

(** What [bracket] hands back as the rest of the formula is the text after
    the close bracket and the digits that follow it. *)
Lemma bracket_rest (c0 cl : ascii) (block after : string) :
  Py.drop (String.length block
           + String.length (fst (Py.span Py.isdigit after)) + 2)
          (String c0 (block ++ String cl after))
  = snd (Py.span Py.isdigit after).
Proof.
  replace (String.length block
           + String.length (fst (Py.span Py.isdigit after)) + 2)%nat
    with (S (String.length block
             + S (String.length (fst (Py.span Py.isdigit after)))))%nat by lia.
  simpl. rewrite drop_app. simpl. apply span_drop.
Qed.

(** ** Characters *)

Lemma isupper_not_isdigit (c : ascii) :
  Py.isupper c = true -> Py.isdigit c = false.
Proof.
  unfold Py.isupper, Py.isdigit. intros H.
  apply andb_true_iff in H as [H1 H2].
  apply N.leb_le in H1. apply andb_false_iff. right. apply N.leb_gt. lia.
Qed.

Lemma in_sbrack_not_isdigit (c : ascii) :
  in_sbrack c = true -> Py.isdigit c = false.
Proof.
  unfold in_sbrack, sbrack. simpl. intros H.
  repeat (apply orb_true_iff in H as [H|H]);
    try (apply Ascii.eqb_eq in H; subst c; reflexivity).
  discriminate.
Qed.

Lemma block_stop_not_isdigit (c : ascii) :
  negb (Py.isupper c || in_sbrack c) = false -> Py.isdigit c = false.
Proof.
  intros H. apply negb_false_iff in H. apply orb_true_iff in H as [H|H].
  - now apply isupper_not_isdigit.
  - now apply in_sbrack_not_isdigit.
Qed.

(** ** Formulas without a leading digit *)

Lemma no_digit_head_weaken (b : bool) (s : string) :
  no_digit_head_from b s = true -> no_digit_head_from false s = true.
Proof.
  destruct s as [|c r]; simpl; [reflexivity|].
  intros H. apply andb_true_iff in H as [_ H]. exact H.
Qed.

Lemma no_digit_head_strengthen (s : string) :
  (forall c r, s = String c r -> Py.isdigit c = false) ->
  no_digit_head_from false s = true -> no_digit_head_from true s = true.
Proof.
  destruct s as [|c r]; simpl; [reflexivity|].
  intros Hc H. now rewrite (Hc c r eq_refl).
Qed.

Lemma no_digit_head_app (x y : string) :
  forall b, no_digit_head_from b (x ++ y)%string = true ->
            no_digit_head_from b x = true /\ no_digit_head_from false y = true.
Proof.
  induction x as [|c x IH]; intros b H; simpl in *.
  - split; [reflexivity|]. now apply no_digit_head_weaken with (b := b).
  - apply andb_true_iff in H as [H1 H2].
    destruct (IH _ H2) as [Hx Hy]. now rewrite H1, Hx.
Qed.

Lemma no_digit_head_span (p : ascii -> bool) (s : string) (b : bool) :
  (forall c, p c = false -> Py.isdigit c = false) ->
  no_digit_head_from b s = true ->
  no_digit_head_from true (snd (Py.span p s)) = true.
Proof.
  intros Hp H.
  apply no_digit_head_strengthen.
  - intros c r E. apply Hp. now apply span_rest_head with (s := s) (r := r).
  - rewrite (span_app p s) in H. now apply no_digit_head_app in H as [_ H].
Qed.

(** ** The parser and the instance *)

Lemma charge_only_refl (m : molecule) : charge_only m m.
Proof.
  exists (charge (ks m)), (sign (ks m)). now destruct m as [[] ].
Qed.

Lemma charge_only_trans (a b c : molecule) :
  charge_only a b -> charge_only b c -> charge_only a c.
Proof.
  intros (v & s & ->) (v' & s' & ->). now exists v', s'.
Qed.

Lemma chew_loop_charge_only
    (chew : string -> method (string * composition_t))
    (upd : composition_t -> composition_t -> composition_t) :
  (forall s m, charge_only m (snd (chew s m))) ->
  forall n block out m, charge_only m (snd (chew_loop chew upd n block out m)).
Proof.
  intros Hchew.
  induction n as [|n IH]; intros block out m; destruct block as [|c r];
    simpl; try apply charge_only_refl.
  unfold bind. specialize (Hchew (String c r) m).
  destruct (chew (String c r) m) as [[x| | |] m']; simpl in *;
    try exact Hchew.
  eapply charge_only_trans; [exact Hchew | apply IH].
Qed.

Lemma chewformula_charge_only (fuel : nat) :
  forall formula m, charge_only m (snd (chewformula fuel formula m)).
Proof.
  induction fuel as [|fuel IH]; intros formula m; simpl;
    [apply charge_only_refl|].
  destruct formula as [|c rest]; [apply charge_only_refl|].
  destruct (Py.isupper c).
  { unfold bind, lift, ret.
    destruct (interpret _) as [d| | |]; apply charge_only_refl. }
  destruct (in_sbrack c).
  { unfold bracket.
    destruct (closing_of c) as [cl|]; [|apply charge_only_refl].
    destruct (bracket_scan c cl 1 rest) as [[block after]|];
      [|apply charge_only_refl].
    unfold bind at 1, lift.
    destruct (match fst (Py.span Py.isdigit after) with
              | EmptyString => Ok 1
              | String _ _ => Py.int (fst (Py.span Py.isdigit after))
              end) as [n| | |]; try apply charge_only_refl.
    unfold bind.
    pose proof (chew_loop_charge_only (chewformula fuel) (merge_scaled n) IH
                  (String.length block) block [] m) as Hloop.
    destruct (chew_loop _ _ _ _ _ m) as [[d| | |] m']; exact Hloop. }
  destruct (Py.isdigit c); [|apply charge_only_refl].
  destruct (Py.any Py.isalpha (String c rest)); [apply charge_only_refl|].
  unfold bind, lift, modify, ret.
  destruct (interpretcharge _) as [cs| | |]; try apply charge_only_refl.
  simpl. now exists (fst cs), (snd cs).
Qed.

Lemma chew_loop_unchanged
    (chew : string -> method (string * composition_t))
    (upd : composition_t -> composition_t -> composition_t) :
  (forall s m, no_digit_head s = true ->
               snd (chew s m) = m /\
               forall r, fst (chew s m) = Ok r -> no_digit_head (fst r) = true) ->
  forall n block out m,
    no_digit_head block = true ->
    snd (chew_loop chew upd n block out m) = m.
Proof.
  intros Hchew.
  induction n as [|n IH]; intros block out m HP; destruct block as [|c r];
    simpl; try reflexivity.
  unfold bind. destruct (Hchew (String c r) m HP) as [Hs Hr].
  destruct (chew (String c r) m) as [[x| | |] m']; simpl in *; subst m';
    try reflexivity.
  apply IH. now apply Hr.
Qed.

Lemma chewformula_unchanged (fuel : nat) :
  forall formula m,
    no_digit_head formula = true ->
    snd (chewformula fuel formula m) = m /\
    forall r, fst (chewformula fuel formula m) = Ok r ->
              no_digit_head (fst r) = true.
Proof.
  induction fuel as [|fuel IH]; intros formula m HP; simpl.
  { split; [reflexivity | discriminate]. }
  destruct formula as [|c rest]; [split; [reflexivity | discriminate]|].
  unfold no_digit_head in HP. simpl in HP.
  apply andb_true_iff in HP as [Hc Hrest].
  destruct (Py.isupper c) eqn:Hup.
  { unfold bind, lift, ret.
    destruct (interpret _) as [d| | |]; simpl;
      (split; [reflexivity | try discriminate]).
    intros r Hr. injection Hr as <-. simpl.
    rewrite span_drop.
    apply no_digit_head_span with (b := in_sbrack c);
      [apply block_stop_not_isdigit | exact Hrest]. }
  destruct (in_sbrack c) eqn:Hsb.
  { unfold bracket.
    destruct (closing_of c) as [cl|]; [|split; [reflexivity | discriminate]].
    destruct (bracket_scan c cl 1 rest) as [[block after]|] eqn:Hscan;
      [|split; [reflexivity | discriminate]].
    apply bracket_scan_app in Hscan. subst rest.
    apply no_digit_head_app in Hrest as [Hblock Hafter].
    simpl in Hafter.
    unfold bind at 1, lift.
    destruct (match fst (Py.span Py.isdigit after) with
              | EmptyString => Ok 1
              | String _ _ => Py.int (fst (Py.span Py.isdigit after))
              end) as [n| | |]; try (split; [reflexivity | discriminate]).
    unfold bind.
    pose proof (chew_loop_unchanged (chewformula fuel) (merge_scaled n) IH
                  (String.length block) block [] m Hblock) as Hloop.
    destruct (chew_loop _ _ _ _ _ m) as [[d| | |] m']; simpl in *; subst m';
      (split; [reflexivity | try discriminate]).
    intros r Hr. injection Hr as <-. simpl fst.
    rewrite bracket_rest.
    apply no_digit_head_span with (b := in_sbrack cl);
      [now intros x Hx | exact Hafter]. }
  destruct (Py.isdigit c) eqn:Hd; [discriminate|].
  split; [reflexivity | discriminate].
Qed.

(** C6 (as stated, refuted): parsing a formula with an inline charge
    specifier overwrites the stored charge and sign of the instance:
    [Molecule('H2O')] holds charge 1 and sign '+', and after
    [composition('C(2-)')] it holds charge 2 and sign '-'. *)
Lemma composition_overwrites_charge :
  (charge (ks water), sign (ks water)) = (1, "+"%char) /\
  (charge (ks (snd (composition example_abbrvs "C(2-)" water))),
   sign (ks (snd (composition example_abbrvs "C(2-)" water))))
  = (2, "-"%char).
Proof. split; reflexivity. Qed.

Lemma composition_charge_only
    (abbrvs : Dict.t string composition_t) (formula : string) (m : molecule) :
  charge_only m (snd (composition abbrvs formula m)).
Proof.
  unfold composition, bind, ret.
  pose proof (chew_loop_charge_only
                (chewformula (String.length formula)) merge
                (chewformula_charge_only _)
                (String.length formula) formula [] m) as H.
  destruct (chew_loop _ _ _ _ _ m) as [[d| | |] m']; exact H.
Qed.

Lemma composition_unchanged
    (abbrvs : Dict.t string composition_t) (formula : string) (m : molecule) :
  no_digit_head formula = true -> snd (composition abbrvs formula m) = m.
Proof.
  intros HP. unfold composition, bind, ret.
  pose proof (chew_loop_unchanged
                (chewformula (String.length formula)) merge
                (chewformula_unchanged _)
                (String.length formula) formula [] m HP) as H.
  destruct (chew_loop _ _ _ _ _ m) as [[d| | |] m']; exact H.
Qed.

(** C6 (amended): parsing a formula changes nothing of the instance but the
    stored charge magnitude and sign, and it leaves the whole instance as it
    was when no digit stands at the start of the formula or directly after
    an opening bracket, that is when the formula has no charge specifier. *)
Theorem composition_frame
    (abbrvs : Dict.t string composition_t) (formula : string) (m : molecule) :
  charge_only m (snd (composition abbrvs formula m)) /\
  (no_digit_head formula = true -> snd (composition abbrvs formula m) = m).
Proof.
  split; [apply composition_charge_only | apply composition_unchanged].
Qed.

Lemma composition_frame_witness :
  no_digit_head "B(OH)4" = true /\
  snd (composition example_abbrvs "B(OH)4" water) = water.
Proof.
  split; [reflexivity|].
  apply (proj2 (composition_frame example_abbrvs "B(OH)4" water)).
  reflexivity.
Defined.

(** ** The parser terminates *)

Lemma chew_loop_terminates
    (chew : string -> method (string * composition_t))
    (upd : composition_t -> composition_t -> composition_t) (N : nat) :
  chew_progress chew N ->
  forall n block out m,
    (n <= N)%nat -> (String.length block <= n)%nat ->
    fst (chew_loop chew upd n block out m) <> OutOfFuel.
Proof.
  intros Hchew.
  induction n as [|n IH]; intros block out m HN Hlen;
    destruct block as [|c r]; simpl in *; try discriminate; try lia.
  unfold bind.
  destruct (Hchew (String c r) m) as [Hf Hr]; [discriminate | simpl; lia |].
  destruct (chew (String c r) m) as [[x| | |] m']; simpl in *;
    try discriminate; try congruence.
  apply IH; [lia|]. specialize (Hr x eq_refl). lia.
Qed.

Lemma int_unsigned_not_fuel (s : string) : Py.int_unsigned s <> OutOfFuel.
Proof.
  unfold Py.int_unsigned. destruct s; [discriminate|].
  now destruct (Py.all _ _).
Qed.

Lemma int_not_fuel (s : string) : Py.int s <> OutOfFuel.
Proof.
  unfold Py.int. destruct (Py.strip s) as [|c r]; [discriminate|].
  destruct (Ascii.eqb c "-").
  - pose proof (int_unsigned_not_fuel r).
    destruct (Py.int_unsigned r); simpl; congruence.
  - destruct (Ascii.eqb c "+"); apply int_unsigned_not_fuel.
Qed.

Lemma interpret_not_fuel (block : string) : interpret block <> OutOfFuel.
Proof.
  unfold interpret. destruct block as [|c rest]; [discriminate|].
  destruct (Py.isdigit c); [discriminate|].
  destruct (Py.filter Py.isdigit rest) as [|d t]; [discriminate|].
  pose proof (int_not_fuel (String d t)).
  destruct (Py.int (String d t)); simpl; congruence.
Qed.

Lemma interpretcharge_not_fuel (a : charge_arg) :
  interpretcharge a <> OutOfFuel.
Proof.
  unfold interpretcharge. destruct a as [z|s]; [discriminate|].
  destruct (charge_scan s EmptyString "+") as [value sg].
  pose proof (int_not_fuel value).
  destruct (Py.int value); simpl; congruence.
Qed.

Lemma chewformula_progress (fuel : nat) : chew_progress (chewformula fuel) fuel.
Proof.
  induction fuel as [|fuel IH]; intros formula m Hne Hlen.
  { destruct formula; [contradiction | simpl in Hlen; lia]. }
  destruct formula as [|c rest]; [contradiction|]. simpl in Hlen. simpl.
  destruct (Py.isupper c).
  { unfold bind, lift, ret.
    pose proof (interpret_not_fuel
      (String c (fst (Py.span
         (fun x => negb (Py.isupper x || in_sbrack x)) rest)))) as Hi.
    destruct (interpret _) as [d| | |]; simpl; try (now split); try congruence.
    split; [discriminate|]. intros r Hr. injection Hr as <-. simpl.
    rewrite span_drop.
    pose proof (span_length
                  (fun x => negb (Py.isupper x || in_sbrack x)) rest).
    lia. }
  destruct (in_sbrack c).
  { unfold bracket.
    destruct (closing_of c) as [cl|]; [|now split].
    destruct (bracket_scan c cl 1 rest) as [[block after]|] eqn:Hscan;
      [|now split].
    apply bracket_scan_app in Hscan. subst rest.
    rewrite append_length in Hlen. simpl in Hlen.
    unfold bind at 1, lift.
    pose proof (int_not_fuel (fst (Py.span Py.isdigit after))) as Hi.
    destruct (match fst (Py.span Py.isdigit after) with
              | EmptyString => Ok 1
              | String _ _ => Py.int (fst (Py.span Py.isdigit after))
              end) as [n| | |] eqn:En; try (now split).
    2:{ destruct (fst (Py.span Py.isdigit after)); congruence. }
    unfold bind.
    assert (Hprog : chew_progress (chewformula fuel) (String.length block)).
    { intros s m0 Hs Hl. apply IH; [exact Hs | lia]. }
    pose proof (chew_loop_terminates (chewformula fuel) (merge_scaled n)
                  (String.length block) Hprog
                  (String.length block) block [] m (le_n _) (le_n _)) as Hloop.
    destruct (chew_loop _ _ _ _ _ m) as [[d| | |] m']; simpl in *;
      try (now split); try congruence.
    split; [discriminate|]. intros r Hr. injection Hr as <-. simpl fst.
    rewrite bracket_rest. rewrite append_length. simpl.
    pose proof (span_length Py.isdigit after). lia. }
  destruct (Py.isdigit c); [|now split].
  destruct (Py.isalpha c || Py.any Py.isalpha rest).
  { unfold ret. simpl. split; [discriminate|].
    intros r Hr. injection Hr as <-. simpl. lia. }
  unfold bind, lift, modify, ret.
  pose proof (interpretcharge_not_fuel (ChargeStr (String c rest))) as Hi.
  destruct (interpretcharge _) as [cs| | |]; simpl; try (now split);
    try congruence.
  split; [discriminate|]. intros r Hr. injection Hr as <-. simpl. lia.
Qed.

(** [composition] never reaches the recursion bound of the model. *)
Lemma composition_terminates
    (abbrvs : Dict.t string composition_t) (formula : string) (m : molecule) :
  fst (composition abbrvs formula m) <> OutOfFuel.
Proof.
  unfold composition, bind, ret.
  pose proof (chew_loop_terminates
                (chewformula (String.length formula)) merge
                (String.length formula) (chewformula_progress _)
                (String.length formula) formula [] m (le_n _) (le_n _)) as H.
  destruct (chew_loop _ _ _ _ _ m) as [[d| | |] m']; simpl in *;
    congruence.
Qed.

(** ** The canonical formula of B(OH)4 *)

Lemma abbreviations_plain (abbrvs : Dict.t string composition_t)
    (k : string) (v : Z) (d acc : composition_t) :
  Dict.get k abbrvs = None ->
  fold_left
    (fun comptemp kv =>
       match Dict.get (fst kv) abbrvs with
       | Some sub =>
           fold_left
             (fun ct sk => accumulate (fst sk) (snd sk * snd kv) ct)
             sub comptemp
       | None => accumulate (fst kv) (snd kv) comptemp
       end)
    ((k, v) :: d) acc
  = fold_left
      (fun comptemp kv =>
         match Dict.get (fst kv) abbrvs with
         | Some sub =>
             fold_left
               (fun ct sk => accumulate (fst sk) (snd sk * snd kv) ct)
               sub comptemp
         | None => accumulate (fst kv) (snd kv) comptemp
         end)
      d (accumulate k v acc).
Proof. intros H. simpl. now rewrite H. Qed.

(** C4 (as stated, refuted): the formula "B(OH)4" parses to
    {B:1, O:4, H:4}, but the canonical formula of that composition is not
    "BH4O4". *)
Lemma boric_formula_not_alphabetical :
  fst (composition example_abbrvs "B(OH)4" water)
  = Ok [("B", 1); ("O", 4); ("H", 4)] /\
  molecularformula [("B", 1); ("O", 4); ("H", 4)] <> "BH4O4".
Proof. split; [reflexivity | discriminate]. Qed.

(** C4 (amended): with an abbreviation table that does not define B, O or H,
    the formula "B(OH)4" parses to {B:1, O:4, H:4} and leaves the instance as
    it was; the canonical formula of that composition, in whatever order the
    dictionary holds its keys, is "H4BO4": hydrogen is written first also
    when there is no carbon, then the other elements alphabetically. *)
Theorem boric_formula_hydrogen_first
    (abbrvs : Dict.t string composition_t) (m : molecule) :
  Dict.get "B" abbrvs = None ->
  Dict.get "O" abbrvs = None ->
  Dict.get "H" abbrvs = None ->
  composition abbrvs "B(OH)4" m = (Ok [("B", 1); ("O", 4); ("H", 4)], m) /\
  (forall c : composition_t,
      Permutation [("B", 1); ("O", 4); ("H", 4)] c ->
      molecularformula c = "H4BO4").
Proof.
  intros HB HO HH. split.
  - unfold composition, bind.
    change (chew_loop (chewformula (String.length "B(OH)4")) merge
              (String.length "B(OH)4") "B(OH)4" [] m)
      with (Ok [("B", 1); ("O", 4); ("H", 4)], m).
    unfold ret, abbreviations.
    rewrite !abbreviations_plain by assumption. reflexivity.
  - intros c Hp.
    pose proof (Permutation_length Hp) as Hlen.
    assert (Hnd : NoDup c).
    { apply (Permutation_NoDup Hp).
      repeat constructor; simpl; intuition discriminate. }
    destruct c as [|x [|y [|z [|w c]]]]; try discriminate.
    assert (Hin : forall a, In a [x; y; z] ->
                            In a [("B", 1); ("O", 4); ("H", 4)]).
    { intros a Ha. now apply (Permutation_in a (Permutation_sym Hp)). }
    pose proof (Hin x (or_introl eq_refl)) as Hx.
    pose proof (Hin y (or_intror (or_introl eq_refl))) as Hy.
    pose proof (Hin z (or_intror (or_intror (or_introl eq_refl)))) as Hz.
    inversion Hnd as [|? ? Nx Hnd']; subst.
    inversion Hnd' as [|? ? Ny Hnd'']; subst.
    simpl in Hx, Hy, Hz, Nx, Ny.
    destruct Hx as [<-|[<-|[<-|[]]]];
      destruct Hy as [<-|[<-|[<-|[]]]];
      destruct Hz as [<-|[<-|[<-|[]]]];
      try reflexivity; exfalso; intuition congruence.
Qed.

Lemma boric_formula_hydrogen_first_witness :
  composition example_abbrvs "B(OH)4" water
  = (Ok [("B", 1); ("O", 4); ("H", 4)], water) /\
  molecularformula [("H", 4); ("B", 1); ("O", 4)] = "H4BO4".
Proof.
  destruct (boric_formula_hydrogen_first example_abbrvs water
              eq_refl eq_refl eq_refl) as [Hc Hf].
  split; [exact Hc|]. apply Hf.
  apply Permutation_sym, (Permutation_cons_app [("B", 1); ("O", 4)] []).
  apply Permutation_refl.
Defined.

(** ** Explicit isotope keys in the engine *)

(** C3: the count of an explicit isotope key is not used by
    [rawisotopepattern]: for the composition {13C: 2} the single peak is
    shifted to 13.0033548378, the mass of one atom, whereas
    [molecularweight] reports twice that mass; and for every key that is not
    in the mass dictionary any two counts give the same pattern. *)
Theorem isotope_key_shifted_once :
  rawisotopepattern example_md [("13C", 2)] default_thresh 7 true
  = Ok [(13.0033548378%Q, 100%Q)] /\
  (exists w pc, molecularweight example_md [("13C", 2)] = Ok (w, pc) /\
                (w == 2 * 13.0033548378)%Q) /\
  (forall md thresh dec empty out key n n',
      Dict.get key md = None ->
      raw_key md thresh dec empty out (key, n)
      = raw_key md thresh dec empty out (key, n')).
Proof.
  split; [reflexivity|]. split.
  - eexists. eexists. split; [vm_compute; reflexivity|]. reflexivity.
  - intros md thresh dec empty out key n n' H. unfold raw_key. simpl.
    now rewrite H.
Qed.

Lemma isotope_key_shifted_once_witness :
  Dict.get "13C" example_md = None /\
  raw_key example_md default_thresh 7 true [(0%Q, 100%Q)] ("13C", 2)
  = raw_key example_md default_thresh 7 true [(0%Q, 100%Q)] ("13C", 1).
Proof.
  split; [reflexivity|].
  apply (proj2 (proj2 isotope_key_shifted_once)). reflexivity.
Defined.

(** C9: for the composition {12C: 1, 13C: 1}, in either order of its keys,
    the percent composition of carbon is the contribution of the key visited
    last over the molecular weight, not the accumulated contribution of both
    keys (which is the whole weight). *)
Theorem isotope_percent_overwritten :
  (exists w p,
      molecularweight example_md [("12C", 1); ("13C", 1)] = Ok (w, [("C", p)])
      /\ (w == 12 + 13.0033548378)%Q
      /\ (p == 13.0033548378 / (12 + 13.0033548378))%Q
      /\ ~ (p == (12 + 13.0033548378) / (12 + 13.0033548378))%Q) /\
  (exists w p,
      molecularweight example_md [("13C", 1); ("12C", 1)] = Ok (w, [("C", p)])
      /\ (w == 12 + 13.0033548378)%Q
      /\ (p == 12 / (12 + 13.0033548378))%Q
      /\ ~ (p == (12 + 13.0033548378) / (12 + 13.0033548378))%Q).
Proof.
  split; eexists; eexists;
    (split; [vm_compute; reflexivity|]);
    (split; [reflexivity|]); (split; [reflexivity|]);
    intros H; vm_compute in H; discriminate H.
Qed.

(** ** Lists and outcomes *)

Lemma mapM_In {A B} (f : A -> result B) (l : list A) :
  forall l', mapM f l = Ok l' ->
             forall a, In a l -> exists b, f a = Ok b /\ In b l'.
Proof.
  induction l as [|x r IH]; intros l' H a Ha; simpl in *; [contradiction|].
  destruct (f x) as [y| | |] eqn:Ex; simpl in H; try discriminate.
  destruct (mapM f r) as [ys| | |] eqn:Er; simpl in H; try discriminate.
  injection H as <-. destruct Ha as [->|Ha].
  - exists y. split; [exact Ex | now left].
  - destruct (IH ys eq_refl a Ha) as (b & Hb & Hin).
    exists b. split; [exact Hb | now right].
Qed.

Lemma mapM_In_inv {A B} (f : A -> result B) (l : list A) :
  forall l', mapM f l = Ok l' ->
             forall b, In b l' -> exists a, f a = Ok b /\ In a l.
Proof.
  induction l as [|x r IH]; intros l' H b Hb; simpl in *.
  - injection H as <-. contradiction.
  - destruct (f x) as [y| | |] eqn:Ex; simpl in H; try discriminate.
    destruct (mapM f r) as [ys| | |] eqn:Er; simpl in H; try discriminate.
    injection H as <-. destruct Hb as [<-|Hb].
    + exists x. split; [exact Ex | now left].
    + destruct (IH ys eq_refl b Hb) as (a & Ha & Hin).
      exists a. split; [exact Ha | now right].
Qed.

Lemma mapM_total {A B} (f : A -> result B) (l : list A) :
  (forall a, In a l -> exists b, f a = Ok b) ->
  exists l', mapM f l = Ok l'.
Proof.
  induction l as [|x r IH]; intros H; simpl; [now exists []|].
  destruct (H x (or_introl eq_refl)) as (y & ->).
  destruct IH as (ys & ->); [intros a Ha; apply H; now right|].
  simpl. now exists (y :: ys).
Qed.

(** ** Maxima *)

Lemma fold_max_spec (r : list Q) (x : Q) :
  let m := fold_left (fun m y => if Qle_bool y m then m else y) r x in
  (m = x \/ In m r) /\ (x <= m)%Q /\ (forall y, In y r -> (y <= m)%Q).
Proof.
  revert x. induction r as [|y r IH]; intros x; simpl.
  - split; [now left|]. split; [apply Qle_refl | contradiction].
  - specialize (IH (if Qle_bool y x then x else y)).
    destruct IH as (Hin & Hle & Hall).
    destruct (Qle_bool y x) eqn:E.
    + apply Qle_bool_iff in E. split; [|split].
      * destruct Hin as [->|Hin]; [now left | right; now right].
      * exact Hle.
      * intros z [<-|Hz]; [now apply Qle_trans with x | now apply Hall].
    + assert (Hxy : (x <= y)%Q).
      { apply Qlt_le_weak, Qnot_le_lt. intros Hc.
        apply Qle_bool_iff in Hc. congruence. }
      split; [|split].
      * destruct Hin as [->|Hin]; [right; now left | right; now right].
      * now apply Qle_trans with y.
      * intros z [<-|Hz]; [exact Hle | now apply Hall].
Qed.

Lemma max_spec (l : list Q) (m : Q) :
  Py.max l = Ok m -> In m l /\ forall y, In y l -> (y <= m)%Q.
Proof.
  destruct l as [|x r]; simpl; [discriminate|].
  intros H. injection H as <-.
  destruct (fold_max_spec r x) as (Hin & Hle & Hall). split.
  - destruct Hin as [->|Hin]; [now left | now right].
  - intros y [<-|Hy]; [exact Hle | now apply Hall].
Qed.

Lemma max_total (l : list Q) : l <> [] -> exists m, Py.max l = Ok m.
Proof. destruct l as [|x r]; [contradiction|]. intros _. now eexists. Qed.

Lemma fdiv_ok (a b q : Q) :
  Py.fdiv a b = Ok q -> ~ (b == 0)%Q /\ q = (a / b)%Q.
Proof.
  unfold Py.fdiv. destruct (Qeq_bool b 0) eqn:E; [discriminate|].
  intros H. injection H as <-. split; [|reflexivity].
  intros Hc. apply Qeq_bool_iff in Hc. congruence.
Qed.

Lemma fdiv_total (a b : Q) : ~ (b == 0)%Q -> Py.fdiv a b = Ok (a / b)%Q.
Proof.
  intros H. unfold Py.fdiv. destruct (Qeq_bool b 0) eqn:E; [|reflexivity].
  apply Qeq_bool_iff in E. contradiction.
Qed.

(** ** The bar pattern *)

Lemma mass_at_intensity_found (v : Q) (ip : spectrum_t) :
  (exists p, In p ip /\ (snd p == v)%Q) ->
  exists x y, mass_at_intensity v ip = Ok x /\ In (x, y) ip /\ (y == v)%Q.
Proof.
  induction ip as [|[x y] r IH]; intros (p & Hin & Hp); simpl in *;
    [contradiction|].
  destruct (Qeq_bool y v) eqn:E.
  - exists x, y. split; [reflexivity|]. split; [now left|].
    now apply Qeq_bool_iff.
  - destruct Hin as [<-|Hin].
    + simpl in Hp. apply Qeq_bool_iff in Hp. congruence.
    + destruct IH as (x' & y' & Hm & Hin' & Hy'); [now exists p|].
      exists x', y'. split; [exact Hm|]. split; [now right | exact Hy'].
Qed.

Lemma groupmasses_members (delta : Q) (ip : spectrum_t) :
  ip <> [] ->
  forall g, In g (groupmasses delta ip) ->
            g <> [] /\ forall p, In p g -> In p ip.
Proof.
  induction ip as [|p rest IH]; [contradiction|]. intros _ g Hg.
  destruct rest as [|q rest'].
  - simpl in Hg. destruct Hg as [<-|[]]. split; [discriminate|]. auto.
  - assert (Hrest : q :: rest' <> []) by discriminate.
    specialize (IH Hrest).
    change (groupmasses delta (p :: q :: rest'))
      with (if Qle_bool (fst q - fst p) delta
            then match groupmasses delta (q :: rest') with
                 | g :: gs => (p :: g) :: gs
                 | [] => [[p]]
                 end
            else [p] :: groupmasses delta (q :: rest')) in Hg.
    destruct (Qle_bool (fst q - fst p) delta).
    + destruct (groupmasses delta (q :: rest')) as [|g0 gs] eqn:Eg.
      * destruct Hg as [<-|[]]. split; [discriminate|].
        intros x [<-|[]]. now left.
      * destruct Hg as [<-|Hg].
        -- split; [discriminate|]. intros x [<-|Hx]; [now left|].
           right. now apply (proj2 (IH g0 (or_introl eq_refl))).
        -- destruct (IH g (or_intror Hg)) as [Hne Hall].
           split; [exact Hne|]. intros x Hx. right. now apply Hall.
    + destruct Hg as [<-|Hg].
      * split; [discriminate|]. intros x [<-|[]]. now left.
      * destruct (IH g Hg) as [Hne Hall].
        split; [exact Hne|]. intros x Hx. right. now apply Hall.
Qed.

Lemma fold_plus_pos (l : list Q) (a : Q) :
  (forall y, In y l -> 0 < y)%Q ->
  (0 <= a)%Q -> (l <> [] \/ 0 < a)%Q ->
  (0 < fold_left Qplus l a)%Q.
Proof.
  revert a. induction l as [|y r IH]; intros a Hall Ha Hne; simpl.
  - destruct Hne as [Hne|Hne]; [contradiction | exact Hne].
  - assert (Hy : (0 < y)%Q) by (apply Hall; now left).
    assert (Hay : (0 < a + y)%Q).
    { apply Qlt_le_trans with (0 + y)%Q; [now rewrite Qplus_0_l|].
      apply Qplus_le_l. exact Ha. }
    apply IH; [intros z Hz; apply Hall; now right | | now right].
    now apply Qlt_le_weak.
Qed.

Lemma ipgrouptopoint_total (g : spectrum_t) :
  g <> [] -> (forall p, In p g -> 0 < snd p)%Q ->
  exists x, ipgrouptopoint g = Ok (x, Py.sum (map snd g)) /\
            (0 < Py.sum (map snd g))%Q.
Proof.
  intros Hne Hpos.
  assert (Hs : (0 < Py.sum (map snd g))%Q).
  { unfold Py.sum. apply fold_plus_pos.
    - intros y Hy. apply in_map_iff in Hy as (p & <- & Hp). now apply Hpos.
    - apply Qle_refl.
    - left. destruct g; [contradiction | discriminate]. }
  unfold ipgrouptopoint. rewrite fdiv_total.
  - simpl. eexists. split; [reflexivity | exact Hs].
  - intros Hc. rewrite Hc in Hs. now apply Qlt_irrefl in Hs.
Qed.

Lemma mapM_length {A B} (f : A -> result B) (l : list A) :
  forall l', mapM f l = Ok l' -> List.length l' = List.length l.
Proof.
  induction l as [|x r IH]; intros l' H; simpl in *.
  - now injection H as <-.
  - destruct (f x) as [y| | |]; simpl in H; try discriminate.
    destruct (mapM f r) as [ys| | |]; simpl in H; try discriminate.
    injection H as <-. simpl. f_equal. now apply IH.
Qed.

Lemma groupmasses_nonempty (delta : Q) (ip : spectrum_t) :
  groupmasses delta ip <> [].
Proof.
  induction ip as [|p rest IH]; [discriminate|].
  destruct rest as [|q rest']; [discriminate|].
  change (groupmasses delta (p :: q :: rest'))
    with (if Qle_bool (fst q - fst p) delta
          then match groupmasses delta (q :: rest') with
               | g :: gs => (p :: g) :: gs
               | [] => [[p]]
               end
          else [p] :: groupmasses delta (q :: rest')).
  destruct (Qle_bool (fst q - fst p) delta); [|discriminate].
  destruct (groupmasses delta (q :: rest')); discriminate.
Qed.

Lemma barisotopepattern_has_100 (rawip : spectrum_t) (charge : Z)
    (bar : spectrum_t) :
  barisotopepattern rawip charge = Ok bar ->
  exists p, In p bar /\ (snd p == 100)%Q.
Proof.
  unfold barisotopepattern.
  destruct (mapM ipgrouptopoint (groupmasses (1 # 2) rawip))
    as [out| | |] eqn:Eout; simpl; try discriminate.
  destruct (Py.max (map snd out)) as [maxint| | |] eqn:Emax; simpl;
    try discriminate.
  intros Hbar.
  destruct (max_spec _ _ Emax) as [Hin _].
  apply in_map_iff in Hin as (p0 & Hp0 & Hin0).
  destruct (mapM_In _ _ _ Hbar p0 Hin0) as (b & Hb & Hinb).
  exists b. split; [exact Hinb|].
  destruct (Py.fdiv (fst p0) _) as [x| | |]; simpl in Hb; try discriminate.
  destruct (Py.fdiv (snd p0) maxint) as [y| | |] eqn:E2; simpl in Hb;
    try discriminate.
  injection Hb as <-. simpl.
  apply fdiv_ok in E2 as [Hnz ->]. rewrite Hp0. now field.
Qed.

Lemma barisotopepattern_total (rawip : spectrum_t) (charge : Z) :
  rawip <> [] -> (forall p, In p rawip -> 0 < snd p)%Q -> charge <> 0 ->
  exists bar, barisotopepattern rawip charge = Ok bar /\
              forall p, In p bar -> (0 < snd p /\ snd p <= 100)%Q.
Proof.
  intros Hne Hpos Hch. unfold barisotopepattern.
  destruct (mapM_total ipgrouptopoint (groupmasses (1 # 2) rawip))
    as (out & Eout).
  { intros g Hg.
    destruct (groupmasses_members (1 # 2) rawip Hne g Hg) as [Hg1 Hg2].
    destruct (ipgrouptopoint_total g Hg1) as (x & Hx & _).
    - intros p Hp. apply Hpos. now apply Hg2.
    - eexists. exact Hx. }
  rewrite Eout. simpl.
  assert (Hout : forall p, In p out -> (0 < snd p)%Q).
  { intros p Hp.
    destruct (mapM_In_inv _ _ _ Eout p Hp) as (g & Hg & Hgin).
    destruct (groupmasses_members (1 # 2) rawip Hne g Hgin) as [Hg1 Hg2].
    destruct (ipgrouptopoint_total g Hg1) as (x & Hx & Hs).
    - intros q Hq. apply Hpos. now apply Hg2.
    - rewrite Hx in Hg. injection Hg as <-. exact Hs. }
  destruct (max_total (map snd out)) as (maxint & Emax).
  { apply mapM_length in Eout.
    pose proof (groupmasses_nonempty (1 # 2) rawip) as Hgn.
    destruct out; [|discriminate].
    destruct (groupmasses (1 # 2) rawip); [contradiction | discriminate]. }
  rewrite Emax. simpl.
  destruct (max_spec _ _ Emax) as [Hin Hmax].
  assert (Hmpos : (0 < maxint)%Q).
  { apply in_map_iff in Hin as (p & <- & Hp). now apply Hout. }
  assert (Hmnz : ~ (maxint == 0)%Q).
  { intros Hc. rewrite Hc in Hmpos. now apply Qlt_irrefl in Hmpos. }
  assert (Hcnz : ~ (inject_Z (Z.abs charge) == 0)%Q).
  { unfold Qeq. simpl. lia. }
  destruct (mapM_total
              (fun p =>
                 rbind (Py.fdiv (fst p) (inject_Z (Z.abs charge))) (fun x =>
                 rbind (Py.fdiv (snd p) maxint) (fun y =>
                 Ok (x, (y * 100)%Q)))) out) as (bar & Ebar).
  { intros p _. rewrite (fdiv_total _ _ Hcnz). simpl.
    rewrite (fdiv_total _ _ Hmnz). simpl. now eexists. }
  exists bar. split; [exact Ebar|].
  intros b Hb.
  destruct (mapM_In_inv _ _ _ Ebar b Hb) as (p & Hp & Hpin).
  rewrite (fdiv_total _ _ Hcnz) in Hp. simpl in Hp.
  rewrite (fdiv_total _ _ Hmnz) in Hp. simpl in Hp.
  injection Hp as <-. simpl.
  assert (Hy : (0 < snd p)%Q) by now apply Hout.
  assert (Hle : (snd p <= maxint)%Q).
  { apply Hmax. apply in_map_iff. now exists p. }
  split.
  - apply Qmult_lt_0_compat; [|reflexivity].
    apply Qlt_shift_div_l; [exact Hmpos | now rewrite Qmult_0_l].
  - setoid_replace (100 : Q) with (1 * 100)%Q at 2 by reflexivity.
    apply Qmult_le_compat_r; [|discriminate].
    apply Qle_shift_div_r; [exact Hmpos | now rewrite Qmult_1_l].
Qed.

(** C8: every bar pattern that the consolidation step produces has an entry
    of intensity exactly 100, and the exact mass is the mass of such an
    entry; the consolidation step succeeds on every non-empty raw pattern of
    positive intensities with a non-zero charge, and then 100 is the tallest
    intensity; after [calculate], the stored exact mass is the mass of an
    entry of intensity 100 of the stored bar pattern. *)
Theorem exact_mass_is_tallest_bar :
  (forall rawip charge bar,
      barisotopepattern rawip charge = Ok bar ->
      exists x y, preciseexactmass bar = Ok x /\ In (x, y) bar /\
                  (y == 100)%Q) /\
  (forall rawip charge,
      rawip <> [] -> (forall p, In p rawip -> 0 < snd p)%Q -> charge <> 0 ->
      exists bar, barisotopepattern rawip charge = Ok bar /\
                  forall p, In p bar -> (0 < snd p /\ snd p <= 100)%Q) /\
  (forall md m m',
      calculate md m = (Ok tt, m') ->
      exists y, In (em m', y) (barip m') /\ (y == 100)%Q).
Proof.
  split; [|split].
  - intros rawip charge bar H. unfold preciseexactmass.
    apply mass_at_intensity_found.
    now apply barisotopepattern_has_100 with (rawip := rawip) (charge := charge).
  - exact barisotopepattern_total.
  - intros md m m'. unfold calculate, bind, modify.
    destruct (molecularweight md _) as [wp| | |]; simpl; try discriminate.
    destruct (rawisotopepattern md _ _ _ _) as [raw| | |]; simpl;
      try discriminate.
    destruct (barisotopepattern raw _) as [bar| | |] eqn:Ebar; simpl;
      try discriminate.
    destruct (preciseexactmass bar) as [e| | |] eqn:Ee; simpl;
      try discriminate.
    destruct (sigmafwhm e _) as [w| | |]; simpl; try discriminate.
    intros H. injection H as <-. simpl.
    destruct (mass_at_intensity_found 100 bar) as (x & y & Hx & Hin & Hy).
    { now apply barisotopepattern_has_100 in Ebar. }
    unfold preciseexactmass in Ee. rewrite Ee in Hx. injection Hx as <-.
    now exists y.
Qed.

Lemma exact_mass_is_tallest_bar_witness :
  exists bar,
    barisotopepattern [(1, 50); (1.2, 50); (2, 30)]%Q 1 = Ok bar /\
    forall p, In p bar -> (0 < snd p /\ snd p <= 100)%Q.
Proof.
  apply (proj1 (proj2 exact_mass_is_tallest_bar)).
  - discriminate.
  - intros p [<-|[<-|[<-|[]]]]; reflexivity.
  - discriminate.
Defined.

(** ** One atom of the raw pattern *)

Lemma scaled_max (m top : Q) : ~ (m == 0)%Q -> (m / m * top == top)%Q.
Proof. intros H. now field. Qed.

Lemma scaled_le (y m top : Q) :
  (0 < m)%Q -> (0 <= top)%Q -> (y <= m)%Q -> (y / m * top <= top)%Q.
Proof.
  intros Hm Ht Hy.
  setoid_replace top with (1 * top)%Q at 2 by (now rewrite Qmult_1_l).
  apply Qmult_le_compat_r; [|exact Ht].
  apply Qle_shift_div_r; [exact Hm | now rewrite Qmult_1_l].
Qed.

Lemma min_total (l : list Q) : l <> [] -> exists m, Py.min l = Ok m.
Proof. destruct l as [|x r]; [contradiction|]. intros _. now eexists. Qed.

Lemma bin_add_pos (x y : Q) (bins : spectrum_t) :
  (0 < y)%Q -> bins_pos bins ->
  bins_pos (bin_add x y bins) /\ bin_add x y bins <> [].
Proof.
  intros Hy. induction bins as [|[x' y'] r IH]; intros Hpos; simpl.
  - split; [|discriminate]. intros p [<-|[]]. exact Hy.
  - assert (Hy' : (0 < y')%Q) by (apply (Hpos (x', y')); now left).
    assert (Hr : bins_pos r) by (intros p Hp; apply Hpos; now right).
    destruct (x ?= x')%Q.
    + split; [|discriminate]. intros p [<-|Hp]; simpl; [|now apply Hr].
      apply Qlt_trans with y'; [exact Hy'|].
      rewrite <- (Qplus_0_r y') at 1. now apply Qplus_lt_r.
    + split; [|discriminate]. intros p [<-|Hp]; [exact Hy | now apply Hpos].
    + split; [|discriminate]. intros p [<-|Hp]; [exact Hy'|].
      now apply (proj1 (IH Hr)).
Qed.

Lemma convolve_isotope_pos (dec : Z) (mass ab : Q) (out : spectrum_t) :
  (0 < ab)%Q -> bins_pos out ->
  forall sp,
    bins_pos (sp_bins sp) ->
    let sp' :=
      fold_left
        (fun sp p => addvalue (fst p + Py.round mass dec)%Q (snd p * ab)%Q sp)
        out sp in
    bins_pos (sp_bins sp') /\
    (out <> [] \/ sp_bins sp <> [] -> sp_bins sp' <> []).
Proof.
  intros Hab. induction out as [|p r IH]; intros Hout sp Hsp; simpl.
  - split; [exact Hsp|]. intros [H|H]; [contradiction | exact H].
  - assert (Hp : (0 < snd p * ab)%Q).
    { apply Qmult_lt_0_compat; [|exact Hab]. apply Hout. now left. }
    destruct (bin_add_pos (Py.round (fst p + Py.round mass dec) (sp_decpl sp))
                (snd p * ab) (sp_bins sp) Hp Hsp) as [H1 H2].
    destruct (IH (fun q Hq => Hout q (or_intror Hq))
                 (addvalue (fst p + Py.round mass dec) (snd p * ab) sp) H1)
      as [H3 H4].
    split; [exact H3|]. intros _. apply H4. now right.
Qed.

Lemma convolve_pos (dec : Z) (out : spectrum_t) (isos : isotopes_t) :
  bins_pos out ->
  (forall im, In im isos -> (0 <= snd (snd im))%Q) ->
  forall sp,
    bins_pos (sp_bins sp) ->
    let sp' :=
      fold_left
        (fun sp im =>
           if negb (fst im =? 0) && negb (Qeq_bool (snd (snd im)) 0) then
             fold_left
               (fun sp p =>
                  addvalue (fst p + Py.round (fst (snd im)) dec)%Q
                           (snd p * snd (snd im))%Q sp)
               out sp
           else sp)
        isos sp in
    bins_pos (sp_bins sp') /\
    (sp_bins sp <> [] \/
     (out <> [] /\
      exists im, In im isos /\ fst im <> 0 /\ (0 < snd (snd im))%Q) ->
     sp_bins sp' <> []).
Proof.
  intros Hout. induction isos as [|im r IH]; intros Hab sp Hsp; simpl.
  - split; [exact Hsp|]. intros [H|[_ (im & [] & _)]]. exact H.
  - assert (Habr : forall i, In i r -> (0 <= snd (snd i))%Q)
      by (intros i Hi; apply Hab; now right).
    destruct (fst im =? 0) eqn:E0; simpl.
    { destruct (IH Habr sp Hsp) as [H1 H2]. split; [exact H1|].
      intros [H|[Hne (i & [<-|Hi] & Hnz & Hpos)]].
      - apply H2. now left.
      - apply Z.eqb_eq in E0. contradiction.
      - apply H2. right. split; [exact Hne|]. now exists i. }
    destruct (Qeq_bool (snd (snd im)) 0) eqn:Ea; simpl.
    { destruct (IH Habr sp Hsp) as [H1 H2]. split; [exact H1|].
      intros [H|[Hne (i & [<-|Hi] & Hnz & Hpos)]].
      - apply H2. now left.
      - apply Qeq_bool_iff in Ea. rewrite Ea in Hpos.
        now apply Qlt_irrefl in Hpos.
      - apply H2. right. split; [exact Hne|]. now exists i. }
    assert (Hpos : (0 < snd (snd im))%Q).
    { assert (Hle : (0 <= snd (snd im))%Q) by (apply Hab; now left).
      apply Qle_lt_or_eq in Hle as [Hlt|Heq]; [exact Hlt|].
      symmetry in Heq. apply Qeq_bool_iff in Heq. congruence. }
    destruct (convolve_isotope_pos dec (fst (snd im)) (snd (snd im)) out
                Hpos Hout sp Hsp) as [H1 H2].
    destruct (IH Habr _ H1) as [H3 H4].
    split; [exact H3|].
    intros [H|[Hne _]]; apply H4; left; apply H2; [now right | now left].
Qed.

Lemma atom_pass_inv (thresh : Q) (dec : Z) (empty : bool)
    (isos : isotopes_t) (out out' : spectrum_t) :
  atom_pass thresh dec empty isos out = Ok out' ->
  exists start stop m,
    Py.max (map snd (sp_bins (convolved dec empty start stop isos out))) = Ok m
    /\ ~ (m == 0)%Q
    /\ out' = List.filter (fun p => Qle_bool thresh (snd p))
                (map (fun p => (fst p, (snd p / m * 100)%Q))
                     (sp_bins (convolved dec empty start stop isos out))).
Proof.
  unfold atom_pass.
  destruct (Py.min (map fst out)) as [lo| | |]; simpl; try discriminate.
  destruct (Py.min _) as [blo| | |]; simpl; try discriminate.
  destruct (Py.max (map fst out)) as [hi| | |]; simpl; try discriminate.
  destruct (Py.max _) as [bhi| | |]; simpl; try discriminate.
  fold (convolved dec empty (lo + Py.round blo dec - Qpower 10 (- dec))%Q
          (hi + Py.round bhi dec + Qpower 10 (- dec))%Q isos out).
  set (sp := convolved _ _ _ _ _ _).
  unfold normalize.
  destruct (Py.max (map snd (sp_bins sp))) as [m| | |] eqn:Em; simpl;
    try discriminate.
  destruct (Qeq_bool m 0) eqn:E0; simpl; [discriminate|].
  intros H. injection H as <-.
  exists (lo + Py.round blo dec - Qpower 10 (- dec))%Q,
         (hi + Py.round bhi dec + Qpower 10 (- dec))%Q, m.
  fold sp. split; [exact Em|]. split; [|reflexivity].
  intros Hc. apply Qeq_bool_iff in Hc. congruence.
Qed.

Lemma atom_pass_retained (thresh : Q) (dec : Z) (empty : bool)
    (isos : isotopes_t) (out out' : spectrum_t) :
  atom_pass thresh dec empty isos out = Ok out' ->
  (forall p, In p out' -> (thresh <= snd p)%Q) /\
  ((thresh <= 100)%Q -> exists p, In p out' /\ (snd p == 100)%Q).
Proof.
  intros H. apply atom_pass_inv in H as (start & stop & m & Em & Hm & ->).
  split.
  - intros p Hp. apply filter_In in Hp as [_ Hp]. now apply Qle_bool_iff.
  - intros Ht. destruct (max_spec _ _ Em) as [Hin _].
    apply in_map_iff in Hin as (p0 & Hp0 & Hin0).
    exists (fst p0, (snd p0 / m * 100)%Q). simpl.
    assert (H100 : (snd p0 / m * 100 == 100)%Q).
    { rewrite Hp0. now apply scaled_max. }
    split; [|exact H100].
    apply filter_In. split.
    + apply in_map_iff. now exists p0.
    + simpl. apply Qle_bool_iff. now rewrite H100.
Qed.

Lemma atom_pass_total (thresh : Q) (dec : Z) (empty : bool)
    (isos : isotopes_t) (out : spectrum_t) :
  out <> [] -> bins_pos out ->
  (forall im, In im isos -> (0 <= snd (snd im))%Q) ->
  (exists im, In im isos /\ fst im <> 0 /\ (0 < snd (snd im))%Q) ->
  exists out', atom_pass thresh dec empty isos out = Ok out' /\
               forall p, In p out' -> (snd p <= 100)%Q.
Proof.
  intros Hne Hpos Hab Hreal. unfold atom_pass.
  destruct (min_total (map fst out)) as (lo & ->);
    [destruct out; [contradiction | discriminate]|].
  assert (Hisos : map (fun im : Z * (Q * Q) => fst (snd im)) isos <> []).
  { destruct Hreal as (im & Him & _). destruct isos; [contradiction|].
    discriminate. }
  destruct (min_total _ Hisos) as (blo & ->).
  destruct (max_total (map fst out)) as (hi & ->);
    [destruct out; [contradiction | discriminate]|].
  destruct (max_total _ Hisos) as (bhi & ->). simpl.
  fold (convolved dec empty (lo + Py.round blo dec - Qpower 10 (- dec))%Q
          (hi + Py.round bhi dec + Qpower 10 (- dec))%Q isos out).
  set (sp := convolved _ _ _ _ _ _).
  destruct (convolve_pos dec out isos Hpos Hab
              (mkSpectrum dec (lo + Py.round blo dec - Qpower 10 (- dec))%Q
                 (hi + Py.round bhi dec + Qpower 10 (- dec))%Q empty []))
    as [Hbins Hnonempty]; [intros p []|].
  fold (convolved dec empty (lo + Py.round blo dec - Qpower 10 (- dec))%Q
          (hi + Py.round bhi dec + Qpower 10 (- dec))%Q isos out)
    in Hbins, Hnonempty.
  fold sp in Hbins, Hnonempty.
  assert (Hb : sp_bins sp <> []) by (apply Hnonempty; right; now split).
  unfold normalize.
  destruct (max_total (map snd (sp_bins sp))) as (m & Em).
  { destruct (sp_bins sp); [contradiction | discriminate]. }
  rewrite Em. simpl.
  destruct (max_spec _ _ Em) as [Hin Hmax].
  assert (Hmpos : (0 < m)%Q).
  { apply in_map_iff in Hin as (p & <- & Hp). now apply Hbins. }
  destruct (Qeq_bool m 0) eqn:E0.
  { apply Qeq_bool_iff in E0. rewrite E0 in Hmpos.
    now apply Qlt_irrefl in Hmpos. }
  simpl. eexists. split; [reflexivity|].
  intros p Hp. apply filter_In in Hp as [Hp _].
  apply in_map_iff in Hp as (q & <- & Hq). simpl.
  apply scaled_le; [exact Hmpos | discriminate|].
  apply Hmax. apply in_map_iff. now exists q.
Qed.

(** C2 (as stated, refuted): with the default threshold, one pass for a
    hydrogen atom on the initial spectrum keeps the deuterium peak, whose
    intensity on the 100-maximum scale is below 1.0 (it is about 0.0115). *)
Lemma raw_pattern_keeps_peak_below_one_percent :
  exists out p,
    rawisotopepattern example_md [("H", 1)] default_thresh 7 true = Ok out /\
    In p out /\ (snd p < 1)%Q.
Proof.
  eexists. eexists. split; [vm_compute; reflexivity|].
  split; [right; left; reflexivity | reflexivity].
Qed.

(** C2 (amended): after each single atom's convolution step the spectrum is
    renormalized so that its tallest peak is 100, and every retained peak has
    intensity at least the discard threshold, which is an absolute intensity
    on the 100-maximum scale and defaults to 0.01 (one hundredth of a percent
    of the maximum).  The step succeeds on a non-empty spectrum of positive
    intensities for an element with non-negative abundances of which one, of
    a real isotope, is positive. *)
Theorem atom_pass_normalized_thresholded :
  (default_thresh == 1 # 100)%Q /\
  (forall thresh dec empty isos out out',
      atom_pass thresh dec empty isos out = Ok out' ->
      (forall p, In p out' -> (thresh <= snd p)%Q) /\
      ((thresh <= 100)%Q -> exists p, In p out' /\ (snd p == 100)%Q)) /\
  (forall thresh dec empty isos out,
      out <> [] -> (forall p, In p out -> 0 < snd p)%Q ->
      (forall im, In im isos -> (0 <= snd (snd im))%Q) ->
      (exists im, In im isos /\ fst im <> 0 /\ (0 < snd (snd im))%Q) ->
      exists out', atom_pass thresh dec empty isos out = Ok out' /\
                   forall p, In p out' -> (snd p <= 100)%Q).
Proof.
  split; [reflexivity|]. split.
  - exact atom_pass_retained.
  - exact atom_pass_total.
Qed.

Lemma atom_pass_normalized_thresholded_witness :
  exists out',
    atom_pass default_thresh 7 true
      [iso 0 12 1; iso 12 12 0.9893; iso 13 13.0033548378 0.0107]
      [(0%Q, 100%Q)] = Ok out' /\
    forall p, In p out' -> (snd p <= 100)%Q.
Proof.
  apply (proj2 (proj2 atom_pass_normalized_thresholded)).
  - discriminate.
  - intros p [<-|[]]. reflexivity.
  - intros im [<-|[<-|[<-|[]]]]; discriminate.
  - exists (iso 12 12 0.9893). split; [right; left; reflexivity|].
    split; [discriminate | reflexivity].
Defined.

(** ** Dictionaries *)

Section DictFacts.
Context {K V : Type} `{KeyEq K}.

Lemma keqb_refl (k : K) : keqb k k = true.
Proof. now apply keqb_eq. Qed.

Lemma keqb_neq (a b : K) : a <> b -> keqb a b = false.
Proof.
  intros Hne. destruct (keqb a b) eqn:E; [|reflexivity].
  apply keqb_eq in E. contradiction.
Qed.



Lemma get_app_fresh (k : K) (pre d : Dict.t K V) :
  ~ In k (Dict.keys pre) -> Dict.get k (pre ++ d) = Dict.get k d.
Proof.
  induction pre as [|[a b] r IH]; simpl; intros Hn; [reflexivity|].
  rewrite keqb_neq by (intros ->; apply Hn; now left).
  apply IH. intros Hc. apply Hn. now right.
Qed.

Lemma put_app_fresh (k : K) (v : V) (pre d : Dict.t K V) :
  ~ In k (Dict.keys pre) -> Dict.put k v (pre ++ d) = pre ++ Dict.put k v d.
Proof.
  induction pre as [|[a b] r IH]; simpl; intros Hn; [reflexivity|].
  rewrite keqb_neq by (intros ->; apply Hn; now left).
  f_equal. apply IH. intros Hc. apply Hn. now right.
Qed.
End DictFacts.

(** ** Subtraction *)






(** With the instance itself as operand, [__sub__] deletes the first key of
    the composition and raises [RuntimeError]. *)
Lemma sub_self_raises
    (md : Dict.t string isotopes_t) (abbrvs : Dict.t string composition_t)
    (self : molecule) (kv : string * Z) (rest : composition_t) :
  comp self = kv :: rest ->
  sub md abbrvs OpSelf self = (Raise RuntimeError, set_comp rest self).
Proof. intros H. unfold sub. now rewrite H. Qed.

(** ** Division *)

Lemma calculate_comp (md : Dict.t string isotopes_t) (m : molecule) :
  comp (snd (calculate md m)) = comp m.
Proof.
  unfold calculate, bind, modify. simpl.
  destruct (molecularweight md (comp m)) as [wp| | |]; simpl; try reflexivity.
  destruct (rawisotopepattern md (comp m) _ _ _) as [raw| | |]; simpl;
    try reflexivity.
  destruct (barisotopepattern raw _) as [bar| | |]; simpl; try reflexivity.
  destruct (preciseexactmass bar) as [e| | |]; simpl; try reflexivity.
  destruct (sigmafwhm e _) as [w| | |]; reflexivity.
Qed.

Lemma recalculate_comp (md : Dict.t string isotopes_t) (m : molecule) :
  comp (snd (recalculate md m)) = comp m.
Proof.
  unfold recalculate, bind, modify, gets.
  pose proof (calculate_comp md m) as H.
  destruct (calculate md m) as [[u| | |] m']; simpl in *; exact H.
Qed.

(** ** Double precision

    Below [2^53] a conversion to a double is exact, and the rounded quotient
    of two such integers is an integer only when the division is exact. *)

Lemma rne_spec (a b : Z) : 0 < b -> 2 * Z.abs (a - Double.rne a b * b) <= b.
Proof.
  intros Hb. unfold Double.rne.
  pose proof (Z.div_mod a b ltac:(lia)) as Hdm.
  pose proof (Z.mod_pos_bound a b Hb) as Hm.
  destruct (Z.compare_spec (2 * (a mod b)) b) as [He|Hl|Hg].
  - destruct (Z.even (a / b)); lia.
  - lia.
  - lia.
Qed.

Lemma rne_exact (a b : Z) : 0 < b -> a mod b = 0 -> Double.rne a b = a / b.
Proof.
  intros Hb Hm. unfold Double.rne. rewrite Hm.
  destruct (Z.compare_spec (2 * 0) b); lia.
Qed.

Lemma shl_nonneg (z k : Z) : 0 <= k -> Double.shl z k = z * 2 ^ k.
Proof. intros H. unfold Double.shl. now rewrite Z.max_r. Qed.

Lemma shl_neg (z k : Z) : k <= 0 -> Double.shl z k = z.
Proof. intros H. unfold Double.shl. rewrite Z.max_l by lia. simpl. lia. Qed.

Lemma ilog2_lower (a b : Z) :
  0 < a -> 0 < b ->
  Double.shl b (Double.ilog2 a b) <= Double.shl a (- Double.ilog2 a b).
Proof.
  intros Ha Hb. unfold Double.ilog2.
  set (e := Z.log2 a - Z.log2 b).
  destruct (Z.ltb_spec (Double.shl a (- e)) (Double.shl b e)) as [Hlt|Hge];
    [|exact Hge].
  destruct (Z.log2_spec a Ha) as [Ha1 _].
  destruct (Z.log2_spec b Hb) as [_ Hb2].
  pose proof (Z.log2_nonneg a) as Hla. pose proof (Z.log2_nonneg b) as Hlb.
  destruct (Z_le_gt_dec 1 e) as [He|He].
  - rewrite (shl_nonneg b (e - 1)) by lia.
    rewrite (shl_neg a (- (e - 1))) by lia.
    assert (Hp : 2 ^ Z.log2 a = 2 ^ Z.succ (Z.log2 b) * 2 ^ (e - 1)).
    { rewrite <- Z.pow_add_r by lia. f_equal. unfold e. lia. }
    assert (0 < 2 ^ (e - 1)) by (apply Z.pow_pos_nonneg; lia).
    nia.
  - rewrite (shl_neg b (e - 1)) by lia.
    rewrite (shl_nonneg a (- (e - 1))) by lia.
    assert (Hp : 2 ^ Z.succ (Z.log2 b) = 2 ^ Z.log2 a * 2 ^ (- (e - 1))).
    { rewrite <- Z.pow_add_r by lia. f_equal. unfold e. lia. }
    assert (0 < 2 ^ (- (e - 1))) by (apply Z.pow_pos_nonneg; lia).
    nia.
Qed.

Lemma pow53_lt_huge : 2 ^ 53 < 2 ^ 1024.
Proof. apply Z.pow_lt_mono_r; lia. Qed.

Lemma of_int_small (z : Z) : Z.abs z < 2 ^ 53 -> Double.of_int z = Some z.
Proof.
  intros Hz. unfold Double.of_int.
  assert (Hl : Z.log2 (Z.abs z) - 52 <= 0).
  { destruct (Z.eq_dec (Z.abs z) 0) as [->|Hne]; [simpl; lia|].
    assert (Z.log2 (Z.abs z) < 53); [|lia].
    apply Z.log2_lt_pow2; lia. }
  rewrite Z.max_l by exact Hl. rewrite Z.pow_0_r.
  rewrite rne_exact by (try lia; apply Z.mod_1_r).
  rewrite Z.div_1_r, Z.mul_1_r, Z.mul_comm, Z.abs_sgn.
  pose proof pow53_lt_huge.
  destruct (Z.leb_spec (2 ^ 1024) (Z.abs z)); [lia | reflexivity].
Qed.

Lemma sgn_quotient (a b c : Z) :
  b <> 0 -> a = b * c -> Z.sgn a * Z.sgn b * Z.abs c = c.
Proof.
  intros Hb ->. rewrite Z.sgn_mul.
  replace (Z.sgn b * Z.sgn c * Z.sgn b * Z.abs c)
    with ((Z.sgn b * Z.sgn b) * (Z.abs c * Z.sgn c)) by ring.
  rewrite Z.abs_sgn.
  destruct b; try contradiction; cbn [Z.sgn]; lia.
Qed.

Lemma ilog2_small (A B : Z) :
  0 < A -> 0 < B -> A < 2 ^ 53 -> Double.ilog2 A B <= 52.
Proof.
  intros HA HB Hlt.
  pose proof (ilog2_lower A B HA HB) as Hlow.
  destruct (Z_le_gt_dec (Double.ilog2 A B) 52) as [H|H]; [exact H|].
  exfalso.
  rewrite shl_nonneg in Hlow by lia. rewrite shl_neg in Hlow by lia.
  assert (2 ^ 53 <= 2 ^ Double.ilog2 A B)
    by (apply Z.pow_le_mono_r; lia).
  nia.
Qed.

Lemma nearest_divisible (a b c : Z) :
  b <> 0 -> a = b * c -> Z.abs a < 2 ^ 53 ->
  Double.is_integer (Double.nearest a b) = true /\
  Double.to_int (Double.nearest a b) = c.
Proof.
  intros Hb Ha Hlt. unfold Double.nearest.
  destruct (Z.eqb_spec a 0) as [H0|H0].
  { split; [reflexivity|]. unfold Double.to_int. simpl.
    assert (Hbc : b * c = 0) by lia.
    apply Z.mul_eq_0 in Hbc. change (0 ÷ 1) with 0. lia. }
  set (A := Z.abs a). set (B := Z.abs b).
  assert (HA : 0 < A) by (unfold A; lia).
  assert (HB : 0 < B) by (unfold B; lia).
  assert (HAB : A = B * Z.abs c).
  { unfold A, B. rewrite Ha. apply Z.abs_mul. }
  pose proof (ilog2_small A B HA HB Hlt) as He.
  set (k := 52 - Double.ilog2 A B) in *.
  assert (Hk : 0 <= k) by (unfold k; lia).
  rewrite (shl_nonneg A k Hk), (shl_neg B (- k)) by lia.
  assert (Hp : 0 < 2 ^ k) by (apply Z.pow_pos_nonneg; lia).
  assert (Hm : Double.rne (A * 2 ^ k) B = Z.abs c * 2 ^ k).
  { assert (Hmul : A * 2 ^ k = Z.abs c * 2 ^ k * B) by (rewrite HAB; ring).
    rewrite Hmul. rewrite rne_exact.
    - apply Z.div_mul. lia.
    - exact HB.
    - apply Z.mod_mul. lia. }
  rewrite Hm. rewrite shl_neg by lia. rewrite shl_nonneg by lia.
  rewrite Z.mul_1_l.
  unfold Double.is_integer, Double.to_int. cbn [Qnum Qden].
  rewrite Z2Pos.id by exact Hp.
  rewrite Z.mul_assoc.
  split.
  - apply Z.eqb_eq. apply Z.mod_mul. lia.
  - rewrite Z.quot_mul by lia. now apply sgn_quotient.
Qed.

Lemma nearest_indivisible (a b : Z) :
  b <> 0 -> a mod b <> 0 -> Z.abs a < 2 ^ 53 ->
  Double.is_integer (Double.nearest a b) = false.
Proof.
  intros Hb Hnd Hlt. unfold Double.nearest.
  destruct (Z.eqb_spec a 0) as [H0|H0].
  { subst a. rewrite Z.mod_0_l in Hnd by exact Hb. contradiction. }
  set (A := Z.abs a). set (B := Z.abs b).
  assert (HA : 0 < A) by (unfold A; lia).
  assert (HB : 0 < B) by (unfold B; lia).
  assert (Hndiv : forall j, A <> j * B).
  { intros j Hj. apply Hnd. apply Z.mod_divide; [exact Hb|].
    apply Z.divide_abs_l, Z.divide_abs_r. exists j. exact Hj. }
  pose proof (ilog2_lower A B HA HB) as Hlow.
  set (e := Double.ilog2 A B) in *.
  set (k := 52 - e).
  assert (He : e <= 51).
  { destruct (Z_le_gt_dec e 51) as [H|H]; [exact H|]. exfalso.
    rewrite shl_nonneg in Hlow by lia. rewrite shl_neg in Hlow by lia.
    assert (2 ^ 52 <= 2 ^ e) by (apply Z.pow_le_mono_r; lia).
    assert (B = 1) by nia.
    apply (Hndiv A). lia. }
  assert (Hk : 1 <= k) by (unfold k; lia).
  rewrite (shl_nonneg A k), (shl_neg B (- k)) by lia.
  assert (Hp : 0 < 2 ^ k) by (apply Z.pow_pos_nonneg; lia).
  pose proof (rne_spec (A * 2 ^ k) B HB) as Hr.
  set (m := Double.rne (A * 2 ^ k) B) in *.
  rewrite shl_neg by lia. rewrite shl_nonneg by lia. rewrite Z.mul_1_l.
  unfold Double.is_integer. cbn [Qnum Qden].
  rewrite Z2Pos.id by exact Hp.
  apply Z.eqb_neq. intros Hmod.
  apply Z.mod_divide in Hmod; [|lia].
  assert (Hdm : (2 ^ k | m)).
  { destruct Hmod as [j Hj].
    assert (Hs : Z.sgn a * Z.sgn b * (Z.sgn a * Z.sgn b) = 1).
    { destruct a, b; simpl; try contradiction; try reflexivity. }
    exists (Z.sgn a * Z.sgn b * j).
    replace m with (Z.sgn a * Z.sgn b * (Z.sgn a * Z.sgn b) * m)
      by (rewrite Hs; ring).
    rewrite <- Z.mul_assoc, Hj. ring. }
  destruct Hdm as [j Hj].
  assert (Hdiff : 1 <= Z.abs (A - j * B)).
  { specialize (Hndiv j). lia. }
  assert (Hbig : 2 * 2 ^ k <= B).
  { replace (A * 2 ^ k - m * B) with ((A - j * B) * 2 ^ k) in Hr
      by (rewrite Hj; ring).
    rewrite Z.abs_mul in Hr. rewrite (Z.abs_eq (2 ^ k)) in Hr by lia.
    nia. }
  destruct (Z_le_gt_dec 0 e) as [H|H].
  - rewrite shl_nonneg in Hlow by lia. rewrite shl_neg in Hlow by lia.
    assert (H53 : 2 ^ 53 = 2 * 2 ^ k * 2 ^ e).
    { change 2 with (2 ^ 1) at 2.
      rewrite <- !Z.pow_add_r by lia. f_equal. unfold k. lia. }
    assert (0 < 2 ^ e) by (apply Z.pow_pos_nonneg; lia). nia.
  - rewrite shl_neg in Hlow by lia. rewrite shl_nonneg in Hlow by lia.
    assert (H53 : 2 ^ 53 * 2 ^ (- e) = 2 * 2 ^ k).
    { change 2 with (2 ^ 1) at 3.
      rewrite <- !Z.pow_add_r by lia. f_equal. unfold k. lia. }
    assert (0 < 2 ^ (- e)) by (apply Z.pow_pos_nonneg; lia). nia.
Qed.

Lemma quotient_small (v x : Z) :
  Z.abs v < 2 ^ 53 -> Z.abs x < 2 ^ 53 -> x <> 0 ->
  exists t,
    Double.quotient v x = inl t /\
    (v mod x = 0 ->
     Double.is_integer t = true /\ Double.to_int t = v / x) /\
    (v mod x <> 0 -> Double.is_integer t = false).
Proof.
  intros Hv Hx Hne. unfold Double.quotient.
  rewrite (of_int_small v Hv), (of_int_small x Hx).
  destruct (Z.eqb_spec x 0) as [H0|_]; [contradiction|].
  eexists. split; [reflexivity|]. split.
  - intros Hm. apply nearest_divisible; [exact Hne | | exact Hv].
    pose proof (Z.div_mod v x Hne). lia.
  - intros Hm. now apply nearest_indivisible.
Qed.

Lemma quotient_zero (v : Z) :
  Z.abs v < 2 ^ 53 -> Double.quotient v 0 = inr ZeroDivisionError.
Proof.
  intros Hv. unfold Double.quotient. rewrite (of_int_small v Hv).
  reflexivity.
Qed.

(** The loop of [__div__] from the middle of the dictionary: [pre] holds the
    keys already divided, [todo] those still to visit. *)
Lemma div_loop_from (x : Z) (todo : composition_t) :
  x <> 0 -> Z.abs x < 2 ^ 53 ->
  counts_below (2 ^ 53) todo ->
  forall pre : composition_t,
    NoDup (Dict.keys (pre ++ todo)) ->
    (all_divisible x todo /\
     div_loop x (Dict.keys todo) (pre ++ todo)
     = (pre ++ scale_counts x todo, None)) \/
    (exists done kv rest,
        todo = done ++ kv :: rest /\
        all_divisible x done /\ snd kv mod x <> 0 /\
        div_loop x (Dict.keys todo) (pre ++ todo)
        = (pre ++ scale_counts x done ++ kv :: rest, Some ValueError)).
Proof.
  intros Hx Hxb. induction todo as [|[k v] rest IH]; intros Hcb pre Hnd.
  - left. split; [intros kv []|]. reflexivity.
  - assert (Hv : Z.abs v < 2 ^ 53) by exact (Hcb (k, v) (or_introl eq_refl)).
    assert (Hrb : counts_below (2 ^ 53) rest)
      by (intros kv Hin; apply Hcb; now right).
    specialize (IH Hrb).
    destruct (quotient_small v x Hv Hxb Hx) as (t & Ht & Hdiv & Hndiv).
    assert (Hfresh : ~ In k (Dict.keys pre)).
    { unfold Dict.keys in *. rewrite map_app in Hnd.
      apply NoDup_remove_2 in Hnd. intros Hc. apply Hnd.
      apply in_or_app. now left. }
    simpl Dict.keys. cbn [div_loop].
    rewrite (get_app_fresh k pre ((k, v) :: rest) Hfresh).
    cbn [Dict.get]. rewrite keqb_refl. rewrite Ht.
    destruct (v mod x =? 0) eqn:Ev.
    + apply Z.eqb_eq in Ev. destruct (Hdiv Ev) as [-> ->].
      rewrite (put_app_fresh k (v / x) pre ((k, v) :: rest) Hfresh).
      cbn [Dict.put]. rewrite keqb_refl.
      replace (pre ++ (k, v / x) :: rest)
        with ((pre ++ [(k, v / x)]) ++ rest)
        by (now rewrite <- app_assoc).
      destruct (IH (pre ++ [(k, v / x)])) as [[Hall Hl]|Hstop].
      * unfold Dict.keys in *. rewrite !map_app in *. simpl in *.
        now rewrite <- app_assoc.
      * left. split.
        -- intros kv [<-|Hin]; [exact Ev | now apply Hall].
        -- rewrite Hl. simpl. now rewrite <- app_assoc.
      * right. destruct Hstop as (done & kv & rest' & -> & Hall & Hkv & Hl).
        exists ((k, v) :: done), kv, rest'.
        split; [reflexivity|]. split; [|split; [exact Hkv|]].
        -- intros kv' [<-|Hin]; [exact Ev | now apply Hall].
        -- rewrite Hl. simpl. now rewrite <- app_assoc.
    + right. apply Z.eqb_neq in Ev. rewrite (Hndiv Ev).
      exists [], (k, v), rest.
      split; [reflexivity|]. split; [intros kv []|]. split; [exact Ev|].
      reflexivity.
Qed.

(** C7 (as stated, refuted): [Molecule('H2O') / 2] raises [ValueError] at
    O, whose count 1 is not divisible by 2, after it has divided the count of
    H, so that the composition is {H:1, O:1} and no longer {H:2, O:1}. *)
Lemma div_failure_mutates :
  comp water = [("H", 2); ("O", 1)] /\
  fst (div example_md 2 water) = Raise ValueError /\
  comp (snd (div example_md 2 water)) = [("H", 1); ("O", 1)].
Proof. repeat split. Qed.

Lemma div_nonzero_cases
    (md : Dict.t string isotopes_t) (x : Z) (self : molecule) :
  x <> 0 -> Z.abs x < 2 ^ 53 ->
  counts_below (2 ^ 53) (comp self) ->
  NoDup (Dict.keys (comp self)) ->
  (all_divisible x (comp self) ->
   div md x self = recalculate md (set_comp (scale_counts x (comp self)) self)
   /\ comp (snd (div md x self)) = scale_counts x (comp self)) /\
  (~ all_divisible x (comp self) ->
   exists done kv rest,
     comp self = done ++ kv :: rest /\
     all_divisible x done /\ snd kv mod x <> 0 /\
     div md x self
     = (Raise ValueError,
        set_comp (scale_counts x done ++ kv :: rest) self)) /\
  (forall s, fst (div md x self) = Ok s -> all_divisible x (comp self)).
Proof.
  intros Hx Hxb Hcb Hnd.
  destruct (div_loop_from x (comp self) Hx Hxb Hcb [] Hnd)
    as [[Hall Hl]|Hstop]; simpl in *.
  - assert (Hdiv : div md x self
                   = recalculate md
                       (set_comp (scale_counts x (comp self)) self)).
    { unfold div. now rewrite Hl. }
    split; [|split].
    + intros _. split; [exact Hdiv|].
      rewrite Hdiv. now rewrite recalculate_comp.
    + intros Hn. contradiction.
    + intros s _. exact Hall.
  - destruct Hstop as (done & kv & rest & Hc & Hall & Hkv & Hl).
    assert (Hdiv : div md x self
                   = (Raise ValueError,
                      set_comp (scale_counts x done ++ kv :: rest) self)).
    { unfold div. now rewrite Hl. }
    assert (Hnot : ~ all_divisible x (comp self)).
    { intros Hc'. apply Hkv. apply Hc'. rewrite Hc.
      apply in_or_app. right. now left. }
    split; [|split].
    + intros Hc'. contradiction.
    + intros _. now exists done, kv, rest.
    + intros s Hs. rewrite Hdiv in Hs. discriminate.
Qed.

Lemma div_by_zero
    (md : Dict.t string isotopes_t) (self : molecule) :
  counts_below (2 ^ 53) (comp self) ->
  comp self <> [] -> div md 0 self = (Raise ZeroDivisionError, self).
Proof.
  intros Hcb Hne. unfold div.
  destruct (comp self) as [|[k v] rest] eqn:Ec; [contradiction|].
  cbn [Dict.keys map fst div_loop Dict.get]. rewrite keqb_refl.
  rewrite (quotient_zero v (Hcb (k, v) (or_introl eq_refl))).
  rewrite <- Ec. now destruct self.
Qed.

(** C7 (amended): for every Molecule whose counts are below 2^53 in
    absolute value and every int k other than 0 and below 2^53 in absolute
    value, the division loop runs to its end if and only if every element
    count in C is evenly divisible by k, and then the composition that is
    recalculated has every count at exactly its previous value divided by
    k; otherwise [ValueError] is raised at the first key, in the order of
    the dictionary, whose count is not divisible by k: the keys visited
    before it have been divided and stay divided, that key and the keys
    after it keep their counts, and nothing is recalculated.  Division by 0
    of a non-empty composition raises [ZeroDivisionError] and leaves the
    instance as it was.  (The test of the code is on the quotient of two
    doubles, which is the exact quotient within these bounds.) *)
Theorem div_outcome
    (md : Dict.t string isotopes_t) (x : Z) (self : molecule) :
  NoDup (Dict.keys (comp self)) ->
  counts_below (2 ^ 53) (comp self) ->
  Z.abs x < 2 ^ 53 ->
  (x = 0 -> comp self <> [] ->
   div md x self = (Raise ZeroDivisionError, self)) /\
  (x <> 0 ->
   (all_divisible x (comp self) ->
    div md x self
    = recalculate md (set_comp (scale_counts x (comp self)) self)
    /\ comp (snd (div md x self)) = scale_counts x (comp self)) /\
   (~ all_divisible x (comp self) ->
    exists done kv rest,
      comp self = done ++ kv :: rest /\
      all_divisible x done /\ snd kv mod x <> 0 /\
      div md x self
      = (Raise ValueError,
         set_comp (scale_counts x done ++ kv :: rest) self)) /\
   (forall s, fst (div md x self) = Ok s -> all_divisible x (comp self))).
Proof.
  intros Hnd Hcb Hxb. split.
  - intros -> Hne. now apply div_by_zero.
  - intros Hx. now apply div_nonzero_cases.
Qed.

Lemma div_outcome_witness :
  exists done kv rest,
    comp water = done ++ kv :: rest /\
    all_divisible 2 done /\ snd kv mod 2 <> 0 /\
    div example_md 2 water
    = (Raise ValueError, set_comp (scale_counts 2 done ++ kv :: rest) water).
Proof.
  refine (proj1 (proj2 (proj2 (div_outcome example_md 2 water _ _ _) _)) _).
  - repeat constructor; simpl; intuition discriminate.
  - intros kv [<-|[<-|[]]]; reflexivity.
  - reflexivity.
  - discriminate.
  - intros H. specialize (H ("O", 1) (or_intror (or_introl eq_refl))).
    discriminate H.
Defined.

(** Beyond 2^53 the test of [__div__] is no longer a test of divisibility:
    the odd count 2^53 + 1 is converted to the double 2^53 and halved to
    2^52 without an error, and the count 3 * (2^53 + 1) divided by
    2^53 + 1 gives a quotient that is rounded away from 3 and raises
    [ValueError]. *)
Lemma div_loop_rounds_large_counts :
  div_loop 2 ["C"] [("C", 2 ^ 53 + 1)] = ([("C", 2 ^ 52)], None) /\
  (2 ^ 53 + 1) mod 2 <> 0 /\
  div_loop (2 ^ 53 + 1) ["C"] [("C", 3 * (2 ^ 53 + 1))]
  = ([("C", 3 * (2 ^ 53 + 1))], Some ValueError) /\
  (3 * (2 ^ 53 + 1)) mod (2 ^ 53 + 1) = 0.
Proof. repeat split; try reflexivity. discriminate. Qed.

(** ** Decimal numerals *)

Lemma ord_digit_char (k : Z) :
  0 <= k <= 9 -> Py.ord (Py.digit_char k) = Z.to_N (48 + k).
Proof.
  intros Hk. unfold Py.ord, Py.digit_char.
  apply N_ascii_embedding. lia.
Qed.

Lemma isdigit_digit_char (k : Z) :
  0 <= k <= 9 -> Py.isdigit (Py.digit_char k) = true.
Proof.
  intros Hk. unfold Py.isdigit. rewrite ord_digit_char by exact Hk.
  apply andb_true_iff. split; apply N.leb_le; lia.
Qed.

Lemma digit_val_digit_char (k : Z) :
  0 <= k <= 9 -> Py.digit_val (Py.digit_char k) = k.
Proof.
  intros Hk. unfold Py.digit_val. rewrite ord_digit_char by exact Hk. lia.
Qed.

Lemma all_app (p : ascii -> bool) (x y : string) :
  Py.all p (x ++ y)%string = Py.all p x && Py.all p y.
Proof.
  induction x as [|c x IH]; simpl; [reflexivity|].
  now rewrite IH, andb_assoc.
Qed.

Lemma int_digits_app (x y : string) (a : Z) :
  Py.int_digits a (x ++ y)%string = Py.int_digits (Py.int_digits a x) y.
Proof. revert a. induction x as [|c x IH]; intros a; simpl; auto. Qed.

Lemma string_app_assoc (x y z : string) :
  ((x ++ y) ++ z = x ++ (y ++ z))%string.
Proof. induction x as [|c x IH]; simpl; [reflexivity | now rewrite IH]. Qed.

Lemma string_app_nil_r (x : string) : (x ++ "")%string = x.
Proof. induction x as [|c x IH]; simpl; [reflexivity | now rewrite IH]. Qed.

Lemma str_digits_step (f : nat) (n : Z) (acc : string) :
  Py.str_digits (S f) n acc
  = if n <? 10 then String (Py.digit_char (n mod 10)) acc
    else Py.str_digits f (n / 10) (String (Py.digit_char (n mod 10)) acc).
Proof. reflexivity. Qed.

(** The digits that [str_digits] writes in front of [acc]. *)
Lemma str_digits_spec (f : nat) :
  forall (n : Z) (acc : string),
    0 <= n < 2 ^ Z.of_nat (S f) ->
    exists d,
      Py.str_digits (S f) n acc = (d ++ acc)%string /\
      d <> EmptyString /\ Py.all Py.isdigit d = true /\
      forall a, Py.int_digits a d = a * 10 ^ Z.of_nat (String.length d) + n.
Proof.
  induction f as [|f IH]; intros n acc Hn.
  - assert (Hlt : n < 10) by (change (2 ^ Z.of_nat 1) with 2 in Hn; lia).
    rewrite str_digits_step. apply Z.ltb_lt in Hlt as Hb. rewrite Hb.
    exists (String (Py.digit_char (n mod 10)) EmptyString).
    rewrite Z.mod_small by lia.
    split; [reflexivity|]. split; [discriminate|]. split.
    + simpl. rewrite isdigit_digit_char by lia. reflexivity.
    + intros a. cbn [Py.int_digits String.length].
      rewrite digit_val_digit_char by lia.
      change (10 ^ Z.of_nat 1) with 10. lia.
  - rewrite str_digits_step.
    assert (Hm : 0 <= n mod 10 <= 9) by (pose proof (Z.mod_pos_bound n 10); lia).
    destruct (n <? 10) eqn:Hb.
    + apply Z.ltb_lt in Hb.
      exists (String (Py.digit_char (n mod 10)) EmptyString).
      split; [reflexivity|]. split; [discriminate|]. split.
      * simpl. rewrite isdigit_digit_char by lia. reflexivity.
      * intros a. cbn [Py.int_digits String.length].
        rewrite digit_val_digit_char by lia.
        rewrite Z.mod_small by lia.
        change (10 ^ Z.of_nat 1) with 10. lia.
    + apply Z.ltb_ge in Hb.
      destruct (IH (n / 10)
                  (String (Py.digit_char (n mod 10)) acc))
        as (d & Hd & Hne & Hall & Hint).
      { split; [apply Z.div_pos; lia|].
        apply Z.div_lt_upper_bound; [lia|].
        rewrite Nat2Z.inj_succ, Z.pow_succ_r in Hn by lia.
        lia. }
      exists (d ++ String (Py.digit_char (n mod 10)) EmptyString)%string.
      split; [|split; [|split]].
      * rewrite Hd. now rewrite string_app_assoc.
      * destruct d; [contradiction | discriminate].
      * rewrite all_app, Hall. simpl.
        rewrite isdigit_digit_char by lia. reflexivity.
      * intros a. rewrite int_digits_app, Hint. cbn [Py.int_digits].
        rewrite digit_val_digit_char by lia.
        rewrite append_length. cbn [String.length].
        rewrite Nat2Z.inj_add. change (Z.of_nat 1) with 1.
        rewrite Z.pow_add_r by lia. change (10 ^ 1) with 10.
        pose proof (Z.div_mod n 10). lia.
Qed.

Lemma str_spec (n : Z) :
  0 <= n ->
  Py.str n <> EmptyString /\ Py.all Py.isdigit (Py.str n) = true /\
  Py.int_digits 0 (Py.str n) = n.
Proof.
  intros Hn. unfold Py.str.
  destruct (n <? 0) eqn:E; [apply Z.ltb_lt in E; lia|].
  destruct (str_digits_spec (Z.to_nat (Z.log2 n)) n EmptyString)
    as (d & Hd & Hne & Hall & Hint).
  { split; [exact Hn|].
    rewrite Nat2Z.inj_succ, Z2Nat.id by apply Z.log2_nonneg.
    destruct (Z.eq_dec n 0) as [->|Hnz]; [reflexivity|].
    apply Z.log2_spec. lia. }
  rewrite Hd, string_app_nil_r.
  split; [exact Hne|]. split; [exact Hall|].
  rewrite Hint. lia.
Qed.

Lemma isdigit_not_isspace (c : ascii) :
  Py.isdigit c = true -> Py.isspace c = false.
Proof.
  unfold Py.isdigit, Py.isspace. intros H.
  apply andb_true_iff in H as [H1 H2]. apply N.leb_le in H1, H2.
  apply orb_false_iff. split; [apply N.eqb_neq; lia|].
  apply andb_false_iff. right. apply N.leb_gt. lia.
Qed.

Lemma isdigit_not_sign (c : ascii) :
  Py.isdigit c = true -> Ascii.eqb c "-" = false /\ Ascii.eqb c "+" = false.
Proof.
  intros H.
  split; apply Ascii.eqb_neq; intros ->; vm_compute in H; discriminate.
Qed.

Lemma rstrip_digits (s : string) :
  Py.all Py.isdigit s = true -> Py.rstrip s = s.
Proof.
  induction s as [|c r IH]; simpl; [reflexivity|].
  intros H. apply andb_true_iff in H as [Hc Hr].
  rewrite (IH Hr). destruct r; [|reflexivity].
  now rewrite (isdigit_not_isspace c Hc).
Qed.

Lemma strip_digits (s : string) :
  Py.all Py.isdigit s = true -> Py.strip s = s.
Proof.
  intros H. unfold Py.strip.
  replace (Py.lstrip s) with s; [now apply rstrip_digits|].
  destruct s as [|c r]; [reflexivity|]. simpl in *.
  apply andb_true_iff in H as [Hc _].
  now rewrite (isdigit_not_isspace c Hc).
Qed.

Lemma int_digit_string (s : string) :
  s <> EmptyString -> Py.all Py.isdigit s = true ->
  Py.int s = Ok (Py.int_digits 0 s).
Proof.
  intros Hne Hall. unfold Py.int. rewrite (strip_digits s Hall).
  destruct s as [|c r]; [contradiction|].
  pose proof Hall as Hall'. simpl in Hall'.
  apply andb_true_iff in Hall' as [Hc _].
  destruct (isdigit_not_sign c Hc) as [-> ->].
  unfold Py.int_unsigned. now rewrite Hall.
Qed.

(** [int(str(n)) == n] *)
Lemma int_str (n : Z) : 0 <= n -> Py.int (Py.str n) = Ok n.
Proof.
  intros Hn. destruct (str_spec n Hn) as (Hne & Hall & Hint).
  rewrite int_digit_string by assumption. now rewrite Hint.
Qed.

(** ** Characters of a token *)

Lemma in_sbrack_ord (c : ascii) :
  in_sbrack c = true ->
  (Py.ord c = 40 \/ Py.ord c = 123 \/ Py.ord c = 91)%N.
Proof.
  unfold in_sbrack, sbrack. simpl. intros H.
  repeat (apply orb_true_iff in H as [H|H]);
    try (apply Ascii.eqb_eq in H; subst c; vm_compute; tauto).
  discriminate.
Qed.

Lemma islower_in_block (c : ascii) :
  Py.islower c = true -> negb (Py.isupper c || in_sbrack c) = true.
Proof.
  unfold Py.islower. intros H. apply andb_true_iff in H as [H1 H2].
  apply N.leb_le in H1, H2. apply negb_true_iff, orb_false_iff. split.
  - unfold Py.isupper. apply andb_false_iff. right. apply N.leb_gt. lia.
  - destruct (in_sbrack c) eqn:E; [|reflexivity].
    apply in_sbrack_ord in E. lia.
Qed.

Lemma isdigit_in_block (c : ascii) :
  Py.isdigit c = true -> negb (Py.isupper c || in_sbrack c) = true.
Proof.
  intros H. apply negb_true_iff, orb_false_iff. split.
  - destruct (Py.isupper c) eqn:E; [|reflexivity].
    apply isupper_not_isdigit in E. congruence.
  - destruct (in_sbrack c) eqn:E; [|reflexivity].
    apply in_sbrack_not_isdigit in E. congruence.
Qed.

Lemma islower_not_isdigit (c : ascii) :
  Py.islower c = true -> Py.isdigit c = false.
Proof.
  unfold Py.islower, Py.isdigit. intros H.
  apply andb_true_iff in H as [H1 H2]. apply N.leb_le in H1.
  apply andb_false_iff. right. apply N.leb_gt. lia.
Qed.

Lemma all_impl (p q : ascii -> bool) (s : string) :
  (forall c, p c = true -> q c = true) ->
  Py.all p s = true -> Py.all q s = true.
Proof.
  intros Hpq. induction s as [|c r IH]; simpl; [reflexivity|].
  intros H. apply andb_true_iff in H as [Hc Hr].
  now rewrite (Hpq c Hc), (IH Hr).
Qed.

Lemma filter_app (p : ascii -> bool) (x y : string) :
  Py.filter p (x ++ y)%string = (Py.filter p x ++ Py.filter p y)%string.
Proof.
  induction x as [|c x IH]; simpl; [reflexivity|].
  destruct (p c); simpl; now rewrite IH.
Qed.

Lemma filter_all (p : ascii -> bool) (s : string) :
  Py.all p s = true -> Py.filter p s = s.
Proof.
  induction s as [|c r IH]; simpl; [reflexivity|].
  intros H. apply andb_true_iff in H as [Hc Hr].
  now rewrite Hc, (IH Hr).
Qed.

Lemma filter_none (p : ascii -> bool) (s : string) :
  Py.all (fun c => negb (p c)) s = true -> Py.filter p s = EmptyString.
Proof.
  induction s as [|c r IH]; simpl; [reflexivity|].
  intros H. apply andb_true_iff in H as [Hc Hr].
  apply negb_true_iff in Hc. now rewrite Hc, (IH Hr).
Qed.

Lemma span_all (p : ascii -> bool) (x y : string) :
  Py.all p x = true ->
  (forall c r, y = String c r -> p c = false) ->
  Py.span p (x ++ y)%string = (x, y).
Proof.
  intros Hx Hy. induction x as [|c x IH]; simpl in *.
  - destruct y as [|d r]; [reflexivity|]. simpl.
    now rewrite (Hy d r eq_refl).
  - apply andb_true_iff in Hx as [Hc Hx]. now rewrite Hc, (IH Hx).
Qed.

(** ** One token *)

Lemma count_suffix_digits (n : Z) : Py.all Py.isdigit (count_suffix n) = true.
Proof.
  unfold count_suffix. destruct (1 <? n) eqn:E; [|reflexivity].
  apply Z.ltb_lt in E. apply str_spec. lia.
Qed.

Lemma interpret_token (c : ascii) (lows : string) (n : Z) :
  Py.isupper c = true -> Py.all Py.islower lows = true -> 1 <= n ->
  interpret (String c (lows ++ count_suffix n))
  = Ok [(String c lows, n)].
Proof.
  intros Hc Hl Hn. unfold interpret.
  rewrite (isupper_not_isdigit c Hc).
  rewrite !filter_app.
  rewrite (filter_none Py.isdigit lows)
    by (apply all_impl with (p := Py.islower); [|exact Hl];
        intros x Hx; now rewrite (islower_not_isdigit x Hx)).
  rewrite (filter_all Py.isdigit (count_suffix n))
    by apply count_suffix_digits.
  rewrite (filter_all (fun x => negb (Py.isdigit x)) lows)
    by (apply all_impl with (p := Py.islower); [|exact Hl];
        intros x Hx; now rewrite (islower_not_isdigit x Hx)).
  rewrite (filter_none (fun x => negb (Py.isdigit x)) (count_suffix n))
    by (apply all_impl with (p := Py.isdigit);
        [|apply count_suffix_digits];
        intros x Hx; now rewrite Hx).
  rewrite string_app_nil_r. simpl.
  unfold count_suffix. destruct (1 <? n) eqn:E.
  - apply Z.ltb_lt in E.
    destruct (str_spec n) as (Hne & _ & _); [lia|].
    destruct (Py.str n) as [|d t] eqn:Es; [contradiction|].
    rewrite <- Es. rewrite int_str by lia. reflexivity.
  - apply Z.ltb_ge in E. replace n with 1 by lia. reflexivity.
Qed.

(** [chewformula] on a token followed by nothing or by an uppercase
    letter. *)
Lemma chew_token (f : nat) (key : string) (n : Z) (rest : string)
    (m : molecule) :
  element_symbol key = true -> 1 <= n ->
  (forall c r, rest = String c r -> Py.isupper c = true) ->
  chewformula (S f) (render key n ++ rest)%string m
  = (Ok (rest, [(key, n)]), m).
Proof.
  intros Hk Hn Hrest. destruct key as [|c lows]; [discriminate|].
  simpl in Hk. apply andb_true_iff in Hk as [Hc Hl].
  unfold render. fold (count_suffix n).
  change ((String c lows ++ count_suffix n) ++ rest)%string
    with (String c ((lows ++ count_suffix n) ++ rest)%string).
  cbn [chewformula]. rewrite Hc.
  rewrite (span_all (fun x => negb (Py.isupper x || in_sbrack x))
             (lows ++ count_suffix n)%string rest).
  - cbn [fst]. unfold bind, lift, ret.
    rewrite (interpret_token c lows n Hc Hl Hn).
    cbn [String.length Py.drop].
    rewrite <- (Nat.add_0_r (String.length (lows ++ count_suffix n))).
    now rewrite drop_app.
  - rewrite all_app. apply andb_true_iff. split.
    + apply all_impl with (p := Py.islower); [|exact Hl].
      apply islower_in_block.
    + apply all_impl with (p := Py.isdigit); [|apply count_suffix_digits].
      apply isdigit_in_block.
  - intros d r Hd. rewrite (Hrest d r Hd). reflexivity.
Qed.

(** ** Lookup in lists of distinct keys *)

Lemma get_In (k : string) (v : Z) (l : composition_t) :
  Dict.get k l = Some v -> In (k, v) l.
Proof.
  induction l as [|[a b] r IH]; simpl; [discriminate|].
  destruct (String.eqb_spec a k) as [->|Hne].
  - intros H. injection H as ->. now left.
  - intros H. right. now apply IH.
Qed.

Lemma In_get (k : string) (v : Z) (l : composition_t) :
  NoDup (Dict.keys l) -> In (k, v) l -> Dict.get k l = Some v.
Proof.
  unfold Dict.keys.
  induction l as [|[a b] r IH]; simpl; intros Hnd Hin; [contradiction|].
  inversion Hnd as [|? ? Hna Hnd']; subst.
  destruct Hin as [Heq|Hin].
  - injection Heq as -> ->. now rewrite String.eqb_refl.
  - destruct (String.eqb_spec a k) as [->|Hne]; [|now apply IH].
    exfalso. apply Hna. apply in_map_iff. now exists (k, v).
Qed.

Lemma get_None_keys (k : string) (l : composition_t) :
  Dict.get k l = None <-> ~ In k (Dict.keys l).
Proof.
  unfold Dict.keys. induction l as [|[a b] r IH]; simpl.
  - split; [intros _ [] | reflexivity].
  - destruct (String.eqb_spec a k) as [->|Hne].
    + split; [discriminate | intros H; exfalso; apply H; now left].
    + rewrite IH. tauto.
Qed.

Lemma get_Permutation (k : string) (l l' : composition_t) :
  Permutation l l' -> NoDup (Dict.keys l) -> Dict.get k l = Dict.get k l'.
Proof.
  intros Hp Hnd.
  assert (Hnd' : NoDup (Dict.keys l')).
  { unfold Dict.keys in *.
    apply (Permutation_NoDup (Permutation_map fst Hp) Hnd). }
  destruct (Dict.get k l) as [v|] eqn:E.
  - symmetry. apply In_get; [exact Hnd'|].
    apply (Permutation_in _ Hp). now apply get_In.
  - destruct (Dict.get k l') as [v|] eqn:E'; [|reflexivity].
    apply get_In in E'. apply (Permutation_in _ (Permutation_sym Hp)) in E'.
    apply In_get in E'; [congruence | exact Hnd].
Qed.

Lemma get_app (k : string) (x y : composition_t) :
  Dict.get k (x ++ y)
  = match Dict.get k x with Some v => Some v | None => Dict.get k y end.
Proof.
  induction x as [|[a b] r IH]; simpl; [reflexivity|].
  destruct (String.eqb a k); [reflexivity | exact IH].
Qed.

Lemma get_filter_keep (k : string) (p : string * Z -> bool)
    (l : composition_t) :
  (forall v, p (k, v) = true) ->
  Dict.get k (List.filter p l) = Dict.get k l.
Proof.
  intros Hp. induction l as [|[a b] r IH]; simpl; [reflexivity|].
  destruct (String.eqb_spec a k) as [->|Hne].
  - rewrite Hp. simpl. now rewrite String.eqb_refl.
  - destruct (p (a, b)); [|exact IH]. simpl.
    destruct (String.eqb_spec a k); [contradiction | exact IH].
Qed.

Lemma get_filter_drop (k : string) (p : string * Z -> bool)
    (l : composition_t) :
  (forall v, p (k, v) = false) ->
  Dict.get k (List.filter p l) = None.
Proof.
  intros Hp. induction l as [|[a b] r IH]; simpl; [reflexivity|].
  destruct (p (a, b)) eqn:E; [|exact IH]. simpl.
  destruct (String.eqb_spec a k) as [->|Hne]; [|exact IH].
  rewrite Hp in E. discriminate.
Qed.

Lemma NoDup_keys_filter (p : string * Z -> bool) (l : composition_t) :
  NoDup (Dict.keys l) -> NoDup (Dict.keys (List.filter p l)).
Proof.
  unfold Dict.keys. induction l as [|[a b] r IH]; simpl; intros Hnd;
    [constructor|].
  inversion Hnd as [|? ? Hna Hnd']; subst.
  destruct (p (a, b)); [|now apply IH]. simpl. constructor; [|now apply IH].
  intros Hc. apply Hna. apply in_map_iff in Hc as (kv & Hk & Hin).
  apply filter_In in Hin as [Hin _]. apply in_map_iff. now exists kv.
Qed.

(** ** The canonical order *)

Lemma insert_item_Permutation (x : string * Z) (l : list (string * Z)) :
  Permutation (x :: l) (insert_item x l).
Proof.
  induction l as [|y r IH]; simpl; [apply Permutation_refl|].
  destruct (item_leb x y); [apply Permutation_refl|].
  eapply Permutation_trans; [apply perm_swap|]. now apply perm_skip.
Qed.

Lemma sorted_items_Permutation (c : composition_t) :
  Permutation c (sorted_items c).
Proof.
  unfold sorted_items. induction c as [|x r IH]; simpl; [constructor|].
  eapply Permutation_trans; [|apply insert_item_Permutation].
  now apply perm_skip.
Qed.

Lemma item_of_get (k k' : string) (c : composition_t) :
  Dict.get k (item_of k' c)
  = if String.eqb k' k then Dict.get k' c else None.
Proof.
  unfold item_of. destruct (Dict.get k' c) as [n|]; simpl.
  - now destruct (String.eqb k' k).
  - now destruct (String.eqb k' k).
Qed.

Lemma hill_order_get (c : composition_t) (k : string) :
  NoDup (Dict.keys c) -> Dict.get k (hill_order c) = Dict.get k c.
Proof.
  intros Hnd. unfold hill_order. rewrite !get_app, !item_of_get.
  assert (Hs : forall k', Dict.get k' (sorted_items c) = Dict.get k' c).
  { intros k'. symmetry. apply get_Permutation; [|exact Hnd].
    apply sorted_items_Permutation. }
  destruct (String.eqb_spec "C" k) as [<-|HC].
  { destruct (Dict.get "C" c) as [n|]; [reflexivity|]. simpl.
    now apply get_filter_drop. }
  destruct (String.eqb_spec "H" k) as [<-|HH].
  { destruct (Dict.get "H" c) as [n|]; [reflexivity|].
    now apply get_filter_drop. }
  rewrite get_filter_keep; [apply Hs|].
  intros v. unfold not_C_or_H. simpl.
  destruct (String.eqb_spec k "C") as [->|_]; [contradiction|].
  destruct (String.eqb_spec k "H") as [->|_]; [contradiction|].
  reflexivity.
Qed.

Lemma hill_order_In (c : composition_t) (kv : string * Z) :
  In kv (hill_order c) -> In kv c.
Proof.
  unfold hill_order, item_of. intros H.
  apply in_app_or in H as [H|H]; [|apply in_app_or in H as [H|H]].
  - destruct (Dict.get "C" c) as [n|] eqn:E; [|contradiction].
    destruct H as [<-|[]]. now apply get_In.
  - destruct (Dict.get "H" c) as [n|] eqn:E; [|contradiction].
    destruct H as [<-|[]]. now apply get_In.
  - apply filter_In in H as [H _].
    now apply (Permutation_in _ (Permutation_sym (sorted_items_Permutation c))).
Qed.

Lemma hill_order_NoDup (c : composition_t) :
  NoDup (Dict.keys c) -> NoDup (Dict.keys (hill_order c)).
Proof.
  intros Hnd.
  assert (Hf : NoDup (Dict.keys (List.filter not_C_or_H (sorted_items c)))).
  { apply NoDup_keys_filter. unfold Dict.keys in *.
    apply (Permutation_NoDup
             (Permutation_map fst (sorted_items_Permutation c)) Hnd). }
  assert (Hk : forall k, In k (Dict.keys
                                 (List.filter not_C_or_H (sorted_items c))) ->
                         k <> "C" /\ k <> "H").
  { intros k Hin. unfold Dict.keys in Hin.
    apply in_map_iff in Hin as (kv & <- & Hin).
    apply filter_In in Hin as [_ Hp]. unfold not_C_or_H in Hp.
    apply andb_true_iff in Hp as [H1 H2].
    apply negb_true_iff in H1, H2.
    split; intros Heq; rewrite Heq in *; discriminate. }
  unfold hill_order, Dict.keys in *. rewrite !map_app.
  apply NoDup_app; [|apply NoDup_app|].
  - unfold item_of. destruct (Dict.get "C" c); simpl;
      repeat constructor. intros [].
  - unfold item_of. destruct (Dict.get "H" c); simpl;
      repeat constructor. intros [].
  - exact Hf.
  - intros k Hin. unfold item_of in Hin.
    destruct (Dict.get "H" c); [|contradiction].
    destruct Hin as [<-|[]]. intros Hc. now apply Hk in Hc as [_ Hc].
  - intros k Hin Hc. unfold item_of in Hin.
    destruct (Dict.get "C" c); [|contradiction].
    destruct Hin as [<-|[]].
    apply in_app_or in Hc as [Hc|Hc].
    + unfold item_of in Hc. destruct (Dict.get "H" c); [|contradiction].
      destruct Hc as [Hc|[]]. discriminate.
    + now apply Hk in Hc as [Hc _].
Qed.

(** ** The canonical formula is the tokens in canonical order *)

Lemma tokens_app (x y : list (string * Z)) :
  tokens (x ++ y) = (tokens x ++ tokens y)%string.
Proof.
  induction x as [|kv x IH]; simpl; [reflexivity|].
  now rewrite IH, string_app_assoc.
Qed.

Lemma tokens_item_of (k : string) (c : composition_t) (out : string) :
  match Dict.get k c with
  | Some n => (out ++ render k n)%string
  | None => out
  end = (out ++ tokens (item_of k c))%string.
Proof.
  unfold item_of. destruct (Dict.get k c) as [n|]; simpl.
  - now rewrite string_app_nil_r.
  - now rewrite string_app_nil_r.
Qed.

Lemma write_others (l : list (string * Z)) (out : string) :
  fold_left
    (fun out kv =>
       if negb (String.eqb (fst kv) "C") && negb (String.eqb (fst kv) "H")
       then (out ++ render (fst kv) (snd kv))%string
       else out)
    l out
  = (out ++ tokens (List.filter not_C_or_H l))%string.
Proof.
  revert out. induction l as [|kv r IH]; intros out; simpl.
  - now rewrite string_app_nil_r.
  - rewrite IH. unfold not_C_or_H at 2.
    destruct (negb (String.eqb (fst kv) "C")
              && negb (String.eqb (fst kv) "H")); [|reflexivity].
    simpl. now rewrite string_app_assoc.
Qed.

Lemma molecularformula_tokens (c : composition_t) :
  molecularformula c = tokens (hill_order c).
Proof.
  unfold molecularformula, hill_order.
  rewrite write_others, !tokens_item_of, !tokens_app.
  simpl. now rewrite string_app_assoc.
Qed.

(** ** Parsing the tokens *)

Lemma tokens_head (l : list (string * Z)) :
  (forall kv, In kv l -> element_symbol (fst kv) = true) ->
  forall c r, tokens l = String c r -> Py.isupper c = true.
Proof.
  destruct l as [|[k n] l]; intros Hall c r; simpl; [discriminate|].
  specialize (Hall (k, n) (or_introl eq_refl)). simpl in Hall.
  destruct k as [|d lows]; [discriminate|]. simpl in Hall.
  apply andb_true_iff in Hall as [Hd _].
  unfold render. simpl. intros H. now injection H as <- _.
Qed.

Lemma tokens_length (l : list (string * Z)) :
  (forall kv, In kv l -> element_symbol (fst kv) = true) ->
  (List.length l <= String.length (tokens l))%nat.
Proof.
  induction l as [|[k n] l IH]; intros Hall; simpl; [lia|].
  pose proof (Hall (k, n) (or_introl eq_refl)) as Hk. simpl in Hk.
  destruct k as [|d lows]; [discriminate|].
  unfold render. simpl. rewrite !append_length.
  specialize (IH (fun kv H => Hall kv (or_intror H))). lia.
Qed.

Lemma chew_tokens (f : nat) (l : list (string * Z)) :
  (forall kv, In kv l -> element_symbol (fst kv) = true /\ 1 <= snd kv) ->
  forall (n : nat) (acc : composition_t) (m : molecule),
    (List.length l <= n)%nat ->
    chew_loop (chewformula (S f)) merge n (tokens l) acc m
    = (Ok (fold_left (fun d kv => accumulate (fst kv) (snd kv) d) l acc), m).
Proof.
  induction l as [|[k v] l IH]; intros Hall n acc m Hn.
  - now destruct n.
  - destruct (Hall (k, v) (or_introl eq_refl)) as [Hk Hv]. simpl in Hk, Hv.
    destruct n as [|n]; [simpl in Hn; lia|].
    assert (Hchew : chewformula (S f) (tokens ((k, v) :: l)) m
                    = (Ok (tokens l, [(k, v)]), m)).
    { simpl tokens. apply chew_token; [exact Hk | exact Hv|].
      apply tokens_head. intros kv Hin. apply Hall. now right. }
    destruct (tokens ((k, v) :: l)) as [|c r] eqn:Et.
    { destruct k as [|d lows]; [discriminate|]. discriminate Et. }
    cbn [chew_loop]. unfold bind. rewrite Hchew. cbn [fst snd].
    rewrite IH; [reflexivity | | simpl in Hn; lia].
    intros kv Hin. apply Hall. now right.
Qed.

Lemma accumulate_fresh (k : string) (v : Z) (acc : composition_t) :
  ~ In k (Dict.keys acc) -> accumulate k v acc = acc ++ [(k, v)].
Proof.
  intros Hn. unfold accumulate.
  rewrite (proj2 (get_None_keys k acc) Hn).
  rewrite <- (app_nil_r acc) at 1.
  now rewrite (put_app_fresh k v acc [] Hn).
Qed.

Lemma accumulate_all_fresh (l : composition_t) :
  forall acc : composition_t,
    NoDup (Dict.keys (acc ++ l)) ->
    fold_left (fun d kv => accumulate (fst kv) (snd kv) d) l acc = acc ++ l.
Proof.
  induction l as [|[k v] l IH]; intros acc Hnd; simpl.
  - now rewrite app_nil_r.
  - assert (Hfresh : ~ In k (Dict.keys acc)).
    { unfold Dict.keys in *. rewrite map_app in Hnd.
      apply NoDup_remove_2 in Hnd. intros Hc. apply Hnd.
      apply in_or_app. now left. }
    rewrite (accumulate_fresh k v acc Hfresh).
    rewrite IH; rewrite <- app_assoc; [reflexivity | exact Hnd].
Qed.

Lemma abbreviations_plain_all (abbrvs : Dict.t string composition_t)
    (l : composition_t) :
  NoDup (Dict.keys l) ->
  (forall kv, In kv l -> Dict.get (fst kv) abbrvs = None) ->
  abbreviations abbrvs l = l.
Proof.
  intros Hnd Hab. unfold abbreviations.
  rewrite <- (accumulate_all_fresh l []) at 2 by exact Hnd.
  generalize (@nil (string * Z)) as acc.
  induction l as [|[k v] l IH]; intros acc; [reflexivity|].
  rewrite abbreviations_plain
    by (apply (Hab (k, v)); now left).
  simpl. apply IH.
  - unfold Dict.keys in *. simpl in Hnd. now inversion Hnd.
  - intros kv Hin. apply Hab. now right.
Qed.

(** C5 (as stated, refuted): the canonical formula of {13C: 2} is "13C2",
    which parses to {13C2: 1}; the canonical formula of {H: 2, 18O: 1} is
    "H218O", which parses to {H: 218, O: 1}. *)
Lemma isotope_formula_does_not_round_trip :
  (molecularformula [("13C", 2)] = "13C2" /\
   fst (composition example_abbrvs "13C2" water) = Ok [("13C2", 1)]) /\
  (molecularformula [("H", 2); ("18O", 1)] = "H218O" /\
   fst (composition example_abbrvs "H218O" water)
   = Ok [("H", 218); ("O", 1)]).
Proof. repeat split. Qed.

(** C5 (amended): for every composition whose keys are distinct element
    symbols (an uppercase letter followed by lowercase letters), none of
    them an abbreviation, with counts of at least 1, parsing the canonical
    formula string generated for it succeeds, leaves the instance as it was
    and reproduces an equivalent composition: the same keys, each with the
    same count. *)
Theorem plain_formula_round_trip
    (abbrvs : Dict.t string composition_t) (c : composition_t)
    (m : molecule) :
  plain_composition abbrvs c ->
  exists c',
    composition abbrvs (molecularformula c) m = (Ok c', m) /\
    forall k, Dict.get k c' = Dict.get k c.
Proof.
  intros [Hnd Hall]. exists (hill_order c).
  split; [|intros k; now apply hill_order_get].
  assert (Hh : forall kv, In kv (hill_order c) ->
                          element_symbol (fst kv) = true /\ 1 <= snd kv).
  { intros kv Hin. apply hill_order_In in Hin.
    destruct (Hall kv Hin) as (H1 & H2 & _). now split. }
  rewrite molecularformula_tokens. unfold composition, bind, ret.
  destruct (hill_order c) as [|kv l] eqn:Eh.
  { reflexivity. }
  rewrite <- Eh in *.
  assert (Hlen : (List.length (hill_order c)
                  <= String.length (tokens (hill_order c)))%nat).
  { apply tokens_length. intros x Hx. now apply Hh. }
  destruct (String.length (tokens (hill_order c))) as [|f] eqn:Ef.
  { rewrite Eh in Hlen. simpl in Hlen. lia. }
  rewrite (chew_tokens f (hill_order c) Hh (S f) [] m Hlen).
  rewrite accumulate_all_fresh by (now apply hill_order_NoDup).
  simpl app. rewrite abbreviations_plain_all; [reflexivity | |].
  - now apply hill_order_NoDup.
  - intros x Hx. apply hill_order_In in Hx. now apply Hall.
Qed.

Lemma plain_formula_round_trip_witness :
  exists c',
    composition example_abbrvs
      (molecularformula [("Na", 2); ("C", 1); ("O", 3)]) water
    = (Ok c', water) /\
    forall k, Dict.get k c' = Dict.get k [("Na", 2); ("C", 1); ("O", 3)].
Proof.
  apply (plain_formula_round_trip example_abbrvs
           [("Na", 2); ("C", 1); ("O", 3)] water).
  split.
  - repeat constructor; simpl; intuition discriminate.
  - intros kv [<-|[<-|[<-|[]]]]; repeat split; discriminate.
Defined.

(** * Further properties *)

(** ** Charge strings *)

Lemma charge_scan_value (s value : string) (sg : ascii) :
  Py.all not_mode value = true ->
  Py.all not_mode (fst (charge_scan s value sg)) = true.
Proof.
  revert value sg. induction s as [|c r IH]; intros value sg Hv; simpl;
    [exact Hv|].
  destruct (is_mode c) eqn:E; [now apply IH|].
  apply IH. rewrite all_app, Hv. simpl. unfold not_mode. now rewrite E.
Qed.

Lemma charge_scan_mode (s value : string) (sg : ascii) :
  sg = "+"%char \/ sg = "-"%char ->
  snd (charge_scan s value sg) = "+"%char \/
  snd (charge_scan s value sg) = "-"%char.
Proof.
  revert value sg. induction s as [|c r IH]; intros value sg Hs; simpl;
    [exact Hs|].
  destruct (is_mode c) eqn:E; [|now apply IH].
  apply IH. unfold is_mode in E. apply orb_true_iff in E as [E|E];
    apply Ascii.eqb_eq in E; subst c; tauto.
Qed.

Lemma lstrip_all (p : ascii -> bool) (s : string) :
  Py.all p s = true -> Py.all p (Py.lstrip s) = true.
Proof.
  induction s as [|c r IH]; simpl; [reflexivity|].
  intros H. destruct (Py.isspace c); [|exact H].
  apply andb_true_iff in H as [_ H]. now apply IH.
Qed.

Lemma rstrip_all (p : ascii -> bool) (s : string) :
  Py.all p s = true -> Py.all p (Py.rstrip s) = true.
Proof.
  induction s as [|c r IH]; simpl; [reflexivity|].
  intros H. apply andb_true_iff in H as [Hc Hr]. specialize (IH Hr).
  destruct (Py.rstrip r) as [|d t].
  - destruct (Py.isspace c); [reflexivity|]. simpl. now rewrite Hc.
  - simpl in *. now rewrite Hc.
Qed.

Lemma isdigit_digit_val (c : ascii) :
  Py.isdigit c = true -> 0 <= Py.digit_val c <= 9.
Proof.
  unfold Py.isdigit, Py.digit_val. intros H.
  apply andb_true_iff in H as [H1 H2]. apply N.leb_le in H1, H2. lia.
Qed.

Lemma int_digits_nonneg (s : string) :
  forall a, Py.all Py.isdigit s = true -> 0 <= a -> 0 <= Py.int_digits a s.
Proof.
  induction s as [|c r IH]; intros a H Ha; cbn [Py.int_digits]; [exact Ha|].
  simpl in H. apply andb_true_iff in H as [Hc Hr].
  apply IH; [exact Hr|]. pose proof (isdigit_digit_val c Hc). lia.
Qed.

Lemma int_unsigned_nonneg (s : string) (v : Z) :
  Py.int_unsigned s = Ok v -> 0 <= v.
Proof.
  unfold Py.int_unsigned. destruct s as [|c r]; [discriminate|].
  destruct (Py.all Py.isdigit (String c r)) eqn:E; [|discriminate].
  intros H. injection H as <-.
  exact (int_digits_nonneg (String c r) 0 E (Z.le_refl 0)).
Qed.

Lemma int_unsigned_string (s : string) (v : Z) :
  Py.all not_mode s = true -> Py.int s = Ok v -> 0 <= v.
Proof.
  intros Hs. unfold Py.int, Py.strip.
  pose proof (rstrip_all not_mode _ (lstrip_all not_mode s Hs)) as Ht.
  destruct (Py.rstrip (Py.lstrip s)) as [|c r]; [discriminate|].
  simpl in Ht. apply andb_true_iff in Ht as [Hc _].
  unfold not_mode, is_mode in Hc. apply negb_true_iff in Hc.
  apply orb_false_iff in Hc as [Hplus Hminus].
  rewrite Hplus, Hminus. apply int_unsigned_nonneg.
Qed.

(** X1: for a string argument, [interpretcharge] never returns a negative
    magnitude, and the sign it returns is '+' or '-'. *)
Theorem interpretcharge_string_magnitude (s : string) (v : Z) (sg : ascii) :
  interpretcharge (ChargeStr s) = Ok (v, sg) ->
  0 <= v /\ (sg = "+"%char \/ sg = "-"%char).
Proof.
  unfold interpretcharge.
  pose proof (charge_scan_value s EmptyString "+"%char eq_refl) as Hv.
  pose proof (charge_scan_mode s EmptyString "+"%char (or_introl eq_refl))
    as Hm.
  destruct (charge_scan s EmptyString "+") as [value sg'].
  simpl in Hv, Hm.
  destruct (Py.int value) as [n| | |] eqn:E; simpl; try discriminate.
  intros H. injection H as <- <-. split; [|exact Hm].
  now apply int_unsigned_string with (s := value).
Qed.

Lemma interpretcharge_string_magnitude_witness :
  0 <= 2 /\ ("-"%char = "+"%char \/ "-"%char = "-"%char).
Proof.
  apply (interpretcharge_string_magnitude "-2" 2 "-"%char). reflexivity.
Defined.

(** ** Isotope designators *)

Lemma isalpha_not_isdigit (c : ascii) :
  Py.isalpha c = true -> Py.isdigit c = false.
Proof.
  unfold Py.isalpha. intros H. apply orb_true_iff in H as [H|H].
  - now apply isupper_not_isdigit.
  - now apply islower_not_isdigit.
Qed.

Lemma isdigit_not_isalpha (c : ascii) :
  Py.isdigit c = true -> Py.isalpha c = false.
Proof.
  intros H. destruct (Py.isalpha c) eqn:E; [|reflexivity].
  apply isalpha_not_isdigit in E. congruence.
Qed.

Lemma isotope_scan_letters (l : string) :
  forall iso ele,
    Py.all Py.isalpha l = true ->
    isotope_scan l iso ele = Ok ((ele ++ l)%string, iso).
Proof.
  induction l as [|c r IH]; intros iso ele H; simpl.
  - now rewrite string_app_nil_r.
  - simpl in H. apply andb_true_iff in H as [Hc Hr].
    rewrite (isalpha_not_isdigit c Hc), Hc, (IH _ _ Hr).
    now rewrite string_app_assoc.
Qed.

Lemma isotope_scan_digits (ds : string) :
  forall (a : ascii) (l iso ele : string),
    Py.all Py.isdigit ds = true ->
    Py.isalpha a = true -> Py.all Py.isalpha l = true ->
    isotope_scan (ds ++ String a l) iso ele
    = Ok ((ele ++ String a l)%string, (iso ++ ds)%string).
Proof.
  induction ds as [|d ds IH]; intros a l iso ele Hd Ha Hl.
  - rewrite string_app_nil_r.
    apply (isotope_scan_letters (String a l)). simpl. now rewrite Ha, Hl.
  - simpl in Hd. apply andb_true_iff in Hd as [Hd Hds].
    change ((String d ds ++ String a l)%string)
      with (String d (ds ++ String a l)%string).
    cbn [isotope_scan]. rewrite Hd.
    destruct ds as [|d' ds'].
    + cbn [append]. rewrite Ha.
      rewrite (isotope_scan_letters l _ _ Hl).
      now rewrite string_app_assoc.
    + change ((String d' ds' ++ String a l)%string)
        with (String d' (ds' ++ String a l)%string).
      assert (Hd' : Py.isdigit d' = true).
      { simpl in Hds. now apply andb_true_iff in Hds as [H _]. }
      cbv iota. rewrite (isdigit_not_isalpha d' Hd').
      change (String d' (ds' ++ String a l)%string)
        with ((String d' ds' ++ String a l)%string).
      rewrite (IH a l _ ele Hds Ha Hl).
      now rewrite string_app_assoc.
Qed.

(** X2: [isotope] reads a designator back: for a mass number [n >= 0] and
    a non-empty symbol of letters, [isotope(str(n) + symbol)] returns
    [(symbol, n)]. *)
Theorem isotope_of_designator (n : Z) (a : ascii) (l : string) :
  0 <= n -> Py.isalpha a = true -> Py.all Py.isalpha l = true ->
  isotope (Py.str n ++ String a l)%string = Ok (String a l, n).
Proof.
  intros Hn Ha Hl. destruct (str_spec n Hn) as (Hne & Hall & Hint).
  pose proof (int_str n Hn) as Hint'.
  destruct (Py.str n) as [|d ds] eqn:Es; [contradiction|].
  change ((String d ds ++ String a l)%string)
    with (String d (ds ++ String a l)%string).
  unfold isotope.
  simpl in Hall. apply andb_true_iff in Hall as [Hd Hds].
  rewrite (isotope_scan_digits ds a l _ _ Hds Ha Hl). simpl.
  now rewrite Hint'.
Qed.

Lemma isotope_of_designator_witness :
  isotope (Py.str 13 ++ "C")%string = Ok ("C", 13).
Proof.
  apply (isotope_of_designator 13 "C"%char EmptyString);
    [lia | reflexivity | reflexivity].
Defined.

Lemma isotope_scan_loops (l : string) :
  forall (x : ascii) (rest iso ele : string),
    Py.all Py.isalpha l = true ->
    Py.isdigit x = false -> Py.isalpha x = false ->
    isotope_scan (l ++ String x rest) iso ele = Loops.
Proof.
  induction l as [|c r IH]; intros x rest iso ele Hl Hd Ha; simpl.
  - now rewrite Hd, Ha.
  - simpl in Hl. apply andb_true_iff in Hl as [Hc Hr].
    rewrite (isalpha_not_isdigit c Hc), Hc. now apply IH.
Qed.

Lemma isupper_isalpha (c : ascii) : Py.isupper c = true -> Py.isalpha c = true.
Proof. unfold Py.isalpha. now intros ->. Qed.

Lemma islower_isalpha (c : ascii) : Py.islower c = true -> Py.isalpha c = true.
Proof. unfold Py.isalpha. intros ->. apply orb_true_r. Qed.

Lemma isupper_not_isspace (c : ascii) :
  Py.isupper c = true -> Py.isspace c = false.
Proof.
  unfold Py.isupper, Py.isspace. intros H.
  apply andb_true_iff in H as [H1 H2]. apply N.leb_le in H1, H2.
  apply orb_false_iff. split; [apply N.eqb_neq; lia|].
  apply andb_false_iff. right. apply N.leb_gt. lia.
Qed.

Lemma int_of_letter (c : ascii) :
  Py.isupper c = true -> Py.int (String c EmptyString) = Raise ValueError.
Proof.
  intros Hc. unfold Py.int, Py.strip. simpl.
  rewrite (isupper_not_isspace c Hc). simpl.
  rewrite (isupper_not_isspace c Hc).
  assert (Hm : Ascii.eqb c "-" = false /\ Ascii.eqb c "+" = false).
  { split; apply Ascii.eqb_neq; intros ->; vm_compute in Hc; discriminate. }
  destruct Hm as [-> ->]. unfold Py.int_unsigned. simpl.
  now rewrite (isupper_not_isdigit c Hc).
Qed.

(** [isotope] on an element symbol: the first letter is taken for the mass
    number. *)
Lemma isotope_of_symbol (el : string) :
  element_symbol el = true -> isotope el = Raise ValueError.
Proof.
  destruct el as [|c lows]; [discriminate|]. simpl.
  intros H. apply andb_true_iff in H as [Hc Hl].
  unfold isotope. rewrite isotope_scan_letters.
  - simpl. now rewrite (int_of_letter c Hc).
  - apply all_impl with (p := Py.islower); [apply islower_isalpha | exact Hl].
Qed.

(** ** The constructor on formulas of plain tokens *)

Lemma composition_tokens
    (abbrvs : Dict.t string composition_t) (l : composition_t)
    (m : molecule) :
  plain_composition abbrvs l ->
  composition abbrvs (tokens l) m = (Ok l, m).
Proof.
  intros [Hnd Hall].
  assert (Hh : forall kv, In kv l ->
                          element_symbol (fst kv) = true /\ 1 <= snd kv).
  { intros kv Hin. destruct (Hall kv Hin) as (H1 & H2 & _). now split. }
  unfold composition, bind, ret.
  destruct l as [|kv0 l0] eqn:El; [reflexivity|]. rewrite <- El in *.
  assert (Hlen : (List.length l <= String.length (tokens l))%nat).
  { apply tokens_length. intros x Hx. now apply Hh. }
  destruct (String.length (tokens l)) as [|f] eqn:Ef.
  { rewrite El in Hlen. simpl in Hlen. lia. }
  rewrite (chew_tokens f l Hh (S f) [] m Hlen).
  rewrite accumulate_all_fresh by exact Hnd.
  simpl app. rewrite abbreviations_plain_all; [reflexivity | exact Hnd|].
  intros x Hx. now apply Hall.
Qed.

Lemma checkinnist_unknown_symbol
    (md : Dict.t string isotopes_t) (l : composition_t) :
  (forall kv, In kv l -> element_symbol (fst kv) = true) ->
  (exists kv, In kv l /\ Dict.get (fst kv) md = None) ->
  checkinnist md l = Raise ValueError.
Proof.
  unfold checkinnist.
  induction l as [|kv l IH]; intros Hall (bad & Hin & Hbad);
    [contradiction|].
  cbn [foldM]. unfold Dict.has_key at 1.
  destruct (Dict.get (fst kv) md) as [isos|] eqn:E.
  - simpl. apply IH; [intros x Hx; apply Hall; now right|].
    destruct Hin as [->|Hin]; [congruence|]. now exists bad.
  - rewrite isotope_of_symbol by (apply Hall; now left). reflexivity.
Qed.

(** X3: the constructor rejects a formula of plain element tokens with
    [ValueError] when one of its elements is not in the mass dictionary; the
    composition has been stored by then. *)
Theorem init_unknown_element
    (md : Dict.t string isotopes_t) (abbrvs : Dict.t string composition_t)
    (l : composition_t) (kw : kwargs) (z : Z) :
  plain_composition abbrvs l ->
  kw_charge kw = ChargeInt z ->
  (exists kv, In kv l /\ Dict.get (fst kv) md = None) ->
  init md abbrvs (tokens l) kw
  = (Raise ValueError,
     set_comp l (set_charge z "+" (blank (tokens l) kw))).
Proof.
  intros Hplain Hkw Hbad. unfold init, bind, lift, modify.
  rewrite Hkw.
  change (interpretcharge (ChargeInt z)) with (Ok (z, "+"%char)).
  cbv iota beta. cbn [fst snd].
  rewrite (composition_tokens abbrvs l _ Hplain).
  rewrite checkinnist_unknown_symbol; [reflexivity | | exact Hbad].
  intros kv Hin. now apply Hplain.
Qed.

Lemma init_unknown_element_witness :
  init example_md example_abbrvs (tokens [("C", 1); ("Xx", 2)])
       default_kwargs
  = (Raise ValueError,
     set_comp [("C", 1); ("Xx", 2)]
       (set_charge 1 "+"
          (blank (tokens [("C", 1); ("Xx", 2)]) default_kwargs))).
Proof.
  apply (init_unknown_element example_md example_abbrvs
           [("C", 1); ("Xx", 2)] default_kwargs 1).
  - split.
    + repeat constructor; simpl; intuition discriminate.
    + intros kv [<-|[<-|[]]]; repeat split; discriminate.
  - reflexivity.
  - exists ("Xx", 2). split; [right; left; reflexivity | reflexivity].
Defined.

(** ** A stray character after an element *)

Lemma span_whole (p : ascii -> bool) (s : string) :
  Py.all p s = true -> Py.span p s = (s, EmptyString).
Proof.
  intros H. rewrite <- (string_app_nil_r s) at 1.
  apply span_all; [exact H | discriminate].
Qed.

Lemma drop_whole (s : string) : Py.drop (String.length s) s = EmptyString.
Proof. induction s as [|c r IH]; simpl; [reflexivity | exact IH]. Qed.

Lemma chew_stray (f : nat) (c : ascii) (lows : string) (x : ascii)
    (m : molecule) :
  Py.isupper c = true -> Py.all Py.islower lows = true ->
  Py.isdigit x = false -> Py.isalpha x = false -> in_sbrack x = false ->
  chewformula (S f) (String c (lows ++ String x EmptyString)) m
  = (Ok (EmptyString, [(String c (lows ++ String x EmptyString), 1)]), m).
Proof.
  intros Hc Hl Hd Ha Hs.
  assert (Hx : Py.isupper x = false).
  { unfold Py.isalpha in Ha. now apply orb_false_iff in Ha as [Ha _]. }
  cbn [chewformula]. rewrite Hc.
  rewrite span_whole.
  2:{ rewrite all_app. apply andb_true_iff. split.
      - apply all_impl with (p := Py.islower); [|exact Hl].
        apply islower_in_block.
      - simpl. now rewrite Hx, Hs. }
  cbn [fst]. unfold bind, lift, ret, interpret.
  rewrite (isupper_not_isdigit c Hc).
  rewrite !filter_app.
  rewrite (filter_none Py.isdigit lows)
    by (apply all_impl with (p := Py.islower); [|exact Hl];
        intros y Hy; now rewrite (islower_not_isdigit y Hy)).
  rewrite (filter_all (fun y => negb (Py.isdigit y)) lows)
    by (apply all_impl with (p := Py.islower); [|exact Hl];
        intros y Hy; now rewrite (islower_not_isdigit y Hy)).
  simpl Py.filter. rewrite Hd. simpl.
  now rewrite drop_whole.
Qed.

(** X4: a character that is neither a letter, a digit nor an opening
    bracket, written directly after an element symbol (as the ")" of "C)"),
    becomes part of the key; when the key is in neither table, [checkinnist]
    calls [isotope] on it, whose loop never passes that character: the
    constructor does not return. *)
Theorem init_hangs_on_stray_character
    (md : Dict.t string isotopes_t) (abbrvs : Dict.t string composition_t)
    (el : string) (x : ascii) (kw : kwargs) (z : Z) :
  element_symbol el = true ->
  Py.isdigit x = false -> Py.isalpha x = false -> in_sbrack x = false ->
  kw_charge kw = ChargeInt z ->
  Dict.get (el ++ String x EmptyString)%string md = None ->
  Dict.get (el ++ String x EmptyString)%string abbrvs = None ->
  fst (init md abbrvs (el ++ String x EmptyString)%string kw) = Loops.
Proof.
  intros Hel Hd Ha Hs Hkw Hmd Hab.
  destruct el as [|c lows]; [discriminate|]. simpl in Hel.
  apply andb_true_iff in Hel as [Hc Hl].
  change ((String c lows ++ String x EmptyString)%string)
    with (String c (lows ++ String x EmptyString)%string) in *.
  set (key := String c (lows ++ String x EmptyString)%string) in *.
  unfold init, bind, lift, modify. rewrite Hkw.
  change (interpretcharge (ChargeInt z)) with (Ok (z, "+"%char)).
  cbv iota beta. cbn [fst snd].
  assert (Hcomp : forall m, composition abbrvs key m = (Ok [(key, 1)], m)).
  { intros m. unfold composition, bind, ret.
    destruct (String.length key) as [|f] eqn:Ef; [discriminate|].
    unfold key at 1. cbn [chew_loop]. unfold bind.
    fold key. unfold key at 1.
    rewrite (chew_stray f c lows x m Hc Hl Hd Ha Hs). fold key.
    cbn [fst snd]. destruct f; cbn [chew_loop]; unfold ret;
      unfold abbreviations, merge; simpl; rewrite Hab; reflexivity. }
  rewrite Hcomp. unfold checkinnist. cbn [foldM fst].
  unfold Dict.has_key. rewrite Hmd.
  unfold isotope, key.
  rewrite isotope_scan_loops; [reflexivity | | exact Hd | exact Ha].
  apply all_impl with (p := Py.islower); [apply islower_isalpha | exact Hl].
Qed.

Lemma init_hangs_on_stray_character_witness :
  fst (init example_md example_abbrvs ("C" ++ ")")%string default_kwargs)
  = Loops.
Proof.
  apply (init_hangs_on_stray_character example_md example_abbrvs
           "C" ")"%char default_kwargs 1); reflexivity.
Defined.

(** ** Tokens followed by more text *)

Lemma chew_token_then (f : nat) (key : string) (n : Z) (rest : string)
    (m : molecule) :
  element_symbol key = true -> 1 <= n -> starts_block rest ->
  chewformula (S f) (render key n ++ rest)%string m
  = (Ok (rest, [(key, n)]), m).
Proof.
  intros Hk Hn Hrest. destruct key as [|c lows]; [discriminate|].
  simpl in Hk. apply andb_true_iff in Hk as [Hc Hl].
  unfold render. fold (count_suffix n).
  change ((String c lows ++ count_suffix n) ++ rest)%string
    with (String c ((lows ++ count_suffix n) ++ rest)%string).
  cbn [chewformula]. rewrite Hc.
  rewrite (span_all (fun x => negb (Py.isupper x || in_sbrack x))
             (lows ++ count_suffix n)%string rest).
  - cbn [fst]. unfold bind, lift, ret.
    rewrite (interpret_token c lows n Hc Hl Hn).
    cbn [String.length Py.drop].
    rewrite <- (Nat.add_0_r (String.length (lows ++ count_suffix n))).
    now rewrite drop_app.
  - rewrite all_app. apply andb_true_iff. split.
    + apply all_impl with (p := Py.islower); [|exact Hl].
      apply islower_in_block.
    + apply all_impl with (p := Py.isdigit); [|apply count_suffix_digits].
      apply isdigit_in_block.
  - intros d r Hd. rewrite (Hrest d r Hd). reflexivity.
Qed.

Lemma tokens_then_starts_block (l : list (string * Z)) (rest : string) :
  (forall kv, In kv l -> element_symbol (fst kv) = true) ->
  starts_block rest -> starts_block (tokens l ++ rest)%string.
Proof.
  intros Hall Hrest. destruct l as [|[k n] l]; [exact Hrest|].
  intros c r. simpl.
  specialize (Hall (k, n) (or_introl eq_refl)). simpl in Hall.
  destruct k as [|d lows]; [discriminate|]. simpl in Hall.
  apply andb_true_iff in Hall as [Hd _].
  unfold render. simpl. intros H. injection H as <- _. now rewrite Hd.
Qed.

Lemma chew_tokens_then (f : nat)
    (upd : composition_t -> composition_t -> composition_t)
    (l : list (string * Z)) :
  (forall kv, In kv l -> element_symbol (fst kv) = true /\ 1 <= snd kv) ->
  forall (n : nat) (rest : string) (acc : composition_t) (m : molecule),
    starts_block rest ->
    chew_loop (chewformula (S f)) upd (List.length l + n)
      (tokens l ++ rest)%string acc m
    = chew_loop (chewformula (S f)) upd n rest
        (fold_left (fun d kv => upd [(fst kv, snd kv)] d) l acc) m.
Proof.
  induction l as [|[k v] l IH]; intros Hall n rest acc m Hrest;
    [reflexivity|].
  destruct (Hall (k, v) (or_introl eq_refl)) as [Hk Hv]. simpl in Hk, Hv.
  assert (Hl : forall kv, In kv l ->
                          element_symbol (fst kv) = true /\ 1 <= snd kv)
    by (intros kv Hin; apply Hall; now right).
  assert (Hchew : chewformula (S f) (tokens ((k, v) :: l) ++ rest)%string m
                  = (Ok ((tokens l ++ rest)%string, [(k, v)]), m)).
  { simpl tokens. rewrite string_app_assoc.
    apply chew_token_then; [exact Hk | exact Hv|].
    apply tokens_then_starts_block; [|exact Hrest].
    intros kv Hin. now apply Hl. }
  destruct (tokens ((k, v) :: l) ++ rest)%string as [|c r] eqn:Et.
  { destruct k as [|d lows]; [discriminate|]. discriminate Et. }
  cbn [List.length Nat.add chew_loop]. unfold bind. rewrite Hchew.
  cbn [fst snd fold_left]. now apply IH.
Qed.

(** ** Malformed formulas *)

Lemma bracket_scan_none (op cl : ascii) (s : string) :
  Py.any (fun c => Ascii.eqb c cl) s = false ->
  forall nest, bracket_scan op cl nest s = None.
Proof.
  induction s as [|c r IH]; intros H nest; simpl; [reflexivity|].
  simpl in H. apply orb_false_iff in H as [Hc Hr].
  rewrite Hc. destruct (Ascii.eqb c op); now rewrite IH.
Qed.

Lemma closing_of_opening (op cl : ascii) :
  closing_of op = Some cl ->
  Py.isupper op = false /\ in_sbrack op = true /\ Py.isdigit op = false.
Proof.
  unfold closing_of.
  destruct (Ascii.eqb_spec op "(") as [->|_]; [now intros _|].
  destruct (Ascii.eqb_spec op "{") as [->|_]; [now intros _|].
  destruct (Ascii.eqb_spec op "[") as [->|_]; [now intros _|].
  discriminate.
Qed.

(** X5: a formula of plain element tokens followed by an opening bracket
    whose closing bracket occurs nowhere after it raises [ValueError]; a
    formula that begins with a character that is neither an uppercase
    letter, an opening bracket nor a digit raises [TypeError] (the unpacking
    of the [None] that [chewformula] returns).  In both cases the instance
    is left as it was. *)
Theorem composition_rejects_malformed
    (abbrvs : Dict.t string composition_t) (m : molecule) :
  (forall (l : composition_t) (op cl : ascii) (rest : string),
      (forall kv, In kv l -> element_symbol (fst kv) = true /\ 1 <= snd kv) ->
      closing_of op = Some cl ->
      Py.any (fun c => Ascii.eqb c cl) rest = false ->
      composition abbrvs (tokens l ++ String op rest)%string m
      = (Raise ValueError, m)) /\
  (forall (c : ascii) (rest : string),
      Py.isupper c = false -> in_sbrack c = false -> Py.isdigit c = false ->
      composition abbrvs (String c rest) m = (Raise TypeError, m)).
Proof.
  split.
  - intros l op cl rest Hall Hcl Hrest.
    destruct (closing_of_opening op cl Hcl) as (Hup & Hsb & _).
    unfold composition, bind.
    set (formula := (tokens l ++ String op rest)%string).
    assert (Hlen : (List.length l + 1 <= String.length formula)%nat).
    { unfold formula. rewrite append_length. simpl.
      pose proof (tokens_length l (fun kv H => proj1 (Hall kv H))). lia. }
    destruct (String.length formula) as [|f] eqn:Ef; [lia|].
    replace (S f) with (List.length l + (S f - List.length l))%nat at 2
      by lia.
    unfold formula.
    rewrite chew_tokens_then;
      [|exact Hall | intros c r H; injection H as <- _; now rewrite Hsb, orb_true_r].
    destruct (S f - List.length l)%nat as [|n] eqn:En; [lia|].
    cbn [chew_loop chewformula]. unfold bind. rewrite Hup, Hsb.
    unfold bracket. rewrite Hcl.
    now rewrite (bracket_scan_none op cl rest Hrest).
  - intros c rest Hup Hsb Hd. unfold composition, bind.
    cbn [String.length chew_loop chewformula]. unfold bind.
    now rewrite Hup, Hsb, Hd.
Qed.

Lemma composition_rejects_malformed_witness :
  composition example_abbrvs (tokens [("C", 1)] ++ String "(" "H2O")%string
    water
  = (Raise ValueError, water).
Proof.
  apply (proj1 (composition_rejects_malformed example_abbrvs water)
           [("C", 1)] "("%char ")"%char "H2O").
  - intros kv [<-|[]]. split; [reflexivity | discriminate].
  - reflexivity.
  - reflexivity.
Defined.

(** ** Grouping the raw pattern *)

Lemma groupmasses_step (delta : Q) (p q : Q * Q) (rest : spectrum_t) :
  groupmasses delta (p :: q :: rest)
  = if Qle_bool (fst q - fst p) delta
    then match groupmasses delta (q :: rest) with
         | g :: gs => (p :: g) :: gs
         | [] => [[p]]
         end
    else [p] :: groupmasses delta (q :: rest).
Proof. reflexivity. Qed.

Lemma groupmasses_head (delta : Q) (q : Q * Q) (rest : spectrum_t) :
  exists g gs, groupmasses delta (q :: rest) = (q :: g) :: gs.
Proof.
  revert q. induction rest as [|r rest IH]; intros q.
  - now exists [], [].
  - rewrite groupmasses_step. destruct (IH r) as (g & gs & ->).
    destruct (Qle_bool (fst r - fst q) delta); eauto.
Qed.

(** X6: [groupmasses] cuts the raw pattern into consecutive groups: put one
    after the other the groups give the pattern back, consecutive masses
    within a group differ by at most [delta], and no group of a non-empty
    pattern is empty. *)
Theorem groupmasses_partition (delta : Q) (ip : spectrum_t) :
  List.concat (groupmasses delta ip) = ip /\
  Forall (close_chain delta) (groupmasses delta ip) /\
  (ip <> [] -> Forall (fun g => g <> []) (groupmasses delta ip)).
Proof.
  induction ip as [|p rest IH].
  - split; [reflexivity|]. split; [now repeat constructor | contradiction].
  - destruct rest as [|q rest].
    + split; [reflexivity|].
      split; [now repeat constructor|].
      intros _. now repeat constructor.
    + destruct IH as (Hc & Hch & Hne).
      specialize (Hne ltac:(discriminate)).
      rewrite groupmasses_step.
      destruct (groupmasses_head delta q rest) as (g & gs & Eg).
      rewrite Eg in *.
      destruct (Qle_bool (fst q - fst p) delta) eqn:E.
      * split; [simpl in *; now rewrite Hc|]. split.
        -- inversion Hch; subst. constructor; [|assumption].
           simpl. now split.
        -- intros _. inversion Hne; subst. now constructor.
      * split; [simpl in *; now rewrite Hc|]. split.
        -- constructor; [exact I | exact Hch].
        -- intros _. constructor; [discriminate | exact Hne].
Qed.

(** X7: [barisotopepattern] raises [ZeroDivisionError] on an empty raw
    pattern (the weighted mean of the one empty group is 0/0), and on a
    non-empty raw pattern of positive intensities when the charge is 0. *)
Theorem barisotopepattern_zero_division :
  (forall charge, barisotopepattern [] charge = Raise ZeroDivisionError) /\
  (forall rawip,
      rawip <> [] -> (forall p, In p rawip -> 0 < snd p)%Q ->
      barisotopepattern rawip 0 = Raise ZeroDivisionError).
Proof.
  split; [reflexivity|].
  intros rawip Hne Hpos. unfold barisotopepattern.
  destruct (mapM_total ipgrouptopoint (groupmasses (1 # 2) rawip))
    as (out & Eout).
  { intros g Hg.
    destruct (groupmasses_members (1 # 2) rawip Hne g Hg) as [Hg1 Hg2].
    destruct (ipgrouptopoint_total g Hg1) as (x & Hx & _).
    - intros p Hp. apply Hpos. now apply Hg2.
    - eexists. exact Hx. }
  rewrite Eout. simpl.
  destruct out as [|o out].
  { apply mapM_length in Eout.
    pose proof (groupmasses_nonempty (1 # 2) rawip).
    destruct (groupmasses (1 # 2) rawip); [contradiction | discriminate]. }
  destruct (max_total (map snd (o :: out))) as (maxint & ->);
    [discriminate|].
  reflexivity.
Qed.

Lemma barisotopepattern_zero_division_witness :
  barisotopepattern [(1, 50); (2, 30)]%Q 0 = Raise ZeroDivisionError.
Proof.
  apply (proj2 barisotopepattern_zero_division).
  - discriminate.
  - intros p [<-|[<-|[]]]; reflexivity.
Defined.

Lemma groupmasses_partition_witness :
  Forall (fun g => g <> []) (groupmasses (1 # 2) [(1, 50); (2, 30)]%Q).
Proof.
  apply (proj2 (proj2 (groupmasses_partition (1 # 2) [(1, 50); (2, 30)]%Q))).
  discriminate.
Defined.

(** ** Multiplication, and division after it *)

Lemma mul_loop_from (x : Z) (todo : composition_t) :
  forall pre : composition_t,
    NoDup (Dict.keys (pre ++ todo)) ->
    mul_loop x (Dict.keys todo) (pre ++ todo)
    = (pre ++ mul_counts x todo, None).
Proof.
  induction todo as [|[k v] rest IH]; intros pre Hnd; [reflexivity|].
  assert (Hfresh : ~ In k (Dict.keys pre)).
  { unfold Dict.keys in *. rewrite map_app in Hnd.
    apply NoDup_remove_2 in Hnd. intros Hc. apply Hnd.
    apply in_or_app. now left. }
  simpl Dict.keys. cbn [mul_loop].
  rewrite (get_app_fresh k pre ((k, v) :: rest) Hfresh).
  cbn [Dict.get]. rewrite keqb_refl.
  rewrite (put_app_fresh k (v * x) pre ((k, v) :: rest) Hfresh).
  cbn [Dict.put]. rewrite keqb_refl.
  replace (pre ++ (k, v * x) :: rest)
    with ((pre ++ [(k, v * x)]) ++ rest) by (now rewrite <- app_assoc).
  rewrite IH.
  - simpl. now rewrite <- app_assoc.
  - unfold Dict.keys in *. rewrite !map_app in *. simpl in *.
    now rewrite <- app_assoc.
Qed.

Lemma mul_counts_keys (x : Z) (c : composition_t) :
  Dict.keys (mul_counts x c) = Dict.keys c.
Proof.
  unfold Dict.keys, mul_counts. rewrite map_map. reflexivity.
Qed.

Lemma mul_comp (md : Dict.t string isotopes_t) (x : Z) (self : molecule) :
  NoDup (Dict.keys (comp self)) ->
  comp (snd (mul md x self)) = mul_counts x (comp self).
Proof.
  intros Hnd. unfold mul.
  pose proof (mul_loop_from x (comp self) [] Hnd) as H. simpl in H.
  rewrite H. now rewrite recalculate_comp.
Qed.

(** X8: [__mul__] by an integer k leaves every key in place with its count
    multiplied by k (also for k = 0 and for negative k: no key is removed),
    whatever the recalculation then does; for k other than 0, with k and
    the products below 2^53 in absolute value (where the doubles of
    [__div__] are exact), dividing the product by k gives back the
    composition, key by key and in the same order. *)
Theorem mul_then_div
    (md : Dict.t string isotopes_t) (x : Z) (self : molecule) :
  NoDup (Dict.keys (comp self)) ->
  comp (snd (mul md x self)) = mul_counts x (comp self) /\
  (x <> 0 -> Z.abs x < 2 ^ 53 ->
   counts_below (2 ^ 53) (mul_counts x (comp self)) ->
   comp (snd (div md x (snd (mul md x self)))) = comp self).
Proof.
  intros Hnd. split; [now apply mul_comp|]. intros Hx Hxb Hcb.
  set (m1 := snd (mul md x self)).
  assert (Hc1 : comp m1 = mul_counts x (comp self)) by now apply mul_comp.
  assert (Hnd1 : NoDup (Dict.keys (comp m1))).
  { now rewrite Hc1, mul_counts_keys. }
  assert (Hall : all_divisible x (comp m1)).
  { rewrite Hc1. intros kv Hin. unfold mul_counts in Hin.
    apply in_map_iff in Hin as (kv0 & <- & _). simpl.
    now apply Z.mod_mul. }
  assert (Hcb1 : counts_below (2 ^ 53) (comp m1)) by now rewrite Hc1.
  destruct (div_nonzero_cases md x m1 Hx Hxb Hcb1 Hnd1) as (Hok & _ & _).
  destruct (Hok Hall) as [_ ->]. rewrite Hc1.
  unfold scale_counts, mul_counts. rewrite map_map. simpl.
  rewrite <- (map_id (comp self)) at 2. apply map_ext.
  intros [k v]. simpl. now rewrite Z.div_mul.
Qed.

Lemma mul_then_div_witness :
  comp (snd (div example_md 3 (snd (mul example_md 3 water)))) = comp water.
Proof.
  apply (proj2 (mul_then_div example_md 3 water
                  ltac:(repeat constructor; simpl; intuition discriminate))).
  - discriminate.
  - reflexivity.
  - intros kv [<-|[<-|[]]]; reflexivity.
Defined.

(** ** Addition, and subtraction after it *)


Lemma In_put (k : string) (v : Z) (d : composition_t) (kv : string * Z) :
  In kv (Dict.put k v d) -> kv = (k, v) \/ In kv d.
Proof.
  induction d as [|[a b] r IH]; simpl.
  - intros [<-|[]]. now left.
  - destruct (String.eqb a k); simpl.
    + intros [<-|H]; [now left | right; now right].
    + intros [<-|H]; [right; now left|].
      destruct (IH H) as [->|H']; [now left | right; now right].
Qed.

Lemma In_del (k : string) (d : composition_t) (kv : string * Z) :
  In kv (Dict.del k d) -> In kv d.
Proof.
  induction d as [|[a b] r IH]; simpl; [contradiction|].
  destruct (String.eqb a k); simpl.
  - intros H. now right.
  - intros [<-|H]; [now left | right; now apply IH].
Qed.















(** ** Counts after a subtraction *)

Lemma sub_loop_positive (D : composition_t) :
  forall (X c' : composition_t) (o : option sub_stop),
    sub_loop D X = (c', o) ->
    (forall kv, In kv X -> 1 <= snd kv) ->
    forall kv, In kv c' -> 1 <= snd kv.
Proof.
  induction D as [|[k d] D IH]; intros X c' o H HX; simpl in H.
  - now injection H as <- _.
  - destruct (sub_key X (k, d)) as [X'|stop] eqn:Ek.
    + apply (IH X' c' o H). unfold sub_key in Ek. cbn [fst snd] in Ek.
      destruct (Dict.get k X) as [h|]; [|discriminate].
      destruct (0 <? h - d) eqn:E1.
      * injection Ek as <-. apply Z.ltb_lt in E1.
        intros kv Hin. apply In_put in Hin as [->|Hin];
          [simpl; lia | now apply HX].
      * destruct (h - d =? 0); [|discriminate].
        injection Ek as <-. intros kv Hin. apply In_del in Hin.
        now apply HX.
    + now injection H as <- _.
Qed.

Lemma addition_of_comp
    (abbrvs : Dict.t string composition_t) (x : operand) (self : molecule) :
  comp (snd (addition_of abbrvs x self)) = comp self.
Proof.
  destruct x as [s|o| |]; simpl; try reflexivity.
  destruct (composition_charge_only abbrvs s self) as (v & sg & ->).
  reflexivity.
Qed.

(** X10: whatever its operand and whatever its outcome, [__sub__] leaves no
    key with a count below 1 in a composition that had none: a count that
    reaches 0 removes its key, and a count that would be negative stops the
    loop before it is stored. *)
Theorem sub_keeps_counts_positive
    (md : Dict.t string isotopes_t) (abbrvs : Dict.t string composition_t)
    (x : operand) (self : molecule) :
  (forall kv, In kv (comp self) -> 1 <= snd kv) ->
  forall kv, In kv (comp (snd (sub md abbrvs x self))) -> 1 <= snd kv.
Proof.
  intros Hpos.
  assert (Happly : forall addition m,
             comp m = comp self ->
             forall kv, In kv (comp (snd (sub_apply md x addition m))) ->
                        1 <= snd kv).
  { intros addition m Hm kv. unfold sub_apply.
    destruct (sub_loop addition (comp m)) as [c o] eqn:El.
    assert (Hc : forall kv, In kv c -> 1 <= snd kv).
    { apply (sub_loop_positive addition (comp m) c o El).
      now rewrite Hm. }
    destruct o as [[|]|]; simpl.
    - apply Hc.
    - apply Hc.
    - rewrite recalculate_comp. simpl. apply Hc. }
  assert (Hbind : forall kv,
             In kv (comp (snd ((addition <- addition_of abbrvs x ;;
                                sub_apply md x addition)%py self))) ->
             1 <= snd kv).
  { unfold bind. pose proof (addition_of_comp abbrvs x self) as Hc.
    destruct (addition_of abbrvs x self) as [[addition| | |] m'];
      simpl in Hc; simpl; try (rewrite Hc; exact Hpos).
    now apply Happly. }
  destruct x as [s|o| |]; try exact Hbind.
  unfold sub. destruct (comp self) as [|kv0 rest] eqn:Ec.
  - apply Happly. exact Ec.
  - simpl. intros kv Hin. apply Hpos. now right.
Qed.

Lemma sub_keeps_counts_positive_witness :
  Forall (fun kv => 1 <= snd kv)
    (comp (snd (sub example_md example_abbrvs (OpStr "HO5") water))).
Proof.
  apply Forall_forall.
  apply (sub_keeps_counts_positive example_md example_abbrvs
           (OpStr "HO5") water).
  intros kv [<-|[<-|[]]]; discriminate.
Defined.

(** ** The order of the items *)

Lemma ascii_compare_lt_trans (x y z : ascii) :
  Ascii.compare x y = Lt -> Ascii.compare y z = Lt -> Ascii.compare x z = Lt.
Proof.
  unfold Ascii.compare. rewrite !N.compare_lt_iff. lia.
Qed.

Lemma string_compare_le_trans (a : string) :
  forall b c,
    String.compare a b <> Gt -> String.compare b c <> Gt ->
    String.compare a c <> Gt.
Proof.
  induction a as [|x a IH]; intros b c Hab Hbc.
  - destruct c; discriminate.
  - destruct b as [|y b]; [now simpl in Hab|].
    destruct c as [|z c]; [now simpl in Hbc|].
    simpl in *.
    destruct (Ascii.compare x y) eqn:Exy; [| |contradiction].
    + apply Ascii.compare_eq_iff in Exy. subst y.
      destruct (Ascii.compare x z); [now apply IH with b | discriminate|].
      contradiction.
    + destruct (Ascii.compare y z) eqn:Eyz; [| |contradiction].
      * apply Ascii.compare_eq_iff in Eyz. subst z.
        rewrite Exy. discriminate.
      * rewrite (ascii_compare_lt_trans x y z Exy Eyz). discriminate.
Qed.

Lemma string_compare_refl (a : string) : String.compare a a = Eq.
Proof.
  pose proof (String.compare_antisym a a) as H.
  destruct (String.compare a a); [reflexivity | discriminate | discriminate].
Qed.

Lemma item_leb_total (a b : string * Z) :
  item_leb a b = false -> item_leb b a = true.
Proof.
  unfold item_leb. rewrite (String.compare_antisym (fst b) (fst a)).
  destruct (String.compare (fst a) (fst b)); simpl; try discriminate.
  - intros H. apply Z.leb_gt in H. apply Z.leb_le. lia.
  - reflexivity.
Qed.

Lemma item_leb_antisym (a b : string * Z) :
  item_leb a b = true -> item_leb b a = true -> a = b.
Proof.
  unfold item_leb. rewrite (String.compare_antisym (fst b) (fst a)).
  destruct (String.compare (fst a) (fst b)) eqn:E; simpl; try discriminate.
  intros H1 H2. apply String.compare_eq_iff in E.
  apply Z.leb_le in H1, H2. destruct a, b; simpl in *. f_equal; [exact E|lia].
Qed.

Lemma item_leb_trans (a b c : string * Z) :
  item_leb a b = true -> item_leb b c = true -> item_leb a c = true.
Proof.
  unfold item_leb. intros Hab Hbc.
  assert (Hle : String.compare (fst a) (fst c) <> Gt).
  { apply string_compare_le_trans with (b := fst b).
    - destruct (String.compare (fst a) (fst b)); congruence.
    - destruct (String.compare (fst b) (fst c)); congruence. }
  destruct (String.compare (fst a) (fst c)) eqn:Eac;
    [|reflexivity | contradiction].
  apply String.compare_eq_iff in Eac.
  destruct (String.compare (fst a) (fst b)) eqn:Eab; try discriminate.
  - apply String.compare_eq_iff in Eab.
    rewrite <- Eab, Eac, string_compare_refl in Hbc.
    apply Z.leb_le in Hab, Hbc. apply Z.leb_le. lia.
  - rewrite <- Eac in Hbc.
    rewrite (String.compare_antisym (fst b) (fst a)), Eab in Hbc.
    discriminate.
Qed.

Lemma insert_item_comm (x y : string * Z) (l : list (string * Z)) :
  insert_item x (insert_item y l) = insert_item y (insert_item x l).
Proof.
  induction l as [|z l IH].
  - simpl. destruct (item_leb x y) eqn:Exy, (item_leb y x) eqn:Eyx;
      try reflexivity.
    + now rewrite (item_leb_antisym x y Exy Eyx).
    + apply item_leb_total in Exy. congruence.
  - simpl.
    destruct (item_leb y z) eqn:Eyz, (item_leb x z) eqn:Exz; simpl.
    + destruct (item_leb x y) eqn:Exy, (item_leb y x) eqn:Eyx;
        rewrite ?Exz, ?Eyz; try reflexivity.
      * now rewrite (item_leb_antisym x y Exy Eyx).
      * apply item_leb_total in Exy. congruence.
    + assert (Exy : item_leb x y = false).
      { destruct (item_leb x y) eqn:E; [|reflexivity].
        rewrite (item_leb_trans x y z E Eyz) in Exz. discriminate. }
      now rewrite ?Exy, ?Exz, ?Eyz.
    + assert (Eyx : item_leb y x = false).
      { destruct (item_leb y x) eqn:E; [|reflexivity].
        rewrite (item_leb_trans y x z E Exz) in Eyz. discriminate. }
      now rewrite ?Eyx, ?Eyz, ?Exz.
    + rewrite Exz, Eyz. now rewrite IH.
Qed.

Lemma sorted_items_Permutation_eq (c c' : composition_t) :
  Permutation c c' -> sorted_items c = sorted_items c'.
Proof.
  unfold sorted_items. induction 1; simpl.
  - reflexivity.
  - now f_equal.
  - apply insert_item_comm.
  - congruence.
Qed.

(** X11: the canonical formula does not depend on the order in which the
    dictionary holds its keys: two compositions with the same items, in any
    two orders, have the same canonical formula. *)
Theorem molecularformula_order_independent (c c' : composition_t) :
  NoDup (Dict.keys c) -> Permutation c c' ->
  molecularformula c = molecularformula c'.
Proof.
  intros Hnd Hp. unfold molecularformula.
  rewrite (get_Permutation "C" c c' Hp Hnd).
  rewrite (get_Permutation "H" c c' Hp Hnd).
  now rewrite (sorted_items_Permutation_eq c c' Hp).
Qed.

Lemma molecularformula_order_independent_witness :
  molecularformula [("O", 1); ("H", 2)] = molecularformula [("H", 2); ("O", 1)].
Proof.
  apply molecularformula_order_independent.
  - repeat constructor; simpl; intuition discriminate.
  - apply perm_swap.
Defined.

(** ** Abbreviations and groups *)

Lemma accumulate_scaled_fresh (n : Z) (l : composition_t) :
  forall acc : composition_t,
    NoDup (Dict.keys (acc ++ l)) ->
    fold_left (fun d kv => accumulate (fst kv) (snd kv * n) d) l acc
    = acc ++ mul_counts n l.
Proof.
  induction l as [|[k v] l IH]; intros acc Hnd; simpl.
  - now rewrite app_nil_r.
  - assert (Hfresh : ~ In k (Dict.keys acc)).
    { unfold Dict.keys in *. rewrite map_app in Hnd.
      apply NoDup_remove_2 in Hnd. intros Hc. apply Hnd.
      apply in_or_app. now left. }
    rewrite (accumulate_fresh k (v * n) acc Hfresh).
    rewrite IH.
    + now rewrite <- app_assoc.
    + unfold Dict.keys in *. rewrite <- app_assoc.
      rewrite !map_app in *. exact Hnd.
Qed.

Lemma get_mul_counts (n : Z) (k : string) (c : composition_t) :
  Dict.get k (mul_counts n c) = option_map (fun v => v * n) (Dict.get k c).
Proof.
  induction c as [|[a b] r IH]; simpl; [reflexivity|].
  destruct (String.eqb a k); [reflexivity | exact IH].
Qed.

(** X12: a token that is an abbreviation key, written with a count [n], is
    replaced by the constituents of the abbreviation, each with its count
    multiplied by [n]; the abbreviation key itself does not remain. *)
Theorem abbreviation_expands_scaled
    (abbrvs : Dict.t string composition_t) (k : string) (n : Z)
    (sub : composition_t) (m : molecule) :
  element_symbol k = true -> 1 <= n ->
  Dict.get k abbrvs = Some sub -> NoDup (Dict.keys sub) ->
  composition abbrvs (render k n) m = (Ok (mul_counts n sub), m).
Proof.
  intros Hk Hn Hab Hnd.
  rewrite <- (string_app_nil_r (render k n)).
  change ((render k n ++ "")%string) with (tokens [(k, n)]).
  unfold composition, bind, ret.
  assert (Hh : forall kv, In kv [(k, n)] ->
                          element_symbol (fst kv) = true /\ 1 <= snd kv).
  { intros kv [<-|[]]. now split. }
  assert (Hlen : (List.length [(k, n)]
                  <= String.length (tokens [(k, n)]))%nat).
  { apply tokens_length. intros x Hx. now apply Hh. }
  destruct (String.length (tokens [(k, n)])) as [|f] eqn:Ef;
    [simpl in Hlen; lia|].
  rewrite (chew_tokens f [(k, n)] Hh (S f) [] m Hlen).
  unfold abbreviations. simpl. rewrite Hab.
  now rewrite (accumulate_scaled_fresh n sub []).
Qed.

Lemma abbreviation_expands_scaled_witness :
  composition example_abbrvs (render "Ph" 2) water
  = (Ok (mul_counts 2 [("C", 6); ("H", 5)]), water).
Proof.
  apply (abbreviation_expands_scaled example_abbrvs "Ph" 2
           [("C", 6); ("H", 5)] water).
  - reflexivity.
  - discriminate.
  - reflexivity.
  - repeat constructor; simpl; intuition discriminate.
Defined.

Lemma closing_of_cases (op cl : ascii) :
  closing_of op = Some cl ->
  (op = "("%char /\ cl = ")"%char) \/
  (op = "{"%char /\ cl = "}"%char) \/
  (op = "["%char /\ cl = "]"%char).
Proof.
  unfold closing_of.
  destruct (Ascii.eqb_spec op "(") as [->|_];
    [intros H; injection H as <-; tauto|].
  destruct (Ascii.eqb_spec op "{") as [->|_];
    [intros H; injection H as <-; tauto|].
  destruct (Ascii.eqb_spec op "[") as [->|_];
    [intros H; injection H as <-; tauto|].
  discriminate.
Qed.

Lemma bracket_scan_plain (op cl : ascii) (block after : string) :
  Ascii.eqb cl op = false ->
  Py.all (not_bracket op cl) block = true ->
  bracket_scan op cl 1 (block ++ String cl after)%string
  = Some (block, after).
Proof.
  intros Hne. induction block as [|c r IH]; intros Hall; simpl.
  - now rewrite Hne, Ascii.eqb_refl.
  - simpl in Hall. apply andb_true_iff in Hall as [Hc Hr].
    unfold not_bracket in Hc. apply andb_true_iff in Hc as [H1 H2].
    apply negb_true_iff in H1, H2. rewrite H1, H2.
    now rewrite (IH Hr).
Qed.

Lemma alnum_not_bracket (op cl x : ascii) :
  closing_of op = Some cl ->
  Py.isalpha x || Py.isdigit x || is_mode x = true ->
  not_bracket op cl x = true.
Proof.
  intros Hcl Hx. unfold not_bracket.
  apply andb_true_iff. split; apply negb_true_iff, Ascii.eqb_neq;
    intros ->; apply closing_of_cases in Hcl;
    destruct Hcl as [[-> ->]|[[-> ->]|[-> ->]]];
    vm_compute in Hx; discriminate.
Qed.

Lemma tokens_alnum (l : list (string * Z)) :
  (forall kv, In kv l -> element_symbol (fst kv) = true) ->
  Py.all (fun x => Py.isalpha x || Py.isdigit x || is_mode x) (tokens l)
  = true.
Proof.
  induction l as [|[k n] l IH]; intros Hall; [reflexivity|].
  simpl. rewrite all_app. apply andb_true_iff. split.
  - specialize (Hall (k, n) (or_introl eq_refl)). simpl in Hall.
    destruct k as [|c lows]; [discriminate|]. simpl in Hall.
    apply andb_true_iff in Hall as [Hc Hl].
    unfold render. fold (count_suffix n).
    change ((String c lows ++ count_suffix n)%string)
      with (String c (lows ++ count_suffix n)%string).
    simpl. rewrite (isupper_isalpha c Hc). simpl.
    rewrite all_app. apply andb_true_iff. split.
    + apply all_impl with (p := Py.islower); [|exact Hl].
      intros x Hx. now rewrite (islower_isalpha x Hx).
    + apply all_impl with (p := Py.isdigit); [|apply count_suffix_digits].
      intros x Hx. rewrite Hx. now rewrite orb_true_r.
  - apply IH. intros kv Hin. apply Hall. now right.
Qed.

Lemma fold_merge_scaled (n : Z) (h : list (string * Z)) :
  forall acc,
    fold_left (fun d kv => merge_scaled n [(fst kv, snd kv)] d) h acc
    = fold_left (fun d kv => accumulate (fst kv) (snd kv * n) d) h acc.
Proof. induction h as [|kv h IH]; intros acc; simpl; auto. Qed.

Lemma chew_loop_tokens (f : nat)
    (upd : composition_t -> composition_t -> composition_t)
    (l : list (string * Z)) (acc : composition_t) (m : molecule) :
  (forall kv, In kv l -> element_symbol (fst kv) = true /\ 1 <= snd kv) ->
  chew_loop (chewformula (S f)) upd (String.length (tokens l)) (tokens l)
    acc m
  = (Ok (fold_left (fun d kv => upd [(fst kv, snd kv)] d) l acc), m).
Proof.
  intros Hall.
  pose proof (tokens_length l (fun kv H => proj1 (Hall kv H))) as Hlen.
  replace (String.length (tokens l))
    with (List.length l + (String.length (tokens l) - List.length l))%nat
    by lia.
  rewrite <- (string_app_nil_r (tokens l)) at 2.
  rewrite chew_tokens_then; [|exact Hall | discriminate].
  now destruct (String.length (tokens l) - List.length l)%nat.
Qed.

Lemma chewformula_bracket (f : nat) (c : ascii) (rest : string)
    (m : molecule) :
  Py.isupper c = false -> in_sbrack c = true ->
  chewformula (S f) (String c rest) m
  = bracket (chewformula f) (String c rest) m.
Proof. intros Hup Hsb. cbn [chewformula]. now rewrite Hup, Hsb. Qed.

(** [chewformula] on a bracketed group of plain tokens followed by the
    digits [ds] of its multiplier. *)
Lemma chew_group (f : nat) (h : list (string * Z)) (op cl : ascii)
    (ds : string) (n : Z) (m : molecule) :
  (forall kv, In kv h -> element_symbol (fst kv) = true /\ 1 <= snd kv) ->
  NoDup (Dict.keys h) ->
  closing_of op = Some cl ->
  Py.all Py.isdigit ds = true ->
  match ds with EmptyString => Ok 1 | _ => Py.int ds end = Ok n ->
  chewformula (S (S f)) (String op (tokens h ++ String cl ds)) m
  = (Ok (EmptyString, mul_counts n h), m).
Proof.
  intros Hall Hnd Hcl Hds Hn.
  destruct (closing_of_opening op cl Hcl) as (Hup & Hsb & _).
  assert (Hne : Ascii.eqb cl op = false).
  { apply closing_of_cases in Hcl.
    destruct Hcl as [[-> ->]|[[-> ->]|[-> ->]]]; reflexivity. }
  rewrite (chewformula_bracket (S f) op _ m Hup Hsb).
  unfold bracket. rewrite Hcl.
  rewrite (bracket_scan_plain op cl (tokens h) ds Hne).
  2:{ apply all_impl
        with (p := fun x => Py.isalpha x || Py.isdigit x || is_mode x).
      - intros x Hx. now apply alnum_not_bracket.
      - apply tokens_alnum. intros kv Hin. now apply Hall. }
  rewrite bracket_rest. rewrite (span_whole Py.isdigit ds Hds).
  cbn [fst snd]. unfold bind at 1, lift. rewrite Hn.
  unfold bind. rewrite (chew_loop_tokens f (merge_scaled n) h [] m Hall).
  rewrite fold_merge_scaled.
  rewrite (accumulate_scaled_fresh n h []) by exact Hnd.
  reflexivity.
Qed.

(** X13: a bracketed group of plain element tokens, in any of the three
    bracket families, followed by the decimal digits of a multiplier [n]
    parses to the composition of the group with every count multiplied by
    [n]; without digits the multiplier is 1. *)
Theorem group_multiplier
    (abbrvs : Dict.t string composition_t) (c : composition_t)
    (op cl : ascii) (m : molecule) :
  plain_composition abbrvs c ->
  closing_of op = Some cl ->
  (forall n : Z,
      0 <= n ->
      exists c',
        composition abbrvs
          (String op (molecularformula c ++ String cl (Py.str n))) m
        = (Ok c', m) /\
        forall k, Dict.get k c'
                  = option_map (fun v => v * n) (Dict.get k c)) /\
  (exists c',
      composition abbrvs
        (String op (molecularformula c ++ String cl EmptyString)) m
      = (Ok c', m) /\
      forall k, Dict.get k c' = Dict.get k c).
Proof.
  intros [Hnd Hall] Hcl.
  assert (Hh : forall kv, In kv (hill_order c) ->
                          element_symbol (fst kv) = true /\ 1 <= snd kv).
  { intros kv Hin. apply hill_order_In in Hin.
    destruct (Hall kv Hin) as (H1 & H2 & _). now split. }
  assert (Hhnd : NoDup (Dict.keys (hill_order c)))
    by now apply hill_order_NoDup.
  assert (Hparse : forall ds n,
             Py.all Py.isdigit ds = true ->
             match ds with EmptyString => Ok 1 | _ => Py.int ds end = Ok n ->
             composition abbrvs
               (String op (molecularformula c ++ String cl ds)) m
             = (Ok (mul_counts n (hill_order c)), m)).
  { intros ds n Hds Hn. rewrite molecularformula_tokens.
    unfold composition, bind, ret.
    set (formula := String op (tokens (hill_order c) ++ String cl ds)).
    assert (Hlen : (2 <= String.length formula)%nat).
    { unfold formula. simpl. rewrite append_length. simpl. lia. }
    destruct (String.length formula) as [|[|f]] eqn:Ef; try lia.
    unfold formula at 1. cbn [chew_loop]. unfold bind. fold formula.
    unfold formula.
    rewrite (chew_group f (hill_order c) op cl ds n m Hh Hhnd Hcl Hds Hn).
    cbn [fst snd chew_loop]. unfold ret. unfold merge.
    assert (Hk : Dict.keys (mul_counts n (hill_order c))
                 = Dict.keys (hill_order c)) by apply mul_counts_keys.
    rewrite (accumulate_all_fresh (mul_counts n (hill_order c)) [])
      by (simpl; now rewrite Hk).
    simpl app. rewrite abbreviations_plain_all; [reflexivity | |].
    - now rewrite Hk.
    - intros kv Hin. unfold mul_counts in Hin.
      apply in_map_iff in Hin as (kv0 & <- & Hin0). simpl.
      apply hill_order_In in Hin0. now apply Hall. }
  split.
  - intros n Hn. exists (mul_counts n (hill_order c)).
    destruct (str_spec n Hn) as (Hne & Hdig & _).
    split.
    + apply Hparse; [exact Hdig|].
      destruct (Py.str n) eqn:Es; [contradiction|].
      rewrite <- Es. now apply int_str.
    + intros k. now rewrite get_mul_counts, hill_order_get.
  - exists (mul_counts 1 (hill_order c)). split.
    + now apply Hparse.
    + intros k. rewrite get_mul_counts, hill_order_get by exact Hnd.
      destruct (Dict.get k c) as [v|]; simpl; [|reflexivity].
      f_equal. lia.
Qed.

Lemma group_multiplier_witness :
  exists c',
    composition example_abbrvs
      (String "(" (molecularformula [("O", 1); ("H", 2)]
                   ++ String ")" (Py.str 3))) water
    = (Ok c', water) /\
    forall k, Dict.get k c'
              = option_map (fun v => v * 3)
                  (Dict.get k [("O", 1); ("H", 2)]).
Proof.
  refine (proj1 (group_multiplier example_abbrvs [("O", 1); ("H", 2)]
                   "("%char ")"%char water _ eq_refl) 3 _).
  - split.
    + repeat constructor; simpl; intuition discriminate.
    + intros kv [<-|[<-|[]]]; repeat split; discriminate.
  - lia.
Defined.

(** ** Charge written in the formula *)

Lemma charge_scan_digits (ds : string) :
  Py.all Py.isdigit ds = true ->
  forall (rest value : string) (sg : ascii),
    charge_scan (ds ++ rest) value sg = charge_scan rest (value ++ ds) sg.
Proof.
  induction ds as [|c r IH]; intros Hall rest value sg; simpl.
  - now rewrite string_app_nil_r.
  - simpl in Hall. apply andb_true_iff in Hall as [Hc Hr].
    destruct (isdigit_not_sign c Hc) as [Hm Hp].
    unfold is_mode. rewrite Hm, Hp. simpl.
    rewrite (IH Hr). now rewrite string_app_assoc.
Qed.

Lemma interpretcharge_digits_sign (n : Z) (sg : ascii) :
  0 <= n -> is_mode sg = true ->
  interpretcharge (ChargeStr (Py.str n ++ String sg EmptyString))
  = Ok (n, sg).
Proof.
  intros Hn Hsg. destruct (str_spec n Hn) as (_ & Hdig & _).
  unfold interpretcharge. rewrite (charge_scan_digits _ Hdig).
  simpl. rewrite Hsg. simpl. now rewrite (int_str n Hn).
Qed.

Lemma any_alpha_charge (n : Z) (sg : ascii) :
  0 <= n -> is_mode sg = true ->
  Py.any Py.isalpha (Py.str n ++ String sg EmptyString) = false.
Proof.
  intros Hn Hsg. destruct (str_spec n Hn) as (_ & Hdig & _).
  induction (Py.str n) as [|c r IH]; simpl.
  - unfold is_mode in Hsg. apply orb_true_iff in Hsg as [H|H];
      apply Ascii.eqb_eq in H; subst sg; reflexivity.
  - simpl in Hdig. apply andb_true_iff in Hdig as [Hc Hr].
    now rewrite (isdigit_not_isalpha c Hc), (IH Hr).
Qed.

Lemma chew_loop_done (chew : string -> method (string * composition_t))
    (upd : composition_t -> composition_t -> composition_t) (n : nat)
    (acc : composition_t) (m : molecule) :
  chew_loop chew upd n EmptyString acc m = (Ok acc, m).
Proof. now destruct n. Qed.

Lemma chewformula_digits (f : nat) (c : ascii) (rest : string) (v : Z)
    (sg : ascii) (m : molecule) :
  Py.isdigit c = true ->
  Py.any Py.isalpha (String c rest) = false ->
  interpretcharge (ChargeStr (String c rest)) = Ok (v, sg) ->
  chewformula (S f) (String c rest) m
  = (Ok (EmptyString, []), set_charge v sg m).
Proof.
  intros Hd Hany Hic. cbn [chewformula].
  destruct (Py.isupper c) eqn:Eu.
  { apply isupper_not_isdigit in Eu. congruence. }
  destruct (in_sbrack c) eqn:Eb.
  { apply in_sbrack_not_isdigit in Eb. congruence. }
  rewrite Hd, Hany, Hic. reflexivity.
Qed.

(** [chewformula] on a bracket that holds a magnitude and a sign. *)
Lemma chew_charge (f : nat) (op cl sg : ascii) (n : Z) (m : molecule) :
  closing_of op = Some cl -> is_mode sg = true -> 0 <= n ->
  chewformula (S (S f))
    (String op (Py.str n ++ String sg (String cl EmptyString))) m
  = (Ok (EmptyString, []), set_charge n sg m).
Proof.
  intros Hcl Hsg Hn.
  destruct (closing_of_opening op cl Hcl) as (Hup & Hsb & _).
  destruct (str_spec n Hn) as (Hne & Hdig & _).
  assert (Hneq : Ascii.eqb cl op = false).
  { apply closing_of_cases in Hcl.
    destruct Hcl as [[-> ->]|[[-> ->]|[-> ->]]]; reflexivity. }
  rewrite (chewformula_bracket (S f) op _ m Hup Hsb).
  unfold bracket. rewrite Hcl.
  change (Py.str n ++ String sg (String cl EmptyString))%string
    with (Py.str n ++ (String sg EmptyString ++ String cl EmptyString))%string.
  rewrite <- string_app_assoc.
  rewrite (bracket_scan_plain op cl _ EmptyString Hneq).
  2:{ apply all_impl
        with (p := fun x => Py.isalpha x || Py.isdigit x || is_mode x).
      - intros x Hx. now apply alnum_not_bracket.
      - rewrite all_app. apply andb_true_iff. split.
        + apply all_impl with (p := Py.isdigit); [|exact Hdig].
          intros x Hx. rewrite Hx. now rewrite orb_true_r.
        + simpl. rewrite Hsg. now rewrite orb_true_r. }
  rewrite bracket_rest. cbn [Py.span fst snd]. unfold bind at 1, lift.
  pose proof (interpretcharge_digits_sign n sg Hn Hsg) as Hic.
  pose proof (any_alpha_charge n sg Hn Hsg) as Hany.
  destruct (Py.str n) as [|d r] eqn:Es; [contradiction|].
  simpl in Hdig. apply andb_true_iff in Hdig as [Hd _].
  change ((String d r ++ String sg EmptyString)%string)
    with (String d (r ++ String sg EmptyString)%string) in *.
  cbn [String.length chew_loop]. unfold bind.
  rewrite (chewformula_digits f d _ n sg m Hd Hany Hic).
  cbn [fst snd]. rewrite chew_loop_done. reflexivity.
Qed.

Lemma chewformula_sign (f : nat) (sg : ascii) (rest : string)
    (m : molecule) :
  is_mode sg = true ->
  chewformula (S f) (String sg rest) m = (Raise TypeError, m).
Proof.
  intros Hsg. cbn [chewformula].
  unfold is_mode in Hsg. apply orb_true_iff in Hsg as [H|H];
    apply Ascii.eqb_eq in H; subst sg; reflexivity.
Qed.

(** X14: a magnitude and a sign in brackets after the element tokens of a
    formula set the charge and the sign of the instance and add nothing to
    the composition, whatever the charge was before; with the sign written
    before the magnitude the bracket raises [TypeError] and the charge is
    left alone. *)
Theorem charge_in_brackets
    (abbrvs : Dict.t string composition_t) (l : composition_t)
    (op cl sg : ascii) (n : Z) (m : molecule) :
  plain_composition abbrvs l ->
  closing_of op = Some cl ->
  is_mode sg = true ->
  0 <= n ->
  composition abbrvs
    (tokens l ++ String op (Py.str n ++ String sg (String cl EmptyString))) m
  = (Ok l, set_charge n sg m) /\
  composition abbrvs
    (tokens l ++ String op (String sg (Py.str n ++ String cl EmptyString))) m
  = (Raise TypeError, m).
Proof.
  intros [Hnd Hall] Hcl Hsg Hn.
  assert (Hh : forall kv, In kv l ->
                          element_symbol (fst kv) = true /\ 1 <= snd kv).
  { intros kv Hin. destruct (Hall kv Hin) as (H1 & H2 & _). now split. }
  destruct (closing_of_opening op cl Hcl) as (Hup & Hsb & _).
  pose proof (tokens_length l (fun kv H => proj1 (Hh kv H))) as Hlen.
  assert (Hstart : forall r, starts_block (String op r)).
  { intros r c r' H. injection H as <- _. rewrite Hsb. apply orb_true_r. }
  assert (Hacc : fold_left (fun d kv => merge [(fst kv, snd kv)] d) l [] = l).
  { unfold merge. simpl. now apply (accumulate_all_fresh l []). }
  split.
  - unfold composition, bind, ret.
    set (rest := String op
                   (Py.str n ++ String sg (String cl EmptyString))).
    assert (Hr : (2 <= String.length rest)%nat).
    { unfold rest. simpl. rewrite append_length. simpl. lia. }
    rewrite append_length.
    destruct (String.length rest) as [|[|f]] eqn:Er; try lia.
    replace (String.length (tokens l) + S (S f))%nat
      with (S (S (String.length (tokens l) + f)))%nat at 1 by lia.
    replace (String.length (tokens l) + S (S f))%nat
      with (List.length l
            + S (String.length (tokens l) - List.length l + S f))%nat by lia.
    rewrite chew_tokens_then; [|exact Hh | apply Hstart].
    rewrite Hacc. unfold rest. cbn [chew_loop]. unfold bind.
    rewrite (chew_charge _ op cl sg n m Hcl Hsg Hn).
    cbn [fst snd]. rewrite chew_loop_done. unfold merge at 1.
    cbn [fold_left].
    rewrite abbreviations_plain_all; [reflexivity | exact Hnd |].
    intros kv Hin. now apply Hall.
  - unfold composition, bind, ret.
    set (rest := String op
                   (String sg (Py.str n ++ String cl EmptyString))).
    assert (Hr : (2 <= String.length rest)%nat).
    { unfold rest. simpl. lia. }
    rewrite append_length.
    destruct (String.length rest) as [|[|f]] eqn:Er; try lia.
    replace (String.length (tokens l) + S (S f))%nat
      with (S (S (String.length (tokens l) + f)))%nat at 1 by lia.
    replace (String.length (tokens l) + S (S f))%nat
      with (List.length l
            + S (String.length (tokens l) - List.length l + S f))%nat by lia.
    rewrite chew_tokens_then; [|exact Hh | apply Hstart].
    rewrite Hacc. unfold rest. cbn [chew_loop]. unfold bind.
    rewrite (chewformula_bracket _ op _ m Hup Hsb).
    unfold bracket. rewrite Hcl.
    assert (Hneq : Ascii.eqb cl op = false).
    { apply closing_of_cases in Hcl.
      destruct Hcl as [[-> ->]|[[-> ->]|[-> ->]]]; reflexivity. }
    destruct (str_spec n Hn) as (_ & Hdig & _).
    change (String sg (Py.str n ++ String cl EmptyString))
      with ((String sg (Py.str n)) ++ String cl EmptyString)%string.
    rewrite (bracket_scan_plain op cl _ EmptyString Hneq).
    2:{ apply all_impl
          with (p := fun x => Py.isalpha x || Py.isdigit x || is_mode x).
        - intros x Hx. now apply alnum_not_bracket.
        - simpl. rewrite Hsg, orb_true_r. simpl.
          apply all_impl with (p := Py.isdigit); [|exact Hdig].
          intros x Hx. rewrite Hx. now rewrite orb_true_r. }
    cbn [Py.span fst snd]. unfold bind at 1, lift.
    cbn [String.length chew_loop]. unfold bind.
    rewrite chewformula_sign by exact Hsg. reflexivity.
Qed.

Lemma charge_in_brackets_witness :
  composition example_abbrvs
    (tokens [("C", 1); ("O", 3)]
     ++ String "(" (Py.str 2 ++ String "-" (String ")" EmptyString))) water
  = (Ok [("C", 1); ("O", 3)], set_charge 2 "-" water) /\
  composition example_abbrvs
    (tokens [("C", 1); ("O", 3)]
     ++ String "(" (String "-" (Py.str 2 ++ String ")" EmptyString))) water
  = (Raise TypeError, water).
Proof.
  apply (charge_in_brackets example_abbrvs [("C", 1); ("O", 3)]
           "("%char ")"%char "-"%char 2 water).
  - split.
    + repeat constructor; simpl; intuition discriminate.
    + intros kv [<-|[<-|[]]]; repeat split; discriminate.
  - reflexivity.
  - reflexivity.
  - lia.
Defined.

(** ** What the parser can do *)

Lemma int_unsigned_outcome (s : string) :
  parse_result (fun _ => True) (Py.int_unsigned s).
Proof.
  unfold Py.int_unsigned. destruct s; [exact I|].
  now destruct (Py.all _ _).
Qed.

Lemma int_outcome (s : string) : parse_result (fun _ => True) (Py.int s).
Proof.
  unfold Py.int. destruct (Py.strip s) as [|c r]; [exact I|].
  destruct (Ascii.eqb c "-").
  - pose proof (int_unsigned_outcome r) as H.
    destruct (Py.int_unsigned r) as [v|e| |]; simpl in *; auto.
  - destruct (Ascii.eqb c "+"); apply int_unsigned_outcome.
Qed.

Lemma interpret_outcome (block : string) :
  block <> EmptyString -> parse_result (fun _ => True) (interpret block).
Proof.
  unfold interpret. destruct block as [|c rest]; [contradiction|].
  intros _. destruct (Py.isdigit c); [exact I|].
  destruct (Py.filter Py.isdigit rest) as [|d t]; [exact I|].
  pose proof (int_outcome (String d t)) as H.
  destruct (Py.int (String d t)) as [v|e| |]; simpl in *; auto.
Qed.

Lemma interpretcharge_outcome (a : charge_arg) :
  parse_result (fun _ => True) (interpretcharge a).
Proof.
  unfold interpretcharge. destruct a as [z|s]; [exact I|].
  destruct (charge_scan s EmptyString "+") as [value sg].
  pose proof (int_outcome value) as H.
  destruct (Py.int value) as [v|e| |]; simpl in *; auto.
Qed.

Lemma chew_loop_outcome
    (chew : string -> method (string * composition_t))
    (upd : composition_t -> composition_t -> composition_t) (N : nat) :
  chew_outcome chew N ->
  forall n block out m,
    (n <= N)%nat -> (String.length block <= n)%nat ->
    parse_result (fun _ => True) (fst (chew_loop chew upd n block out m)).
Proof.
  intros Hchew.
  induction n as [|n IH]; intros block out m HN Hlen;
    destruct block as [|c r]; simpl in *; try exact I; try lia.
  unfold bind.
  pose proof (Hchew (String c r) m) as Hr.
  destruct (chew (String c r) m) as [[x|e| |] m']; simpl in *;
    try (apply Hr; [discriminate | lia]).
  apply IH; [lia|].
  assert (H : (String.length (fst x) < S (String.length r))%nat)
    by (apply Hr; [discriminate | lia]).
  lia.
Qed.

Lemma chewformula_outcome (fuel : nat) :
  chew_outcome (chewformula fuel) fuel.
Proof.
  induction fuel as [|fuel IH]; intros formula m Hne Hlen.
  { destruct formula; [contradiction | simpl in Hlen; lia]. }
  destruct formula as [|c rest]; [contradiction|]. simpl in Hlen. simpl.
  destruct (Py.isupper c).
  { unfold bind, lift, ret.
    pose proof (interpret_outcome
      (String c (fst (Py.span
         (fun x => negb (Py.isupper x || in_sbrack x)) rest)))) as Hi.
    destruct (interpret _) as [d|e| |]; simpl in *;
      try (apply Hi; discriminate).
    rewrite span_drop.
    pose proof (span_length
                  (fun x => negb (Py.isupper x || in_sbrack x)) rest).
    lia. }
  destruct (in_sbrack c).
  { unfold bracket.
    destruct (closing_of c) as [cl|]; [|exact I].
    destruct (bracket_scan c cl 1 rest) as [[block after]|] eqn:Hscan;
      [|exact I].
    apply bracket_scan_app in Hscan. subst rest.
    rewrite append_length in Hlen. simpl in Hlen.
    unfold bind at 1, lift.
    pose proof (int_outcome (fst (Py.span Py.isdigit after))) as Hi.
    destruct (match fst (Py.span Py.isdigit after) with
              | EmptyString => Ok 1
              | String _ _ => Py.int (fst (Py.span Py.isdigit after))
              end) as [n|e| |] eqn:En.
    2-4: destruct (fst (Py.span Py.isdigit after));
      [discriminate | rewrite En in Hi; exact Hi].
    unfold bind.
    assert (Hprog : chew_outcome (chewformula fuel) (String.length block)).
    { intros s m0 Hs Hl. apply IH; [exact Hs | lia]. }
    pose proof (chew_loop_outcome (chewformula fuel) (merge_scaled n)
                  (String.length block) Hprog
                  (String.length block) block [] m (le_n _) (le_n _)) as Hloop.
    destruct (chew_loop _ _ _ _ _ m) as [[d|e| |] m']; simpl in *;
      try exact Hloop.
    rewrite bracket_rest. rewrite append_length. simpl.
    pose proof (span_length Py.isdigit after). lia. }
  destruct (Py.isdigit c); [|exact I].
  destruct (Py.isalpha c || Py.any Py.isalpha rest).
  { unfold ret. simpl. lia. }
  unfold bind, lift, modify, ret.
  pose proof (interpretcharge_outcome (ChargeStr (String c rest))) as Hi.
  destruct (interpretcharge _) as [cs|e| |]; simpl in *; try exact Hi.
  lia.
Qed.

(** X15: on every formula and every instance, [composition] comes back: it
    returns a composition or raises [ValueError] or [TypeError], and no other
    error; the nesting of brackets never takes it into a loop without end
    (the recursion limit of the interpreter is left out of the model). *)
Theorem composition_returns_or_raises
    (abbrvs : Dict.t string composition_t) (formula : string) (m : molecule) :
  (exists c, fst (composition abbrvs formula m) = Ok c) \/
  fst (composition abbrvs formula m) = Raise ValueError \/
  fst (composition abbrvs formula m) = Raise TypeError.
Proof.
  unfold composition, bind, ret.
  pose proof (chew_loop_outcome
                (chewformula (String.length formula)) merge
                (String.length formula) (chewformula_outcome _)
                (String.length formula) formula [] m (le_n _) (le_n _)) as H.
  destruct (chew_loop _ _ _ _ _ m) as [[d|e| |] m']; simpl in *;
    try contradiction.
  - left. now eexists.
  - destruct e; try contradiction; auto.
Qed.

(** ** default and reset *)

Lemma calculate_ks (md : Dict.t string isotopes_t) (m : molecule) :
  ks (snd (calculate md m)) = ks m.
Proof.
  unfold calculate, bind, modify. simpl.
  destruct (molecularweight md (comp m)) as [wp| | |]; simpl; try reflexivity.
  destruct (rawisotopepattern md (comp m) _ _ _) as [raw| | |]; simpl;
    try reflexivity.
  destruct (barisotopepattern raw _) as [bar| | |]; simpl; try reflexivity.
  destruct (preciseexactmass bar) as [e| | |]; simpl; try reflexivity.
  destruct (sigmafwhm e _) as [w| | |]; reflexivity.
Qed.

Lemma recalculate_ks (md : Dict.t string isotopes_t) (m : molecule) :
  ks (snd (recalculate md m)) = ks m.
Proof.
  unfold recalculate, bind, modify, gets.
  pose proof (calculate_ks md m) as H.
  destruct (calculate md m) as [[u| | |] m']; simpl in *; exact H.
Qed.

Lemma mul_ks (md : Dict.t string isotopes_t) (x : Z) (self : molecule) :
  ks (snd (mul md x self)) = ks self.
Proof.
  unfold mul.
  destruct (mul_loop x (Dict.keys (comp self)) (comp self)) as [c [e|]];
    [reflexivity|].
  now rewrite recalculate_ks.
Qed.

(** X16: [reset] after a multiplication does not undo it.  On an instance
    as [__init__] leaves it ([default] called once), [__mul__] by k followed
    by [reset] gives back the formula text, the canonical formula, the
    weight and the patterns of the time of [default], but the composition
    keeps the multiplied counts, whatever the multiplication returned or
    raised, and the keyword dictionary is the one it was; the instance then has no attribute [original], and a second
    [reset] raises [AttributeError]. *)
Theorem reset_keeps_product
    (md : Dict.t string isotopes_t) (x : Z) (m : molecule) :
  NoDup (Dict.keys (comp m)) ->
  exists i',
    reset (snd (call (mul md x) (default (mkInstance m None))))
    = ResetDone i' /\
    comp (attrs i') = mul_counts x (comp m) /\
    ks (attrs i') = ks m /\
    formula (attrs i') = formula m /\
    sf (attrs i') = sf m /\
    mw (attrs i') = mw m /\
    pcomp (attrs i') = pcomp m /\
    rawip (attrs i') = rawip m /\
    barip (attrs i') = barip m /\
    em (attrs i') = em m /\
    fwhm (attrs i') = fwhm m /\
    reset i' = ResetAttributeError.
Proof.
  intros Hnd. unfold call, default, reset. cbn [attrs original snd].
  eexists. split; [reflexivity|].
  cbn [attrs original comp ks formula sf mw pcomp rawip barip em fwhm].
  rewrite (mul_comp md x m Hnd), (mul_ks md x m). repeat split; reflexivity.
Qed.

Lemma reset_keeps_product_witness :
  exists i',
    reset (snd (call (mul example_md 2) (default (mkInstance water None))))
    = ResetDone i' /\
    comp (attrs i') = mul_counts 2 (comp water) /\
    ks (attrs i') = ks water /\
    formula (attrs i') = formula water /\
    sf (attrs i') = sf water /\
    mw (attrs i') = mw water /\
    pcomp (attrs i') = pcomp water /\
    rawip (attrs i') = rawip water /\
    barip (attrs i') = barip water /\
    em (attrs i') = em water /\
    fwhm (attrs i') = fwhm water /\
    reset i' = ResetAttributeError.
Proof.
  apply (reset_keeps_product example_md 2 water).
  repeat constructor; simpl; intuition discriminate.
Defined.

(** ** Percent composition *)

Lemma fold_plus_from (l : list Q) :
  forall a : Q, (fold_left Qplus l a == a + fold_left Qplus l 0)%Q.
Proof.
  induction l as [|x l IH]; intros a; simpl.
  - ring.
  - rewrite (IH (a + x)%Q), (IH (0 + x)%Q). ring.
Qed.

Lemma sum_cons (x : Q) (l : list Q) :
  (Py.sum (x :: l) == x + Py.sum l)%Q.
Proof. unfold Py.sum. simpl. rewrite fold_plus_from. ring. Qed.

Lemma accumulateQ_other (k k' : string) (c v : Q) (r : Dict.t string Q) :
  keqb k' k = false ->
  accumulateQ k c ((k', v) :: r) = (k', v) :: accumulateQ k c r.
Proof.
  intros H. unfold accumulateQ. cbn [Dict.get]. rewrite H.
  destruct (Dict.get k r); cbn [Dict.put]; now rewrite H.
Qed.

Lemma sum_accumulateQ (k : string) (c : Q) (d : Dict.t string Q) :
  (Py.sum (map snd (accumulateQ k c d)) == Py.sum (map snd d) + c)%Q.
Proof.
  induction d as [|[k' v] r IH].
  - unfold accumulateQ. cbn [Dict.get Dict.put map snd].
    rewrite sum_cons. unfold Py.sum. simpl. ring.
  - destruct (keqb k' k) eqn:E.
    + unfold accumulateQ. cbn [Dict.get]. rewrite E. cbn [Dict.put].
      rewrite E. cbn [map snd]. rewrite !sum_cons. ring.
    + rewrite (accumulateQ_other k k' c v r E). simpl.
      rewrite !sum_cons, IH. ring.
Qed.

(** The loop of [molecularweight] over an element of natural abundance
    keeps the entries of [pcompout] adding up to [mwout]. *)
Lemma mw_element_natural (md : Dict.t string isotopes_t)
    (acc : Q * Dict.t string Q) (kv : string * Z) :
  Dict.has_key (fst kv) md = true ->
  (Py.sum (map snd (snd acc)) == fst acc)%Q ->
  exists acc',
    mw_element md acc kv = Ok acc' /\
    (Py.sum (map snd (snd acc')) == fst acc')%Q.
Proof.
  unfold Dict.has_key, mw_element. intros Hk Hinv.
  destruct (Dict.get (fst kv) md) as [isos|]; [|discriminate].
  eexists. split; [reflexivity|].
  revert acc Hinv. induction isos as [|im isos IH]; intros acc Hinv; simpl;
    [exact Hinv|].
  apply IH. destruct (fst im =? 0); [exact Hinv|]. simpl.
  rewrite sum_accumulateQ, Hinv. reflexivity.
Qed.

Lemma mw_fold_natural (md : Dict.t string isotopes_t) (comp : composition_t) :
  (forall kv, In kv comp -> Dict.has_key (fst kv) md = true) ->
  forall acc : Q * Dict.t string Q,
    (Py.sum (map snd (snd acc)) == fst acc)%Q ->
    exists r,
      foldM (mw_element md) comp acc = Ok r /\
      (Py.sum (map snd (snd r)) == fst r)%Q.
Proof.
  induction comp as [|kv comp IH]; intros Hall acc Hinv; simpl.
  - now exists acc.
  - destruct (mw_element_natural md acc kv (Hall kv (or_introl eq_refl)) Hinv)
      as (acc' & -> & Hinv'). simpl.
    apply IH; [|exact Hinv']. intros x Hx. apply Hall. now right.
Qed.

Lemma percent_division (w : Q) (d : Dict.t string Q) :
  ~ (w == 0)%Q ->
  mapM (fun ev => rbind (Py.fdiv (snd ev) w) (fun p => Ok (fst ev, p))) d
  = Ok (map (fun ev => (fst ev, (snd ev / w)%Q)) d).
Proof.
  intros Hw. induction d as [|ev d IH]; simpl; [reflexivity|].
  rewrite (fdiv_total (snd ev) w Hw). simpl. now rewrite IH.
Qed.

Lemma sum_scaled (w : Q) (d : Dict.t string Q) :
  ~ (w == 0)%Q ->
  (Py.sum (map snd (map (fun ev => (fst ev, (snd ev / w)%Q)) d))
   == Py.sum (map snd d) / w)%Q.
Proof.
  intros Hw. induction d as [|ev d IH]; simpl.
  - unfold Py.sum. simpl. field. exact Hw.
  - rewrite !sum_cons, IH. field. exact Hw.
Qed.

(** X17: for a composition all of whose keys are elements of the mass
    table, [molecularweight] either raises [ZeroDivisionError] (the weight
    is zero and there is an entry to divide) or returns a weight and a
    percent composition whose entries, when there are any, add up to 1. *)
Theorem percent_composition_sums_to_one
    (md : Dict.t string isotopes_t) (comp : composition_t) :
  (forall kv, In kv comp -> Dict.has_key (fst kv) md = true) ->
  molecularweight md comp = Raise ZeroDivisionError \/
  exists (w : Q) (pc : Dict.t string Q),
    molecularweight md comp = Ok (w, pc) /\
    (pc = [] \/ (Py.sum (map snd pc) == 1)%Q).
Proof.
  intros Hall. unfold molecularweight.
  destruct (mw_fold_natural md comp Hall (0%Q, []))
    as ([w d] & -> & Hinv); [reflexivity|].
  cbn [rbind fst snd] in *.
  destruct d as [|ev d].
  { right. exists w, []. split; [reflexivity | now left]. }
  destruct (Qeq_bool w 0) eqn:Ew.
  - left. cbn [mapM]. unfold Py.fdiv. rewrite Ew. reflexivity.
  - right.
    assert (Hw : ~ (w == 0)%Q).
    { intros Hc. apply Qeq_bool_iff in Hc. congruence. }
    rewrite (percent_division w (ev :: d) Hw). cbn [rbind].
    eexists _, _. split; [reflexivity|]. right.
    rewrite (sum_scaled w (ev :: d) Hw), Hinv. field. exact Hw.
Qed.

Lemma percent_composition_sums_to_one_witness :
  molecularweight example_md [("H", 2); ("O", 1)] = Raise ZeroDivisionError \/
  exists (w : Q) (pc : Dict.t string Q),
    molecularweight example_md [("H", 2); ("O", 1)] = Ok (w, pc) /\
    (pc = [] \/ (Py.sum (map snd pc) == 1)%Q).
Proof.
  apply (percent_composition_sums_to_one example_md [("H", 2); ("O", 1)]).
  intros kv [<-|[<-|[]]]; reflexivity.
Defined.
